(** * Celestial Christmas tree: the per-frame animation update and the
    gesture sampler, embedded from [components/ThreeScene.tsx] and [App.tsx].

    JavaScript numbers are IEEE-754 binary64 values; they are modelled by
    Rocq's primitive floats, whose operations are the same correctly
    rounded binary64 operations.  The particle buffers of the scene are
    [Float32Array]s: a store into them rounds the number to binary32
    ([fround]), a load widens it back exactly.  [Math.sin], [Math.cos] and
    [Math.pow] are implementation-approximated in ECMAScript and are kept
    behind the interface [JsMath]. *)

From Stdlib Require Import ZArith QArith Qabs Qpower Lia Lqa Floats.
From Stdlib Require Uint63 Ascii String.
From stdpp Require Import base list.

Set Warnings "-inexact-float".

(** ** JavaScript numbers *)

Module JsNumber.

(** [Math.fround]: the binary32 value nearest to a binary64 number (ties to
    even, overflow to an infinity, underflow through the binary32
    subnormals to a signed zero); this is the conversion a [Float32Array]
    applies on every store. *)
Definition fround (v : float) : float :=
  match Prim2SF v with
  | S754_finite s m e => SF2Prim (binary_round 24 128 s m e)
  | _ => v
  end.

(** A number that a [Float32Array] cell can hold. *)
Definition is_f32 (v : float) : Prop := fround v = v.

(** [ToBoolean] on a number: [0], [-0] and [NaN] are falsy. *)
Definition truthy (v : float) : bool :=
  negb (PrimFloat.eqb v 0%float) && negb (PrimFloat.is_nan v).

(** [a || b] on numbers. *)
Definition or_else (a b : float) : float := if truthy a then a else b.

(** A loop counter used as a number. *)
Definition of_index (i : nat) : float :=
  PrimFloat.of_uint63 (Uint63.of_Z (Z.of_nat i)).

Definition Math_PI : float := 3.141592653589793%float.

End JsNumber.
Import JsNumber.

(** The implementation-approximated part of [Math]. *)
Class JsMath := {
  Math_sin : float -> float;
  Math_cos : float -> float;
  Math_pow : float -> float -> float
}.

(** ** The parts of three.js the scene relies on *)

(** The update [this.x += (v.x - this.x) * alpha] of [Vector3.lerp], over the
    arithmetic it is run on: the scene runs it on binary64 numbers. *)
Section Lerp.
Context {T : Type} (add sub mul : T -> T -> T).

Definition lerp1 (this v alpha : T) : T := add this (mul (sub v this) alpha).
End Lerp.

Module Three.

Record Vector3 := mkVector3 { x : float; y : float; z : float }.

Definition origin : Vector3 := mkVector3 0 0 0.

(** [Vector3.set] *)
Definition set (_ : Vector3) (x y z : float) : Vector3 := mkVector3 x y z.

Definition flerp1 : float -> float -> float -> float :=
  lerp1 PrimFloat.add PrimFloat.sub PrimFloat.mul.

(** [Vector3.lerp] *)
Definition lerp (this v : Vector3) (alpha : float) : Vector3 :=
  mkVector3 (flerp1 (x this) (x v) alpha)
            (flerp1 (y this) (y v) alpha)
            (flerp1 (z this) (z v) alpha).

(** A [Float32Array]: its cells, as the numbers a load returns. *)
Abbreviation Float32Array := (list float).

(** [new Float32Array(n)] is zero-filled. *)
Definition new_Float32Array (n : nat) : Float32Array := replicate n 0%float.

(** [a[i]] used as a number; out of range the load is [undefined], which
    arithmetic and stores read as [NaN]. *)
Definition load (a : Float32Array) (i : nat) : float := default nan (a !! i).

(** [a[i] = v]: rounds to binary32; out of range the store is ignored. *)
Definition store (a : Float32Array) (i : nat) (v : float) : Float32Array :=
  <[i := fround v]> a.

(** [PointsMaterial], the two fields the animation writes. *)
Record PointsMaterial := mkPointsMaterial { opacity : float; size : float }.

(** A memory panel: the mesh position, the opacity of its
    [MeshBasicMaterial] and [userData.birth]. *)
Record Mesh := mkMesh { position : Vector3; mat_opacity : float; birth : float }.

(** The [x] and [y] fields of [Group.rotation]. *)
Record Euler := mkEuler { rx : float; ry : float }.

End Three.

(** ** components/ThreeScene.tsx *)

Section ThreeScene.
Context {M : JsMath}.
Import Three.
Local Open Scope float_scope.

Definition vortexCount : nat := 3000.
Definition trailCount : nat := 100.

(** The refs and scene objects the callbacks close over. *)
Record Scene := mkScene {
  targetHandPos : Vector3;
  currentHandPos : Vector3;
  isPinchingRef : bool;
  mainGroup_rotation : Euler;
  memoriesGroup : list Mesh;
  vPos : Float32Array;
  vVel : Float32Array;
  vMat : PointsMaterial;
  tPos : Float32Array
}.

(** The loop that places the vortex particles; [rand k] is the [k]-th
    result of [Math.random], [n] the iterations left, [i] the counter. *)
Fixpoint vortex_fill (rand : nat -> float) (n i : nat)
    (vPos vVel : Float32Array) : Float32Array * Float32Array :=
  match n with
  | O => (vPos, vVel)
  | S n' =>
      let r := 5 + rand (4 * i)%nat * 25 in
      let theta := rand (4 * i + 1)%nat * Math_PI * 2 in
      let vPos := store vPos (i * 3) (Math_cos theta * r) in
      let vPos := store vPos (i * 3 + 1) ((rand (4 * i + 2)%nat - 0.2) * 40) in
      let vPos := store vPos (i * 3 + 2) (Math_sin theta * r) in
      let vVel := store vVel i (0.2 + rand (4 * i + 3)%nat * 0.5) in
      vortex_fill rand n' (S i) vPos vVel
  end.

(** The state the effect leaves behind once the scene is built. *)
Definition initial_scene (rand : nat -> float) : Scene :=
  let vortex :=
    vortex_fill rand vortexCount 0
      (new_Float32Array (vortexCount * 3)) (new_Float32Array vortexCount) in
  let tPos :=
    foldl (fun t i => store t i 0) (new_Float32Array (trailCount * 3))
          (seq 0 (trailCount * 3)) in
  mkScene (mkVector3 0 0 0) (mkVector3 0 0 0) false (mkEuler 0 0) []
          (fst vortex) (snd vortex) (mkPointsMaterial 0.4 0.12) tPos.

Definition updateHandInteraction (x y : float) (isPinching : bool)
    (s : Scene) : Scene :=
  let target := set (targetHandPos s) ((x - 0.5) * 50) ((0.5 - y) * 40) 10 in
  let targetRX := (y - 0.5) * 0.3 in
  let targetRY := (x - 0.5) * 0.6 in
  let rot := mainGroup_rotation s in
  let rot := mkEuler (rx rot + (targetRX - rx rot) * 0.05) (ry rot) in
  let rot := mkEuler (rx rot) (ry rot + (targetRY - ry rot) * 0.05) in
  mkScene target (currentHandPos s) isPinching rot (memoriesGroup s)
          (vPos s) (vVel s) (vMat s) (tPos s).

(** The [textureLoader.load] callback of [addMemory]; [r1 r2 r3] are its
    three [Math.random] results, [now] is [clock.getElapsedTime()].  The
    orientation that [lookAt] gives the mesh plays no part in the animation
    and is left out. *)
Definition addMemory_loaded (r1 r2 r3 now : float) (s : Scene) : Scene :=
  let angle := r1 * Math_PI * 2 in
  let radius := 12 + r2 * 5 in
  let height := r3 * 25 - 5 in
  let mesh :=
    mkMesh (mkVector3 (Math_cos angle * radius) height (Math_sin angle * radius))
           0 now in
  mkScene (targetHandPos s) (currentHandPos s) (isPinchingRef s)
          (mainGroup_rotation s) (memoriesGroup s ++ [mesh])
          (vPos s) (vVel s) (vMat s) (tPos s).

(** Step 1 of [animate]: the body of the vortex loop at counter [i]. *)
Definition vortex_rotate (elapsed : float) (vVel : Float32Array) (i : nat)
    (vPositions : Float32Array) : Float32Array :=
  let x := load vPositions (i * 3) in
  let z := load vPositions (i * 3 + 2) in
  let angle := load vVel i * 0.01 in
  let vPositions :=
    store vPositions (i * 3) (x * Math_cos angle - z * Math_sin angle) in
  let vPositions :=
    store vPositions (i * 3 + 2) (x * Math_sin angle + z * Math_cos angle) in
  store vPositions (i * 3 + 1)
        (load vPositions (i * 3 + 1) + Math_sin (elapsed + of_index i) * 0.01).

(** [for (let i = 0; i < vortexCount; i++)] with [n] iterations left. *)
Fixpoint vortex_advance (elapsed : float) (vVel : Float32Array) (n i : nat)
    (vPositions : Float32Array) : Float32Array :=
  match n with
  | O => vPositions
  | S n' =>
      vortex_advance elapsed vVel n' (S i) (vortex_rotate elapsed vVel i vPositions)
  end.

(** Step 2 of [animate]: the body of the trail loop at counter [i]. *)
Definition trail_copy (i : nat) (tPositions : Float32Array) : Float32Array :=
  let tPositions := store tPositions (i * 3) (load tPositions ((i - 1) * 3)) in
  let tPositions :=
    store tPositions (i * 3 + 1) (load tPositions ((i - 1) * 3 + 1)) in
  store tPositions (i * 3 + 2) (load tPositions ((i - 1) * 3 + 2)).

(** [for (let i = trailCount - 1; i > 0; i--)], entered with counter [i]. *)
Fixpoint trail_shift (i : nat) (tPositions : Float32Array) : Float32Array :=
  match i with
  | O => tPositions
  | S i' => trail_shift i' (trail_copy i tPositions)
  end.

Definition trail_step (current : Vector3) (tPositions : Float32Array)
    : Float32Array :=
  let tPositions := trail_shift (trailCount - 1) tPositions in
  let tPositions := store tPositions 0 (x current) in
  let tPositions := store tPositions 1 (y current) in
  store tPositions 2 (z current).

(** Step 4 of [animate]: the [forEach] callback on one memory panel. *)
Definition memory_frame (elapsed : float) (mesh : Mesh) : Mesh :=
  let age := elapsed - or_else (birth mesh) 0 in
  let opacity := if age <? 2 then age / 2 else mat_opacity mesh in
  let p := position mesh in
  mkMesh (mkVector3 (x p) (y p + Math_sin (elapsed + x p) * 0.01) (z p))
         opacity (birth mesh).

(** One animation frame; [elapsed] is [clock.getElapsedTime()]. *)
Definition animate (elapsed : float) (s : Scene) : Scene :=
  let vPositions := vortex_advance elapsed (vVel s) vortexCount 0 (vPos s) in
  let current := lerp (currentHandPos s) (targetHandPos s) 0.15 in
  let tPositions := trail_step current (tPos s) in
  let vMat :=
    mkPointsMaterial (if isPinchingRef s then 0.8 else 0.4) (size (vMat s)) in
  let vMat :=
    mkPointsMaterial (opacity vMat) (if isPinchingRef s then 0.25 else 0.12) in
  let memories := map (memory_frame elapsed) (memoriesGroup s) in
  mkScene (targetHandPos s) current (isPinchingRef s) (mainGroup_rotation s)
          memories vPositions (vVel s) vMat tPositions.

(** What happens to the scene, in the order the event loop runs it. *)
Inductive event :=
| HandUpdate (x y : float) (isPinching : bool)
| MemoryLoaded (r1 r2 r3 now : float)
| Frame (elapsed : float).

Definition step (s : Scene) (e : event) : Scene :=
  match e with
  | HandUpdate x y p => updateHandInteraction x y p s
  | MemoryLoaded r1 r2 r3 now => addMemory_loaded r1 r2 r3 now s
  | Frame elapsed => animate elapsed s
  end.

Definition run (es : list event) (s : Scene) : Scene := foldl step s es.

End ThreeScene.

(** ** App.tsx *)

Section App.
Context {M : JsMath}.
Local Open Scope float_scope.

(** A landmark of the detector, in normalised image coordinates. *)
Record Landmark := mkLandmark { lm_x : float; lm_y : float }.

(** What [handTrackingService.detect()] returns when it is not [null]. *)
Record HandResult := mkHandResult { detected : bool; landmarks : list Landmark }.

(** The [handDetected] state and [sceneRef.current]. *)
Record AppState := mkAppState { handDetected : bool; sceneRef : option Scene }.

(** How one run of [detectLoop] ends: it schedules itself again, or a
    property read on a missing landmark throws. *)
Inductive outcome :=
| Rescheduled (a : AppState)
| TypeError (a : AppState).

Definition distance (thumbTip indexTip : Landmark) : float :=
  sqrt (Math_pow (lm_x thumbTip - lm_x indexTip) 2 +
        Math_pow (lm_y thumbTip - lm_y indexTip) 2).

Definition detectLoop (result : option HandResult) (a : AppState) : outcome :=
  match result with
  | Some r =>
      if detected r then
        let a := mkAppState true (sceneRef a) in
        match landmarks r !! 4%nat, landmarks r !! 8%nat with
        | Some thumbTip, Some indexTip =>
            let isPinching := distance thumbTip indexTip <? 0.06 in
            match sceneRef a with
            | Some scene =>
                match landmarks r !! 9%nat with
                | Some palmCenter =>
                    Rescheduled
                      (mkAppState true
                         (Some (updateHandInteraction (lm_x palmCenter)
                                  (lm_y palmCenter) isPinching scene)))
                | None => TypeError a
                end
            | None => Rescheduled a
            end
        | _, _ => TypeError a
        end
      else Rescheduled (mkAppState false (sceneRef a))
  | None => Rescheduled (mkAppState false (sceneRef a))
  end.

End App.

(** ** Concrete numbers for evaluation *)

(** [Math.pow] on the exponents 0, 1 and 2, correctly rounded. *)
Definition pow_small (b e : float) : float :=
  if PrimFloat.eqb e 2 then (b * b)%float
  else if PrimFloat.eqb e 1 then b
  else if PrimFloat.eqb e 0 then 1%float
  else nan.

(** Correctly rounded values of [Math.sin] and [Math.cos] at the arguments
    the concrete evaluations below use. *)
Definition sin_samples : list (float * float) :=
  [ (0, 0); (0.005, 0.004999979166692708); (1, 0.8414709848078965) ]%float.

Definition cos_samples : list (float * float) :=
  [ (0, 1); (0.005, 0.9999875000260416) ]%float.

Definition tabulated (samples : list (float * float)) (a : float) : float :=
  match List.find (fun p => PrimFloat.eqb (fst p) a) samples with
  | Some p => snd p
  | None => nan
  end.

(** A [Math] that is correctly rounded on the samples and answers [NaN]
    elsewhere; the concrete runs below read it on the samples only. *)
Definition sample_math : JsMath :=
  {| Math_sin := tabulated sin_samples;
     Math_cos := tabulated cos_samples;
     Math_pow := pow_small |}.

(** The scene used for concrete runs.  Its [Math.random] places every
    vortex particle at [(10, 0, 0)] with angular velocity 0.5: the four
    draws of an iteration are 0.2 (radius 10), 0 (angle 0), 0.2 (height 0)
    and 0.6 (velocity 0.5). *)
Definition sample_random (k : nat) : float :=
  match (k mod 4)%nat with
  | 0 => 0.2
  | 1 => 0
  | 2 => 0.2
  | _ => 0.6
  end%float.

Definition sample_scene : Scene := initial_scene (M := sample_math) sample_random.

(** [n] frames at 60 frames per second, the first one at clock time [1/60]. *)
Definition frames_60fps (n : nat) : list event :=
  map (fun k => Frame (of_index k / 60)%float) (seq 1 n).

(** The sample scene after the hand sample [(0.6, 0.5)] and one frame. *)
Definition tracking_scene : Scene :=
  run (M := sample_math) [HandUpdate 0.6 0.5 false; Frame (1 / 60)] sample_scene.

(** The sample scene after the hand sample [(0.5, 0.5)] and 216 frames. *)
Definition settled_scene : Scene :=
  run (M := sample_math) (HandUpdate 0.5 0.5 false :: frames_60fps 216)
      sample_scene.

(** A photo whose texture arrives at clock time 10, rendered at a steady 50
    frames per second around age 2: at 11.98, 12, 12.02 and 13. *)
Definition steady_frame_trace : list event :=
  [ MemoryLoaded 0 0 0 10; Frame 11.98; Frame 12; Frame 12.02; Frame 13 ]%float.

(** The same photo when a frame is late: rendered at 11.5, 12.5 and 13. *)
Definition late_frame_trace : list event :=
  [ MemoryLoaded 0 0 0 10; Frame 11.5; Frame 12.5; Frame 13 ]%float.

(** Twenty-one landmarks, all at the image origin except the thumb tip
    (index 4), which sits [d] to the right of the index tip (index 8). *)
Definition hand_with_gap (d : float) : HandResult :=
  mkHandResult true
    (replicate 4 (mkLandmark 0 0) ++ [mkLandmark d 0] ++
     replicate 16 (mkLandmark 0 0)).

(** Twenty-one landmarks, all at the image origin except the thumb tip
    (index 4), the index tip (index 8) and the palm centre (index 9). *)
Definition hand_at (thumb index palm : Landmark) : HandResult :=
  mkHandResult true
    (replicate 4 (mkLandmark 0 0) ++ [thumb] ++
     replicate 3 (mkLandmark 0 0) ++ [index; palm] ++
     replicate 11 (mkLandmark 0 0)).

(** ** Properties *)

(** The Euclidean distance between two landmarks of the image, as the
    specification words it: the square root of the sum of the squares of the
    two coordinate differences, for a given way [square] of squaring a
    number. *)
Definition euclidean_distance_with (square : float -> float) (p q : Landmark)
    : float :=
  sqrt (square (lm_x p - lm_x q) + square (lm_y p - lm_y q))%float.

(** The same with the square of [v] computed as the product [v * v]. *)
Definition euclidean_distance (p q : Landmark) : float :=
  euclidean_distance_with (fun v => v * v)%float p q.

(** The rotation feedback as the specification words it: the rotation a raw
    hand sample [(x, y)] steers the tree toward, and one nudge
    [rotation += (target_rotation - rotation) * 0.05] toward it. *)
Definition target_rotation (x y : float) : Three.Euler :=
  Three.mkEuler ((y - 0.5) * 0.3)%float ((x - 0.5) * 0.6)%float.

Definition nudged (rotation target : Three.Euler) : Three.Euler :=
  Three.mkEuler
    (Three.rx rotation + (Three.rx target - Three.rx rotation) * 0.05)%float
    (Three.ry rotation + (Three.ry target - Three.ry rotation) * 0.05)%float.

(** The rotation after the events [es]: one nudge for every hand sample, in
    the order of arrival, and none for a frame or a loaded photo. *)
Definition rotation_after (es : list event) (r0 : Three.Euler) : Three.Euler :=
  foldl (fun r e => match e with
                    | HandUpdate x y _ => nudged r (target_rotation x y)
                    | _ => r
                    end) r0 es.

(** The buffers keep the sizes they are allocated with, and their cells
    hold single-precision numbers. *)
Definition wf (s : Scene) : Prop :=
  (length (vPos s) = (vortexCount * 3)%nat /\
   length (vVel s) = vortexCount /\
   length (tPos s) = (trailCount * 3)%nat) /\
  (Forall is_f32 (vPos s) /\ Forall is_f32 (vVel s) /\ Forall is_f32 (tPos s)).

(** Target, smoothed pointer and trail all at the origin. *)
Definition at_origin (s : Scene) : Prop :=
  targetHandPos s = Three.origin /\ currentHandPos s = Three.origin /\
  tPos s = replicate (trailCount * 3) 0%float.

(** The scene-space point of a normalised hand position. *)
Definition scene_point (x y : float) : Three.Vector3 :=
  Three.mkVector3 ((x - 0.5) * 50) ((0.5 - y) * 40) 10%float.

(** The scene-space point of the latest hand sample among [es], [t0] if
    none. *)
Definition last_target (es : list event) (t0 : Three.Vector3) : Three.Vector3 :=
  foldl (fun t e => match e with HandUpdate x y _ => scene_point x y | _ => t end)
        t0 es.

(** The pinch flag of the latest hand sample among [es], [p0] if none. *)
Definition last_pinch (es : list event) (p0 : bool) : bool :=
  foldl (fun p e => match e with HandUpdate _ _ q => q | _ => p end) p0 es.

Definition is_hand_update (e : event) : bool :=
  match e with HandUpdate _ _ _ => true | _ => false end.

Definition is_frame (e : event) : bool :=
  match e with Frame _ => true | _ => false end.

(** The detector reports no hand: [null], or [detected] false. *)
Definition no_hand (result : option HandResult) : bool :=
  match result with
  | Some r => negb (detected r)
  | None => true
  end.

(** The new coordinates of particle [i] as the frame computes them, before
    they are stored: the rotation of [(x, z)] by [vVel[i] * 0.01] and the
    bob of [y]. *)
Definition rotated_x {M : JsMath} (vVel vPositions : list float) (i : nat) : float :=
  let x := Three.load vPositions (i * 3) in
  let z := Three.load vPositions (i * 3 + 2) in
  let theta := (Three.load vVel i * 0.01)%float in
  (x * Math_cos theta - z * Math_sin theta)%float.

Definition rotated_z {M : JsMath} (vVel vPositions : list float) (i : nat) : float :=
  let x := Three.load vPositions (i * 3) in
  let z := Three.load vPositions (i * 3 + 2) in
  let theta := (Three.load vVel i * 0.01)%float in
  (x * Math_sin theta + z * Math_cos theta)%float.

Definition bobbed_y {M : JsMath} (elapsed : float) (vPositions : list float)
    (i : nat) : float :=
  (Three.load vPositions (i * 3 + 1) + Math_sin (elapsed + of_index i) * 0.01)%float.

(** Coordinate [c] of the place the construction loop computes for
    particle [i], and the angular velocity it draws, before they are
    stored. *)
Definition placed {M : JsMath} (rand : nat -> float) (i c : nat) : float :=
  let r := (5 + rand (4 * i)%nat * 25)%float in
  let theta := (rand (4 * i + 1)%nat * Math_PI * 2)%float in
  match c with
  | 0 => (Math_cos theta * r)%float
  | 1 => ((rand (4 * i + 2)%nat - 0.2) * 40)%float
  | _ => (Math_sin theta * r)%float
  end.

Definition drawn_velocity (rand : nat -> float) (i : nat) : float :=
  (0.2 + rand (4 * i + 3)%nat * 0.5)%float.

(** Coordinate [c] (0, 1, 2 for x, y, z) of the above. *)
Definition advanced {M : JsMath} (elapsed : float) (vVel vPositions : list float)
    (i c : nat) : float :=
  match c with
  | 0 => rotated_x vVel vPositions i
  | 1 => bobbed_y elapsed vPositions i
  | _ => rotated_z vVel vPositions i
  end.

(** The pointer after [k] frames of [animate] toward a target that stays
    where it is, in the numbers of the scene. *)
Definition smoothed (target current : Three.Vector3) (k : nat) : Three.Vector3 :=
  Nat.iter k (fun c => Three.lerp c target 0.15%float) current.

(** ** The scene over a whole run *)

Definition is_memory_loaded (e : event) : bool :=
  match e with MemoryLoaded _ _ _ _ => true | _ => false end.

(** Coordinate [k] (0, 1, 2 for x, y, z) of a point. *)
Definition coordinate (k : nat) (p : Three.Vector3) : float :=
  match k with
  | 0 => Three.x p
  | 1 => Three.y p
  | _ => Three.z p
  end.

(** The smoothed pointers that the frames of [es] computed from [s] on,
    newest first. *)
Definition frame_pointers {M : JsMath} (es : list event) (s : Scene)
    : list Three.Vector3 :=
  snd (foldl (fun sh e =>
                let s' := step (fst sh) e in
                (s', if is_frame e then currentHandPos s' :: snd sh else snd sh))
             (s, []) es).

(** What one event does to the opacity of a photo born at [b]. *)
Definition ramp (b : float) (opacity : float) (e : event) : float :=
  match e with
  | Frame elapsed =>
      let age := (elapsed - or_else b 0)%float in
      if (age <? 2)%float then (age / 2)%float else opacity
  | _ => opacity
  end.

(** The opacity of such a photo after [es]. *)
Definition faded (es : list event) (b opacity : float) : float :=
  foldl (ramp b) opacity es.

(** ** The callbacks of the page, in the order the event loop runs them *)

Section Page.
Context {M : JsMath}.

(** A callback of the running page: a run of [detectLoop] on what the
    detector returns, a run of [animate], or the completion of a texture
    load started by [addMemory]. *)
Inductive callback :=
| Detect (result : option HandResult)
| Animate (elapsed : float)
| TextureLoaded (r1 r2 r3 now : float).

(** The page: the state of [App] and whether [detectLoop] is still
    scheduled; an uncaught [TypeError] ends its chain of
    [requestAnimationFrame] calls, the chain of [animate] goes on. *)
Record Page := mkPage { page_app : AppState; detecting : bool }.

Definition on_scene (f : Scene -> Scene) (p : Page) : Page :=
  mkPage (mkAppState (handDetected (page_app p))
                     (option_map f (sceneRef (page_app p))))
         (detecting p).

Definition page_step (p : Page) (c : callback) : Page :=
  match c with
  | Detect result =>
      if detecting p then
        match detectLoop result (page_app p) with
        | Rescheduled a => mkPage a true
        | TypeError a => mkPage a false
        end
      else p
  | Animate elapsed => on_scene (animate elapsed) p
  | TextureLoaded r1 r2 r3 now => on_scene (addMemory_loaded r1 r2 r3 now) p
  end.

Definition page_run (cs : list callback) (p : Page) : Page := foldl page_step p cs.

(** The state a run of [detectLoop] leaves, and whether it threw. *)
Definition outcome_state (o : outcome) : AppState :=
  match o with Rescheduled a | TypeError a => a end.

Definition throws (o : outcome) : bool :=
  match o with TypeError _ => true | Rescheduled _ => false end.

(** The detector result carries the landmarks [detectLoop] reads. *)
Definition readable (result : option HandResult) : bool :=
  match result with
  | Some r => negb (detected r) || (10 <=? length (landmarks r))%nat
  | None => true
  end.

Definition callback_readable (c : callback) : bool :=
  match c with Detect result => readable result | _ => true end.

(** The scene event a callback amounts to. *)
Definition scene_events (c : callback) : list event :=
  match c with
  | Detect (Some r) =>
      if detected r then
        match landmarks r !! 4%nat, landmarks r !! 8%nat, landmarks r !! 9%nat with
        | Some thumbTip, Some indexTip, Some palmCenter =>
            [HandUpdate (lm_x palmCenter) (lm_y palmCenter)
                        (distance thumbTip indexTip <? 0.06)%float]
        | _, _, _ => []
        end
      else []
  | Detect None => []
  | Animate elapsed => [Frame elapsed]
  | TextureLoaded r1 r2 r3 now => [MemoryLoaded r1 r2 r3 now]
  end.

(** [handDetected] after a callback. *)
Definition hand_seen (d : bool) (c : callback) : bool :=
  match c with
  | Detect (Some r) => detected r
  | Detect None => false
  | _ => d
  end.

End Page.

(** ** The rest of App.tsx *)

Section Shell.
Context {M : JsMath}.
Import Ascii String.
Local Open Scope string_scope.

(** [String.prototype.toLowerCase] on a code unit below 256: the letters
    A-Z and the Latin-1 capitals U+00C0-U+00DE other than U+00D7 move up
    by 32. *)
Definition lower_unit (c : ascii) : ascii :=
  let n := nat_of_ascii c in
  if ((65 <=? n) && (n <=? 90) ||
      (192 <=? n) && (n <=? 222) && negb (n =? 215))%nat
  then ascii_of_nat (n + 32) else c.

(** [toLowerCase] on a string of such code units. *)
Fixpoint toLowerCase (s : string) : string :=
  match s with
  | EmptyString => EmptyString
  | String c s' => String (lower_unit c) (toLowerCase s')
  end.

(** The state [App] keeps besides the scene: [uiHidden] and [camError]. *)
Record Shell := mkShell {
  uiHidden : bool;
  camError : option string;
  shell_page : Page
}.

(** [handleKeyDown], given [e.key]. *)
Definition handleKeyDown (key : string) (u : Shell) : Shell :=
  if toLowerCase key =? "h"
  then mkShell (negb (uiHidden u)) (camError u) (shell_page u)
  else u.

(** What [setupCV] meets: whether [getUserMedia] resolves, whether the video
    element is mounted, and whether [handTrackingService.initialize]
    resolves. *)
Record Browser := mkBrowser {
  camera_granted : bool;
  video_mounted : bool;
  tracker_ready : bool
}.

(** [setupCV]; [first] is what the detector returns to the first run of
    [detectLoop], the one made inside the [try] block. *)
Definition setupCV (b : Browser) (first : option HandResult) (u : Shell) : Shell :=
  let camError1 :=
    if camera_granted b then camError u
    else Some "Camera restricted - Hand tracking disabled" in
  if camera_granted b && video_mounted b then
    if tracker_ready b then
      match detectLoop first (page_app (shell_page u)) with
      | Rescheduled a => mkShell (uiHidden u) camError1 (mkPage a true)
      | TypeError a =>
          mkShell (uiHidden u) (Some "Hand tracking service unavailable")
                  (mkPage a false)
      end
    else
      mkShell (uiHidden u) (Some "Hand tracking service unavailable")
              (mkPage (page_app (shell_page u)) false)
  else mkShell (uiHidden u) camError1 (mkPage (page_app (shell_page u)) false).

End Shell.

(** ** The range of the pointer target *)

(** The magnitude [m * 2^e] of a binary64 number on one integer scale: the
    exponents of binary64 numbers and of their exact sums and products are
    above [-2200]. *)
Definition scaled (m e : Z) : Z := (m * 2 ^ (e + 2200))%Z.

(** Zero or a finite number of magnitude at most [b * 2^eb]. *)
Definition within (b : positive) (eb : Z) (f : spec_float) : Prop :=
  match f with
  | S754_zero _ => True
  | S754_finite _ m e => (scaled (Zpos m) e <= scaled (Zpos b) eb)%Z
  | _ => False
  end.

(** A hand sample inside the camera image, whose normalised coordinates
    run from 0 to 1. *)
Definition in_image (e : event) : bool :=
  match e with
  | HandUpdate x y _ =>
      ((0 <=? x) && (x <=? 1) && (0 <=? y) && (y <=? 1))%float
  | _ => true
  end.

(** The box of the scene that the pointer target is mapped into, and the
    origin where it starts. *)
Definition in_box (t : Three.Vector3) : Prop :=
  ((-25 <=? Three.x t) = true /\ (Three.x t <=? 25) = true /\
   (-20 <=? Three.y t) = true /\ (Three.y t <=? 20) = true /\
   (Three.z t = 0 \/ Three.z t = 10))%float.

(** The signed value of a finite binary64 number on that scale, and the
    numbers that have one. *)
Definition sval (f : spec_float) : Z :=
  match f with
  | S754_finite s m e => cond_Zopp s (scaled (Zpos m) e)
  | _ => 0%Z
  end.

Definition finite_or_zero (f : spec_float) : Prop :=
  match f with
  | S754_zero _ | S754_finite _ _ _ => True
  | _ => False
  end.

Definition between (lo hi v : float) : Prop :=
  ((lo <=? v) = true /\ (v <=? hi) = true)%float.

(** The box that holds the smoothed pointer, and the range of the tilt
    and the turn of the tree. *)
Definition pointer_in_box (p : Three.Vector3) : Prop :=
  (between (-25) 25 (Three.x p) /\ between (-20) 20 (Three.y p) /\
   between 0 10 (Three.z p))%float.

Definition tilt_in_range (r : Three.Euler) : Prop :=
  (between (-0.15) 0.15 (Three.rx r) /\ between (-0.3) 0.3 (Three.ry r))%float.

(** ** The exact error of the smoothed pointer *)

(** The exact value of a finite binary64 number. *)
Definition Qval (v : float) : Q :=
  match Prim2SF v with
  | S754_finite s m e => (inject_Z (cond_Zopp s (Zpos m)) * 2 ^ e)%Q
  | _ => 0%Q
  end.

(** [|current - target|], without rounding. *)
Definition pointer_error (target current : float) : Q :=
  Qabs (Qval target - Qval current)%Q.

(** ** Rounding to single precision

    [fround] is a projection onto the single-precision numbers: rounding
    yields a canonical binary32 mantissa, and such a number is read back
    and rounded again without change. *)

Section RoundingExamples.
Local Open Scope float_scope.

Example fround_tenth : fround 0.1 = 0.10000000149011612.
Proof. vm_compute. reflexivity. Qed.

(** A tie goes to the even mantissa. *)
Example fround_tie : fround 16777217 = 16777216 /\ fround 16777219 = 16777220.
Proof. vm_compute. split; reflexivity. Qed.

Example fround_overflow : fround 3.5e38 = infinity /\ fround (-3.5e38) = neg_infinity.
Proof. vm_compute. split; reflexivity. Qed.

(** Below the normal range the result is a binary32 subnormal, or a zero
    that keeps the sign. *)
Example fround_underflow :
  fround 1e-40 = 9.99994610111476e-41 /\ fround (-1e-50) = (-0).
Proof. vm_compute. split; reflexivity. Qed.

Example fround_keeps : fround 0.75 = 0.75 /\ fround nan = nan.
Proof. vm_compute. split; reflexivity. Qed.

End RoundingExamples.

Section Rounding.
Local Open Scope Z_scope.

(** [iter_pos] is plain iteration. *)
Lemma iter_pos_nat {A} (f : A -> A) n x :
  SpecFloat.iter_pos f n x = Nat.iter (Pos.to_nat n) f x.
Proof.
  revert x. induction n as [n IH|n IH|]; intros x; cbn [SpecFloat.iter_pos].
  - rewrite !IH, Pos2Nat.inj_xI, Nat.iter_succ_r.
    replace (2 * Pos.to_nat n)%nat with (Pos.to_nat n + Pos.to_nat n)%nat by lia.
    rewrite Nat.iter_add. reflexivity.
  - rewrite !IH, Pos2Nat.inj_xO.
    replace (2 * Pos.to_nat n)%nat with (Pos.to_nat n + Pos.to_nat n)%nat by lia.
    rewrite Nat.iter_add. reflexivity.
  - reflexivity.
Qed.


Lemma digits2_bounds p :
  2 ^ (Zpos (digits2_pos p) - 1) <= Zpos p < 2 ^ Zpos (digits2_pos p).
Proof.
  induction p as [p IH|p IH|]; cbn [digits2_pos].
  - rewrite Pos2Z.inj_succ.
    replace (Z.succ (Zpos (digits2_pos p)) - 1) with (Z.succ (Zpos (digits2_pos p) - 1)) by lia.
    rewrite !Z.pow_succ_r by lia. lia.
  - rewrite Pos2Z.inj_succ.
    replace (Z.succ (Zpos (digits2_pos p)) - 1) with (Z.succ (Zpos (digits2_pos p) - 1)) by lia.
    rewrite !Z.pow_succ_r by lia. lia.
  - cbn. lia.
Qed.




Lemma Zdigits2_bounds m :
  0 < m -> 2 ^ (Zdigits2 m - 1) <= m < 2 ^ Zdigits2 m.
Proof. destruct m as [|p|p]; try lia. intros _. apply digits2_bounds. Qed.

Lemma Zdigits2_pos m : 0 < m -> 0 < Zdigits2 m.
Proof. destruct m; cbn; lia. Qed.

Lemma Zdigits2_le m k : 0 <= k -> 0 <= m < 2 ^ k -> Zdigits2 m <= k.
Proof.
  intros Hk [H0 Hm]. destruct (Z.eq_dec m 0) as [->|]; [cbn; lia|].
  pose proof (Zdigits2_bounds m ltac:(lia)) as [Hl _].
  destruct (Z_lt_le_dec k (Zdigits2 m)); [|lia].
  assert (2 ^ k <= 2 ^ (Zdigits2 m - 1)) by (apply Z.pow_le_mono_r; lia). lia.
Qed.

Lemma Zdigits2_ge m k : 0 < k -> 2 ^ (k - 1) <= m -> k <= Zdigits2 m.
Proof.
  intros Hk Hm. assert (0 < 2 ^ (k - 1)) by (apply Z.pow_pos_nonneg; lia).
  pose proof (Zdigits2_bounds m ltac:(lia)) as [_ Hu].
  pose proof (Zdigits2_pos m ltac:(lia)).
  destruct (Z_lt_le_dec (Zdigits2 m) k); [|lia].
  assert (2 ^ Zdigits2 m <= 2 ^ (k - 1)) by (apply Z.pow_le_mono_r; lia). lia.
Qed.

Lemma shr_m_of_loc m l : shr_m (shr_record_of_loc m l) = m.
Proof. destruct l as [|[]]; reflexivity. Qed.

Lemma shr_1_m mrs : 0 <= shr_m mrs -> shr_m (shr_1 mrs) = shr_m mrs / 2.
Proof.
  destruct mrs as [m r s]; cbn [shr_m]. intros H.
  destruct m as [|[p|p|]|p]; cbn [shr_1 shr_m]; try reflexivity; try lia.
  - apply Z.div_unique with 1; lia.
  - apply Z.div_unique with 0; lia.
Qed.

Lemma shr_iter_m k mrs :
  0 <= shr_m mrs ->
  shr_m (Nat.iter k shr_1 mrs) = shr_m mrs / 2 ^ Z.of_nat k.
Proof.
  intros H. induction k as [|k IH].
  - cbn. now rewrite Z.div_1_r.
  - rewrite Nat.iter_succ, shr_1_m.
    + rewrite IH, Nat2Z.inj_succ, Z.pow_succ_r by lia.
      rewrite Z.div_div by (try apply Z.pow_pos_nonneg; lia).
      f_equal. lia.
    + rewrite IH. apply Z.div_pos; [lia | apply Z.pow_pos_nonneg; lia].
Qed.

Lemma shr_pos_m p mrs :
  0 <= shr_m mrs -> shr_m (SpecFloat.iter_pos shr_1 p mrs) = shr_m mrs / 2 ^ Zpos p.
Proof.
  intros H. rewrite iter_pos_nat, shr_iter_m by assumption.
  now rewrite positive_nat_Z.
Qed.

(** What [shr_fexp] leaves of a non-negative mantissa. *)
Lemma shr_fexp_m prec emax m e l :
  0 <= m ->
  let n := fexp prec emax (Zdigits2 m + e) - e in
  let '(mrs, e') := shr_fexp prec emax m e l in
  (0 < n -> shr_m mrs = m / 2 ^ n /\ e' = e + n) /\
  (n <= 0 -> shr_m mrs = m /\ e' = e).
Proof.
  intros Hm n. unfold shr_fexp, shr. fold n.
  destruct n as [|p|p] eqn:Hn.
  - split; [lia|]. intros _. now rewrite shr_m_of_loc.
  - split; [|lia]. intros _. rewrite shr_pos_m by (rewrite shr_m_of_loc; lia).
    now rewrite shr_m_of_loc.
  - split; [lia|]. intros _. now rewrite shr_m_of_loc.
Qed.

Lemma round_nearest_even_cases m l :
  round_nearest_even m l = m \/ round_nearest_even m l = m + 1.
Proof. destruct l as [|[]]; cbn; try destruct (Z.even m); auto. Qed.

Lemma Pos_iter_xO_val m p : Zpos (Pos.iter xO m p) = Zpos m * 2 ^ Zpos p.
Proof.
  induction p as [|p IH] using Pos.peano_ind.
  - cbn. lia.
  - rewrite Pos.iter_succ, Pos2Z.inj_xO, IH, Pos2Z.inj_succ, Z.pow_succ_r by lia. lia.
Qed.

Lemma digits2_iter_xO m p :
  Zpos (digits2_pos (Pos.iter xO m p)) = Zpos (digits2_pos m) + Zpos p.
Proof.
  induction p as [|p IH] using Pos.peano_ind.
  - cbn. lia.
  - rewrite Pos.iter_succ. cbn [digits2_pos]. rewrite Pos2Z.inj_succ, IH. lia.
Qed.

(** The single-precision format. *)
Lemma fexp32 x : fexp 24 128 x = Z.max (x - 24) (-149).
Proof. reflexivity. Qed.

(** Second half of [binary_round_aux]: a rounded mantissa that fills at
    most one binade past the format is renormalised to a canonical one. *)
Lemma f32_round_finish m2 e1 D :
  e1 = fexp 24 128 D ->
  0 <= m2 <= 2 ^ Z.max 0 (D - e1) ->
  (-149 <= D - 24 -> 2 ^ 23 <= m2) ->
  let '(mrs, e'') := shr_fexp 24 128 m2 e1 loc_Exact in
  match shr_m mrs with
  | Z0 => True
  | Zpos m => canonical_mantissa 24 128 m e'' = true
  | Zneg _ => False
  end.
Proof.
  intros He1 [Hm0 Hm] Hn.
  pose proof (shr_fexp_m 24 128 m2 e1 loc_Exact Hm0) as Hs.
  destruct (shr_fexp 24 128 m2 e1 loc_Exact) as [mrs e''].
  cbv zeta in Hs. rewrite fexp32 in Hs, He1. destruct Hs as [Hshift Hkeep].
  destruct (Z_lt_le_dec (D - 24) (-149)) as [Hsub|Hnorm].
  - (* below the normal range *)
    assert (He : e1 = -149) by lia.
    assert (Hk : 2 ^ Z.max 0 (D - e1) <= 2 ^ 23) by (apply Z.pow_le_mono_r; lia).
    assert (Hd : Zdigits2 m2 <= 24) by (apply Zdigits2_le; [lia|]; change (2 ^ 24) with 16777216; change (2 ^ 23) with 8388608 in Hk; lia).
    destruct Hkeep as [-> ->]; [lia|].
    destruct m2 as [|p|p]; [exact I| |lia].
    unfold canonical_mantissa. rewrite fexp32. cbn [Zdigits2] in Hd.
    apply Z.eqb_eq. lia.
  - specialize (Hn Hnorm).
    assert (He : e1 = D - 24) by lia.
    replace (Z.max 0 (D - e1)) with 24 in Hm by lia.
    change (2 ^ 24) with 16777216 in Hm. change (2 ^ 23) with 8388608 in Hn.
    assert (Hd : 24 <= Zdigits2 m2) by (apply Zdigits2_ge; [lia|]; change (2 ^ (24 - 1)) with 8388608; lia).
    destruct (Z.eq_dec m2 16777216) as [->|Hne].
    + change (Zdigits2 16777216) with 25 in Hshift.
      replace (Z.max (25 + e1 - 24) (-149) - e1) with 1 in Hshift by lia.
      destruct Hshift as [-> ->]; [lia|].
      change (16777216 / 2 ^ 1) with 8388608.
      unfold canonical_mantissa. rewrite fexp32.
      change (Zpos (digits2_pos 8388608)) with 24. apply Z.eqb_eq. lia.
    + assert (Hd' : Zdigits2 m2 <= 24) by (apply Zdigits2_le; [lia|]; change (2 ^ 24) with 16777216; lia).
      destruct Hkeep as [-> ->]; [lia|].
      destruct m2 as [|p|p]; [exact I| |lia].
      unfold canonical_mantissa. rewrite fexp32. cbn [Zdigits2] in Hd, Hd'.
      apply Z.eqb_eq. lia.
Qed.

(** First half of [binary_round]: the mantissa aligned on the target
    exponent. *)
Lemma f32_round_start m e :
  let D := Zpos (digits2_pos m) + e in
  let '(mz, ez) := shl_align m e (fexp 24 128 D) in
  let '(mrs, e1) := shr_fexp 24 128 (Zpos mz) ez loc_Exact in
  e1 = fexp 24 128 D /\
  0 <= shr_m mrs < 2 ^ Z.max 0 (D - e1) /\
  (-149 <= D - 24 -> 2 ^ 23 <= shr_m mrs).
Proof.
  intros D. pose proof (digits2_bounds m) as [Hml Hmu].
  set (d := Zpos (digits2_pos m)) in *.
  unfold shl_align. rewrite fexp32.
  destruct (Z.max (D - 24) (-149) - e) as [|n|p] eqn:Hfe.
  - (* already aligned *)
    pose proof (shr_fexp_m 24 128 (Zpos m) e loc_Exact ltac:(lia)) as Hs.
    destruct (shr_fexp 24 128 (Zpos m) e loc_Exact) as [mrs e1].
    cbv zeta in Hs. cbn [Zdigits2] in Hs. fold d in Hs. fold D in Hs.
    rewrite fexp32 in *. destruct Hs as [_ [-> ->]]; [lia|].
    split; [lia|]. replace (Z.max 0 (D - e)) with d by lia.
    split; [lia|]. intros Hn. replace 23 with (d - 1) by lia. exact Hml.
  - (* low bits are shifted out *)
    pose proof (shr_fexp_m 24 128 (Zpos m) e loc_Exact ltac:(lia)) as Hs.
    destruct (shr_fexp 24 128 (Zpos m) e loc_Exact) as [mrs e1].
    cbv zeta in Hs. cbn [Zdigits2] in Hs. fold d in Hs. fold D in Hs.
    rewrite fexp32 in *. rewrite Hfe in Hs. destruct Hs as [[-> ->] _]; [lia|].
    assert (Hp : 0 < 2 ^ Zpos n) by (apply Z.pow_pos_nonneg; lia).
    split; [lia|]. split; [split|].
    + apply Z.div_pos; lia.
    + destruct (Z_lt_le_dec d (Zpos n)) as [Hlt|Hge].
      * rewrite Z.div_small.
        { apply Z.pow_pos_nonneg; lia. }
        split; [lia|]. apply Z.lt_le_trans with (2 ^ d); [lia|].
        apply Z.pow_le_mono_r; lia.
      * replace (Z.max 0 (D - (e + Zpos n))) with (d - Zpos n) by lia.
        apply Z.div_lt_upper_bound; [lia|].
        rewrite <- Z.pow_add_r by lia. replace (Zpos n + (d - Zpos n)) with d by lia.
        lia.
    + intros Hn. apply Z.div_le_lower_bound; [lia|].
      change (2 ^ 23) with (2 ^ 23). rewrite <- Z.pow_add_r by lia.
      replace (Zpos n + 23) with (d - 1) by lia. exact Hml.
  - (* the mantissa is widened *)
    pose proof (Pos_iter_xO_val m p) as Hv.
    pose proof (digits2_iter_xO m p) as Hdg.
    pose proof (digits2_bounds (Pos.iter xO m p)) as [Hzl Hzu].
    set (mz := Pos.iter xO m p) in *. fold d in Hdg.
    pose proof (shr_fexp_m 24 128 (Zpos mz) (Z.max (D - 24) (-149)) loc_Exact
                  ltac:(lia)) as Hs.
    destruct (shr_fexp 24 128 (Zpos mz) (Z.max (D - 24) (-149)) loc_Exact)
      as [mrs e1].
    cbv zeta in Hs. cbn [Zdigits2] in Hs. rewrite Hdg, fexp32 in Hs.
    replace (d + Zpos p + Z.max (D - 24) (-149)) with D in Hs by lia.
    destruct Hs as [_ [-> ->]]; [lia|].
    split; [reflexivity|]. rewrite Hdg in Hzl, Hzu.
    replace (Z.max 0 (D - Z.max (D - 24) (-149))) with (d + Zpos p) by lia.
    split; [lia|]. intros Hn. replace 23 with (d + Zpos p - 1) by lia. exact Hzl.
Qed.

(** Rounding to single precision yields a signed zero, a signed infinity or
    a number with a canonical single-precision mantissa. *)
Lemma binary_round_f32 s m e :
  match binary_round 24 128 s m e with
  | S754_zero s' | S754_infinity s' => s' = s
  | S754_nan => False
  | S754_finite s' m' e' => s' = s /\ bounded 24 128 m' e' = true
  end.
Proof.
  unfold binary_round. pose proof (f32_round_start m e) as H1. cbv zeta in H1.
  destruct (shl_align m e _) as [mz ez]. unfold binary_round_aux.
  destruct (shr_fexp 24 128 (Zpos mz) ez loc_Exact) as [mrs e1].
  destruct H1 as (He1 & [Hm0 Hm1] & Hn1).
  set (m2 := round_nearest_even (shr_m mrs) (loc_of_shr_record mrs)).
  assert (Hm2 : m2 = shr_m mrs \/ m2 = shr_m mrs + 1)
    by apply round_nearest_even_cases.
  pose proof (f32_round_finish m2 e1 _ He1 ltac:(lia) ltac:(lia)) as H2.
  destruct (shr_fexp 24 128 m2 e1 loc_Exact) as [mrs2 e2].
  destruct (shr_m mrs2) as [|m'|m']; [reflexivity| |exact H2].
  destruct (e2 <=? 128 - 24) eqn:He2; [|reflexivity].
  split; [reflexivity|]. unfold bounded. now rewrite H2, He2.
Qed.

(** Shifting out zeros that were shifted in loses nothing. *)
Lemma shr_widened p m :
  SpecFloat.iter_pos shr_1 p (Build_shr_record (Zpos (Pos.iter xO m p)) false false)
  = Build_shr_record (Zpos m) false false.
Proof.
  rewrite iter_pos_nat, Pos2Nat.inj_iter.
  induction (Pos.to_nat p) as [|k IH]; [reflexivity|].
  rewrite Nat.iter_succ_r. cbn [nat_rect shr_1 orb]. exact IH.
Qed.

Section ExactRounding.
Variables prec emax : Z.

(** A canonical mantissa is its own rounding. *)
Lemma binary_round_keep s m e :
  fexp prec emax (Zpos (digits2_pos m) + e) = e -> e <= emax - prec ->
  binary_round prec emax s m e = S754_finite s m e.
Proof.
  intros Hc Hb. unfold binary_round, shl_align. rewrite Hc, Z.sub_diag.
  unfold binary_round_aux, shr_fexp. cbn [Zdigits2].
  rewrite Hc, Z.sub_diag. cbn [shr shr_record_of_loc shr_m loc_of_shr_record
    round_nearest_even Zdigits2]. rewrite Hc, Z.sub_diag. cbn [shr shr_m].
  apply Z.leb_le in Hb. now rewrite Hb.
Qed.

(** A mantissa with too few digits is widened without rounding. *)
Lemma binary_round_widen s m e p :
  fexp prec emax (Zpos (digits2_pos m) + e) - e = Zneg p ->
  e - Zpos p <= emax - prec ->
  binary_round prec emax s m e = S754_finite s (Pos.iter xO m p) (e - Zpos p).
Proof.
  intros Hc Hb. unfold binary_round, shl_align. rewrite Hc.
  assert (Hfe : fexp prec emax (Zpos (digits2_pos m) + e) = e - Zpos p) by lia.
  rewrite Hfe.
  assert (Hc' : fexp prec emax (Zpos (digits2_pos (Pos.iter xO m p)) + (e - Zpos p))
                = e - Zpos p).
  { rewrite digits2_iter_xO. rewrite <- Hfe at 2. f_equal. lia. }
  unfold binary_round_aux, shr_fexp. cbn [Zdigits2].
  rewrite Hc', Z.sub_diag. cbn [shr shr_record_of_loc shr_m loc_of_shr_record
    round_nearest_even Zdigits2]. rewrite Hc', Z.sub_diag. cbn [shr shr_m].
  apply Z.leb_le in Hb. now rewrite Hb.
Qed.

(** A widened canonical mantissa rounds back to itself. *)
Lemma binary_round_narrow s m e p :
  fexp prec emax (Zpos (digits2_pos m) + e) = e -> e <= emax - prec ->
  binary_round prec emax s (Pos.iter xO m p) (e - Zpos p) = S754_finite s m e.
Proof.
  intros Hc Hb. unfold binary_round, shl_align.
  rewrite digits2_iter_xO.
  replace (Zpos (digits2_pos m) + Zpos p + (e - Zpos p))
    with (Zpos (digits2_pos m) + e) by lia.
  rewrite Hc. replace (e - (e - Zpos p)) with (Zpos p) by lia.
  unfold binary_round_aux, shr_fexp. cbn [Zdigits2].
  rewrite digits2_iter_xO.
  replace (Zpos (digits2_pos m) + Zpos p + (e - Zpos p))
    with (Zpos (digits2_pos m) + e) by lia.
  rewrite Hc. replace (e - (e - Zpos p)) with (Zpos p) by lia.
  cbn [shr shr_record_of_loc]. rewrite shr_widened.
  cbn [shr_m loc_of_shr_record round_nearest_even Zdigits2].
  replace (e - Zpos p + Zpos p) with e by lia.
  rewrite Hc, Z.sub_diag. cbn [shr shr_m].
  apply Z.leb_le in Hb. now rewrite Hb.
Qed.

End ExactRounding.

(** A single-precision number, read back from its binary64 representation. *)
Lemma Prim2SF_SF2Prim_f32 s m e :
  bounded 24 128 m e = true ->
  let p := Z.to_pos (53 - Zpos (digits2_pos m)) in
  Prim2SF (SF2Prim (S754_finite s m e))
  = S754_finite s (Pos.iter xO m p) (e - Zpos p).
Proof.
  intros Hb p. unfold bounded, canonical_mantissa in Hb.
  apply andb_prop in Hb as [Hc He]. apply Z.eqb_eq in Hc. apply Z.leb_le in He.
  rewrite fexp32 in Hc. pose proof (digits2_bounds m) as [_ Hmu].
  set (d := Zpos (digits2_pos m)) in *.
  assert (Hd : 0 < d <= 24) by (unfold d; lia).
  assert (Hp : Zpos p = 53 - d) by (unfold p; rewrite Z2Pos.id; lia).
  assert (Hm : Zpos m < 2 ^ 63).
  { apply Z.lt_le_trans with (2 ^ d); [lia|]. apply Z.pow_le_mono_r; lia. }
  assert (Hpm : Prim2SF (of_uint63 (Uint63.of_Z (Zpos m)))
                = S754_finite false (Pos.iter xO m p) (0 - Zpos p)).
  { rewrite of_uint63_spec, Uint63.of_Z_spec, Z.mod_small
      by (change Uint63.wB with (2 ^ 63); lia).
    cbn [binary_normalize]. apply binary_round_widen.
    - unfold fexp, SpecFloat.emin, prec, emax. fold d. lia.
    - unfold prec, emax. lia. }
  assert (Hl : Prim2SF (Z.ldexp (of_uint63 (Uint63.of_Z (Zpos m))) e)
               = S754_finite false (Pos.iter xO m p) (e - Zpos p)).
  { rewrite Z_ldexp_spec, Hpm. cbn [SFldexp].
    replace (0 - Zpos p + e) with (e - Zpos p) by lia.
    apply binary_round_keep.
    - rewrite digits2_iter_xO. fold d. unfold fexp, SpecFloat.emin, prec, emax. lia.
    - unfold prec, emax. lia. }
  unfold SF2Prim. destruct s.
  - rewrite FloatAxioms.opp_spec, Hl. reflexivity.
  - exact Hl.
Qed.

Lemma fround_SF2Prim_f32 s m e :
  bounded 24 128 m e = true ->
  fround (SF2Prim (S754_finite s m e)) = SF2Prim (S754_finite s m e).
Proof.
  intros Hb. unfold fround at 1. rewrite Prim2SF_SF2Prim_f32 by assumption.
  f_equal. unfold bounded, canonical_mantissa in Hb.
  apply andb_prop in Hb as [Hc He]. apply Z.eqb_eq in Hc. apply Z.leb_le in He.
  apply binary_round_narrow; assumption.
Qed.

(** [Math.fround] is a projection: what it returns it leaves alone. *)
Theorem fround_idempotent v : fround (fround v) = fround v.
Proof.
  destruct (Prim2SF v) as [s|s| |s m e] eqn:Hv.
  - unfold fround at 2. rewrite Hv. unfold fround. now rewrite Hv.
  - unfold fround at 2. rewrite Hv. unfold fround. now rewrite Hv.
  - unfold fround at 2. rewrite Hv. unfold fround. now rewrite Hv.
  - assert (Hf : fround v = SF2Prim (binary_round 24 128 s m e))
      by (unfold fround; now rewrite Hv).
    rewrite Hf. pose proof (binary_round_f32 s m e) as Hr.
    destruct (binary_round 24 128 s m e) as [s'|s'| |s' m' e'].
    + destruct s'; reflexivity.
    + destruct s'; reflexivity.
    + reflexivity.
    + destruct Hr as [_ Hb]. now apply fround_SF2Prim_f32.
Qed.


End Rounding.

Section Float32Arrays.
Import Three.

Lemma length_store a i v : length (store a i v) = length a.
Proof. apply length_insert. Qed.

Lemma load_store_eq a i v : i < length a -> load (store a i v) i = fround v.
Proof. intros H. unfold load, store. by rewrite list_lookup_insert_eq. Qed.

Lemma load_store_ne a i j v : i <> j -> load (store a i v) j = load a j.
Proof. intros H. unfold load, store. by rewrite list_lookup_insert_ne. Qed.

(** Every store leaves a single-precision number in the cell. *)
Lemma is_f32_fround v : is_f32 (fround v).
Proof. apply fround_idempotent. Qed.

Lemma Forall_is_f32_store a i v : Forall is_f32 a -> Forall is_f32 (store a i v).
Proof. intros H. apply Forall_insert; [exact H | apply is_f32_fround]. Qed.

Lemma length_new_Float32Array n : length (new_Float32Array n) = n.
Proof. apply length_replicate. Qed.

Lemma Forall_is_f32_new n : Forall is_f32 (new_Float32Array n).
Proof. apply Forall_replicate. reflexivity. Qed.

(** A load returns a single-precision number, and [NaN] out of range. *)
Lemma is_f32_load a j : Forall is_f32 a -> is_f32 (load a j).
Proof.
  intros H. unfold load. destruct (a !! j) as [v|] eqn:Hj; [|reflexivity].
  exact (Forall_lookup_1 _ _ _ _ H Hj).
Qed.

End Float32Arrays.

(** Rewrites the loads of a stack of stores, given the bounds in context. *)
Ltac load_stores :=
  repeat first
    [ rewrite load_store_eq by (rewrite ?length_store; lia)
    | rewrite load_store_ne by lia ].

Section TrailFacts.
Import Three.

Lemma length_trail_copy i t : length (trail_copy i t) = length t.
Proof. unfold trail_copy. by rewrite !length_store. Qed.

(** One iteration writes the three cells of entry [i] and nothing else. *)
Lemma load_trail_copy i t j :
  1 <= i -> i * 3 + 2 < length t ->
  load (trail_copy i t) j
  = if decide (i * 3 <= j < i * 3 + 3) then fround (load t (j - 3)) else load t j.
Proof.
  intros Hi Hlen. unfold trail_copy.
  replace ((i - 1) * 3) with (i * 3 - 3) by lia.
  case_decide as Hj.
  - destruct (decide (j = i * 3 + 2)) as [->|];
      [|destruct (decide (j = i * 3 + 1)) as [->|];
        [|assert (j = i * 3) as -> by lia]];
      load_stores; f_equal; f_equal; lia.
  - load_stores. reflexivity.
Qed.

Lemma length_trail_shift i t : length (trail_shift i t) = length t.
Proof.
  revert t. induction i as [|i IH]; intros t; [reflexivity|].
  cbn [trail_shift]. by rewrite IH, length_trail_copy.
Qed.

(** The loop entered at counter [i] moves entries [0 .. i-1] one entry up. *)
Lemma load_trail_shift i t j :
  i * 3 + 2 < length t ->
  load (trail_shift i t) j
  = if decide (3 <= j < i * 3 + 3) then fround (load t (j - 3)) else load t j.
Proof.
  revert t. induction i as [|i IH]; intros t Hlen.
  - cbn [trail_shift]. case_decide; [lia | reflexivity].
  - cbn [trail_shift]. rewrite IH by (rewrite length_trail_copy; lia).
    rewrite !load_trail_copy by lia.
    repeat case_decide; try lia; reflexivity.
Qed.

Lemma Forall_is_f32_trail_shift i t :
  Forall is_f32 t -> Forall is_f32 (trail_shift i t).
Proof.
  revert t. induction i as [|i IH]; intros t H; [exact H|].
  cbn [trail_shift]. apply IH. unfold trail_copy.
  do 3 apply Forall_is_f32_store. exact H.
Qed.

Lemma Forall_is_f32_trail_step c t :
  Forall is_f32 t -> Forall is_f32 (trail_step c t).
Proof.
  intros H. unfold trail_step. do 3 apply Forall_is_f32_store.
  apply Forall_is_f32_trail_shift, H.
Qed.

Lemma length_trail_step c t : length (trail_step c t) = length t.
Proof. unfold trail_step. by rewrite !length_store, length_trail_shift. Qed.

(** The whole trail update, cell by cell. *)
Lemma load_trail_step c t j :
  length t = (trailCount * 3)%nat -> j < (trailCount * 3)%nat ->
  load (trail_step c t) j
  = fround (match j with
            | 0 => Three.x c
            | 1 => Three.y c
            | 2 => Three.z c
            | _ => load t (j - 3)
            end).
Proof.
  intros Hlen Hj. unfold trail_step, trailCount in *.
  assert (Hs : length (trail_shift (100 - 1) t) = 300)
    by (rewrite length_trail_shift; exact Hlen).
  destruct j as [|[|[|j]]].
  - load_stores. reflexivity.
  - load_stores. reflexivity.
  - load_stores. reflexivity.
  - load_stores. rewrite load_trail_shift by (cbn; lia).
    case_decide as Hd; [reflexivity | cbn in Hd; lia].
Qed.

End TrailFacts.

Section VortexFacts.
Context {M : JsMath}.
Import Three.
Local Open Scope float_scope.

Lemma length_vortex_rotate elapsed vv i vp :
  length (vortex_rotate elapsed vv i vp) = length vp.
Proof. unfold vortex_rotate. by rewrite !length_store. Qed.

(** One iteration rewrites the three cells of particle [i] and nothing else. *)
Lemma load_vortex_rotate elapsed vv i vp k c :
  (i * 3 + 2 < length vp)%nat -> (c < 3)%nat ->
  load (vortex_rotate elapsed vv i vp) (k * 3 + c)
  = if decide (k = i) then fround (advanced elapsed vv vp i c)
    else load vp (k * 3 + c).
Proof.
  intros Hlen Hc. unfold vortex_rotate. case_decide as Hk.
  - subst k. destruct c as [|[|[|c]]]; [| | |lia];
      unfold advanced, rotated_x, rotated_z, bobbed_y;
      rewrite ?Nat.add_0_r; load_stores; reflexivity.
  - load_stores. reflexivity.
Qed.

Lemma advanced_vortex_rotate elapsed vv i vp k c :
  (i * 3 + 2 < length vp)%nat -> k <> i ->
  advanced elapsed vv (vortex_rotate elapsed vv i vp) k c
  = advanced elapsed vv vp k c.
Proof.
  intros Hlen Hk.
  pose proof (load_vortex_rotate elapsed vv i vp k 0 Hlen ltac:(lia)) as H0.
  pose proof (load_vortex_rotate elapsed vv i vp k 1 Hlen ltac:(lia)) as H1.
  pose proof (load_vortex_rotate elapsed vv i vp k 2 Hlen ltac:(lia)) as H2.
  rewrite decide_False in H0, H1, H2 by done. rewrite Nat.add_0_r in H0.
  unfold advanced, rotated_x, rotated_z, bobbed_y.
  rewrite H0, H1, H2. reflexivity.
Qed.

Lemma length_vortex_advance elapsed vv n i vp :
  length (vortex_advance elapsed vv n i vp) = length vp.
Proof.
  revert i vp. induction n as [|n IH]; intros i vp; [reflexivity|].
  cbn [vortex_advance]. by rewrite IH, length_vortex_rotate.
Qed.

(** The loop run for particles [i .. i+n-1]: each of them is advanced from
    its own old position, every other cell is left alone. *)
Lemma load_vortex_advance elapsed vv n i vp k c :
  ((i + n) * 3 <= length vp)%nat -> (c < 3)%nat ->
  load (vortex_advance elapsed vv n i vp) (k * 3 + c)
  = if decide (i <= k < i + n)%nat then fround (advanced elapsed vv vp k c)
    else load vp (k * 3 + c).
Proof.
  revert i vp. induction n as [|n IH]; intros i vp Hlen Hc.
  - cbn [vortex_advance]. case_decide; [lia | reflexivity].
  - cbn [vortex_advance].
    rewrite IH by (rewrite ?length_vortex_rotate; lia).
    destruct (decide (k = i)) as [->|Hk].
    + rewrite decide_False by lia. rewrite load_vortex_rotate by lia.
      rewrite decide_True by done. rewrite decide_True by lia. reflexivity.
    + rewrite advanced_vortex_rotate by lia.
      rewrite load_vortex_rotate by lia. rewrite (decide_False (P := k = i)) by done.
      repeat case_decide; try lia; reflexivity.
Qed.

Lemma Forall_is_f32_vortex_advance elapsed vv n i vp :
  Forall is_f32 vp -> Forall is_f32 (vortex_advance elapsed vv n i vp).
Proof.
  revert i vp. induction n as [|n IH]; intros i vp H; [exact H|].
  cbn [vortex_advance]. apply IH. unfold vortex_rotate.
  do 3 apply Forall_is_f32_store. exact H.
Qed.

(** The construction loop fills both buffers with single-precision numbers
    and keeps their sizes. *)
Lemma vortex_fill_wf rand n i vp vv :
  Forall is_f32 vp -> Forall is_f32 vv ->
  let r := vortex_fill rand n i vp vv in
  (length (fst r) = length vp /\ length (snd r) = length vv) /\
  (Forall is_f32 (fst r) /\ Forall is_f32 (snd r)).
Proof.
  revert i vp vv. induction n as [|n IH]; intros i vp vv Hp Hv; [done|].
  cbn [vortex_fill]. cbv zeta.
  edestruct IH as [[Hl1 Hl2] HF]; [| |split; [split|exact HF]].
  - do 3 apply Forall_is_f32_store. exact Hp.
  - apply Forall_is_f32_store. exact Hv.
  - by rewrite Hl1, !length_store.
  - by rewrite Hl2, length_store.
Qed.

(** The construction loop run for particles [i .. i+n-1], cell by cell. *)
Lemma load_vortex_fill_pos rand n i vp vv k c :
  ((i + n) * 3 <= length vp)%nat -> (c < 3)%nat ->
  load (fst (vortex_fill rand n i vp vv)) (k * 3 + c)
  = if decide (i <= k < i + n)%nat then fround (placed rand k c)
    else load vp (k * 3 + c).
Proof.
  revert i vp vv. induction n as [|n IH]; intros i vp vv Hlen Hc.
  - cbn [vortex_fill fst]. case_decide; [lia | reflexivity].
  - cbn [vortex_fill]. cbv zeta. rewrite IH by (rewrite ?length_store; lia).
    destruct (decide (k = i)) as [->|Hk].
    + rewrite decide_False by lia. rewrite decide_True by lia.
      destruct c as [|[|[|c]]]; [| | |lia];
        rewrite ?Nat.add_0_r; load_stores; reflexivity.
    + load_stores. repeat case_decide; try lia; reflexivity.
Qed.

Lemma load_vortex_fill_vel rand n i vp vv k :
  (i + n <= length vv)%nat ->
  load (snd (vortex_fill rand n i vp vv)) k
  = if decide (i <= k < i + n)%nat then fround (drawn_velocity rand k)
    else load vv k.
Proof.
  revert i vp vv. induction n as [|n IH]; intros i vp vv Hlen.
  - cbn [vortex_fill snd]. case_decide; [lia | reflexivity].
  - cbn [vortex_fill]. cbv zeta. rewrite IH by (rewrite ?length_store; lia).
    destruct (decide (k = i)) as [->|Hk].
    + rewrite decide_False by lia. rewrite decide_True by lia.
      load_stores. reflexivity.
    + load_stores. repeat case_decide; try lia; reflexivity.
Qed.

End VortexFacts.

Section SceneFacts.
Context {M : JsMath}.
Import Three.
Local Open Scope float_scope.

(** *** What each callback writes *)

Lemma target_updateHandInteraction x y p s :
  targetHandPos (updateHandInteraction x y p s)
  = mkVector3 ((x - 0.5) * 50) ((0.5 - y) * 40) 10.
Proof. reflexivity. Qed.

Lemma current_updateHandInteraction x y p s :
  currentHandPos (updateHandInteraction x y p s) = currentHandPos s.
Proof. reflexivity. Qed.

Lemma target_animate elapsed s :
  targetHandPos (animate elapsed s) = targetHandPos s.
Proof. reflexivity. Qed.

Lemma current_animate elapsed s :
  currentHandPos (animate elapsed s)
  = lerp (currentHandPos s) (targetHandPos s) 0.15.
Proof. reflexivity. Qed.

Lemma tPos_animate elapsed s :
  tPos (animate elapsed s)
  = trail_step (lerp (currentHandPos s) (targetHandPos s) 0.15) (tPos s).
Proof. reflexivity. Qed.

Lemma vPos_animate elapsed s :
  vPos (animate elapsed s) = vortex_advance elapsed (vVel s) vortexCount 0 (vPos s).
Proof. reflexivity. Qed.

Lemma vMat_animate elapsed s :
  vMat (animate elapsed s)
  = if isPinchingRef s then mkPointsMaterial 0.8 0.25 else mkPointsMaterial 0.4 0.12.
Proof. unfold animate; simpl. destruct (isPinchingRef s); reflexivity. Qed.

Lemma run_cons e es s : run (e :: es) s = run es (step s e).
Proof. reflexivity. Qed.

Lemma run_app es1 es2 s : run (es1 ++ es2) s = run es2 (run es1 s).
Proof. unfold run. apply foldl_app. Qed.

(** Only [updateHandInteraction] writes the target and the pinch flag. *)
Lemma step_keeps_sample e s :
  is_hand_update e = false ->
  targetHandPos (step s e) = targetHandPos s /\
  isPinchingRef (step s e) = isPinchingRef s.
Proof. destruct e; simpl; intros H; try discriminate H; split; reflexivity. Qed.

Lemma run_keeps_sample es s :
  forallb (fun e => negb (is_hand_update e)) es = true ->
  targetHandPos (run es s) = targetHandPos s /\
  isPinchingRef (run es s) = isPinchingRef s.
Proof.
  revert s. induction es as [|e es IH]; intros s H; [split; reflexivity|].
  cbn [forallb] in H. apply andb_prop in H as [He Hes].
  apply negb_true_iff in He.
  destruct (step_keeps_sample e s He) as [Ht Hp].
  destruct (IH (step s e) Hes) as [Ht' Hp'].
  rewrite run_cons, Ht', Hp'. split; assumption.
Qed.

Lemma pinch_run es s : isPinchingRef (run es s) = last_pinch es (isPinchingRef s).
Proof.
  revert s. induction es as [|e es IH]; intros s; [reflexivity|].
  rewrite run_cons, IH. destruct e; reflexivity.
Qed.

Lemma target_run es s :
  targetHandPos (run es s) = last_target es (targetHandPos s).
Proof.
  revert s. induction es as [|e es IH]; intros s; [reflexivity|].
  rewrite run_cons, IH. destruct e; reflexivity.
Qed.

(** Nothing writes the angular velocities once the scene is built. *)
Lemma vVel_run es s : vVel (run es s) = vVel s.
Proof.
  revert s. induction es as [|e es IH]; intros s; [reflexivity|].
  rewrite run_cons, IH. destruct e; reflexivity.
Qed.

Lemma rotation_animate elapsed s :
  mainGroup_rotation (animate elapsed s) = mainGroup_rotation s.
Proof. reflexivity. Qed.

(** Only the hand samples turn the tree. *)
Lemma rotation_run es s :
  mainGroup_rotation (run es s) = rotation_after es (mainGroup_rotation s).
Proof.
  revert s. induction es as [|e es IH]; intros s; [reflexivity|].
  rewrite run_cons, IH. destruct e; reflexivity.
Qed.

(** Over a run of frames the pointer is smoothed toward the target the
    run started with. *)
Lemma current_run_frames es s :
  forallb is_frame es = true ->
  currentHandPos (run es s)
  = smoothed (targetHandPos s) (currentHandPos s) (length es).
Proof.
  revert s. induction es as [|e es IH]; intros s H; [reflexivity|].
  cbn [forallb] in H. apply andb_prop in H as [He Hes].
  destruct e; try discriminate He.
  rewrite run_cons, IH by exact Hes. cbn [step length]. unfold smoothed.
  rewrite Nat.iter_succ_r. reflexivity.
Qed.

(** *** The buffers of a running scene *)

Lemma vPos_initial rand :
  vPos (initial_scene rand)
  = fst (vortex_fill rand vortexCount 0 (new_Float32Array (vortexCount * 3))
           (new_Float32Array vortexCount)).
Proof. reflexivity. Qed.

Lemma vVel_initial rand :
  vVel (initial_scene rand)
  = snd (vortex_fill rand vortexCount 0 (new_Float32Array (vortexCount * 3))
           (new_Float32Array vortexCount)).
Proof. reflexivity. Qed.

Lemma tPos_initial rand :
  tPos (initial_scene rand) = new_Float32Array (trailCount * 3).
Proof.
  change (tPos (initial_scene rand))
    with (foldl (fun t i => store t i 0) (new_Float32Array (trailCount * 3))
            (seq 0 (trailCount * 3))).
  vm_compute. reflexivity.
Qed.

Lemma wf_initial rand : wf (initial_scene rand).
Proof.
  unfold wf. rewrite vPos_initial, vVel_initial, tPos_initial.
  pose proof (vortex_fill_wf rand vortexCount 0
                (new_Float32Array (vortexCount * 3)) (new_Float32Array vortexCount)
                (Forall_is_f32_new _) (Forall_is_f32_new _)) as [[Hl1 Hl2] [Hf1 Hf2]].
  rewrite length_new_Float32Array in Hl1, Hl2.
  exact (conj (conj Hl1 (conj Hl2 (length_new_Float32Array _)))
              (conj Hf1 (conj Hf2 (Forall_is_f32_new _)))).
Qed.

Lemma wf_step e s : wf s -> wf (step s e).
Proof.
  intros [(Hl1 & Hl2 & Hl3) (Hf1 & Hf2 & Hf3)]. destruct e; cbn [step].
  - split; [split; [|split] | split; [|split]]; assumption.
  - split; [split; [|split] | split; [|split]]; assumption.
  - unfold wf. cbn [animate vPos vVel tPos].
    rewrite length_vortex_advance, length_trail_step.
    exact (conj (conj Hl1 (conj Hl2 Hl3))
                (conj (Forall_is_f32_vortex_advance _ _ _ _ _ Hf1)
                      (conj Hf2 (Forall_is_f32_trail_step _ _ Hf3)))).
Qed.

Lemma wf_run es s : wf s -> wf (run es s).
Proof.
  revert s. induction es as [|e es IH]; intros s H; [exact H|].
  rewrite run_cons. apply IH, wf_step, H.
Qed.

(** The trail after a frame, cell by cell: the head holds the rounded
    pointer, every other entry the entry before it. *)
Lemma load_tPos_animate elapsed s j :
  wf s -> (j < trailCount * 3)%nat ->
  load (tPos (animate elapsed s)) j
  = match j with
    | 0 => fround (Three.x (currentHandPos (animate elapsed s)))
    | 1 => fround (Three.y (currentHandPos (animate elapsed s)))
    | 2 => fround (Three.z (currentHandPos (animate elapsed s)))
    | _ => load (tPos s) (j - 3)
    end.
Proof.
  intros [(_ & _ & Hl) (_ & _ & Hf)] Hj.
  rewrite tPos_animate, current_animate, load_trail_step by assumption.
  destruct j as [|[|[|j]]]; try reflexivity.
  apply is_f32_load, Hf.
Qed.

(** The vortex after a frame: the three cells of particle [i]. *)
Lemma load_vPos_animate elapsed s i :
  wf s -> (i < vortexCount)%nat ->
  load (vPos (animate elapsed s)) (i * 3) = fround (rotated_x (vVel s) (vPos s) i) /\
  load (vPos (animate elapsed s)) (i * 3 + 1) = fround (bobbed_y elapsed (vPos s) i) /\
  load (vPos (animate elapsed s)) (i * 3 + 2) = fround (rotated_z (vVel s) (vPos s) i).
Proof.
  intros [(Hl & _ & _) _] Hi. rewrite vPos_animate.
  pose proof (load_vortex_advance elapsed (vVel s) vortexCount 0 (vPos s) i 0) as H0.
  pose proof (load_vortex_advance elapsed (vVel s) vortexCount 0 (vPos s) i 1) as H1.
  pose proof (load_vortex_advance elapsed (vVel s) vortexCount 0 (vPos s) i 2) as H2.
  rewrite decide_True in H0, H1, H2 by lia. rewrite Nat.add_0_r in H0.
  split; [|split]; [apply H0 | apply H1 | apply H2]; rewrite ?Hl; lia.
Qed.

(** The vortex as built. *)
Lemma load_vPos_initial rand i c :
  (i < vortexCount)%nat -> (c < 3)%nat ->
  load (vPos (initial_scene rand)) (i * 3 + c) = fround (placed rand i c).
Proof.
  intros Hi Hc. unfold initial_scene. cbn [vPos].
  rewrite load_vortex_fill_pos
    by (rewrite ?length_new_Float32Array; lia).
  rewrite decide_True by lia. reflexivity.
Qed.

Lemma load_vVel_initial rand i :
  (i < vortexCount)%nat ->
  load (vVel (initial_scene rand)) i = fround (drawn_velocity rand i).
Proof.
  intros Hi. unfold initial_scene. cbn [vVel].
  rewrite load_vortex_fill_vel
    by (rewrite ?length_new_Float32Array; lia).
  rewrite decide_True by lia. reflexivity.
Qed.

(** *** Frames without a hand sample *)

Lemma initial_scene_at_origin rand : at_origin (initial_scene rand).
Proof.
  unfold at_origin. rewrite tPos_initial.
  split; [reflexivity | split; reflexivity].
Qed.

Lemma trail_step_origin :
  trail_step origin (replicate (trailCount * 3) 0) = replicate (trailCount * 3) 0.
Proof. vm_compute. reflexivity. Qed.

Lemma step_at_origin e s :
  is_hand_update e = false -> at_origin s -> at_origin (step s e).
Proof.
  intros He (Ht & Hc & Hp). destruct e; try discriminate He.
  - split; [|split]; assumption.
  - unfold at_origin. cbn [step]. rewrite tPos_animate, current_animate.
    cbn [targetHandPos animate]. rewrite Ht, Hc, Hp.
    change (lerp origin origin 0.15) with origin.
    rewrite trail_step_origin. split; [|split]; reflexivity.
Qed.

(** *** The photo fade *)

Lemma fade_at_age_0 elapsed mesh :
  elapsed - or_else (birth mesh) 0 = 0 ->
  mat_opacity (memory_frame elapsed mesh) = 0.
Proof. intros H. unfold memory_frame; cbn [mat_opacity]. rewrite H. reflexivity. Qed.

Lemma fade_at_age_1 elapsed mesh :
  elapsed - or_else (birth mesh) 0 = 1 ->
  mat_opacity (memory_frame elapsed mesh) = 0.5.
Proof. intros H. unfold memory_frame; cbn [mat_opacity]. rewrite H. reflexivity. Qed.

(** From age 2 on a frame leaves the opacity as it finds it. *)
Lemma fade_holds_from_age_2 elapsed mesh :
  (elapsed - or_else (birth mesh) 0 <? 2) = false ->
  mat_opacity (memory_frame elapsed mesh) = mat_opacity mesh.
Proof. intros H. unfold memory_frame; cbn [mat_opacity]. rewrite H. reflexivity. Qed.

End SceneFacts.

(** ** Pointer smoothing *)

Section SmoothingFloat.
Local Open Scope float_scope.

Lemma Prim2SF_infinity c s : Prim2SF c = S754_infinity s -> is_infinity c = true.
Proof.
  unfold Prim2SF. destruct (is_nan c); [discriminate|].
  destruct (is_zero c); [discriminate|].
  destruct (is_infinity c); [reflexivity|].
  destruct (Z.frexp c) as [r ex]. destruct (shr_fexp _ _ _ _ _) as [mrs e'].
  destruct (shr_m mrs); discriminate.
Qed.

Lemma SFeqb_finite s1 m1 e1 s2 m2 e2 :
  SFeqb (S754_finite s1 m1 e1) (S754_finite s2 m2 e2) = true ->
  S754_finite s1 m1 e1 = S754_finite s2 m2 e2.
Proof.
  unfold SFeqb, SFcompare.
  destruct s1, s2; try discriminate;
    destruct (Z.compare_spec e1 e2); try discriminate;
    destruct (Pos.compare_cont Eq m1 m2) eqn:Hm; try discriminate;
    intros _; apply Pos.compare_eq in Hm; congruence.
Qed.

Lemma SFeqb_refl_finite s m e :
  SFeqb (S754_finite s m e) (S754_finite s m e) = true.
Proof.
  unfold SFeqb, SFcompare.
  destruct s; rewrite Z.compare_refl;
    change (Pos.compare_cont Eq m m) with (Pos.compare m m);
    now rewrite Pos.compare_refl.
Qed.

(** On the numbers of the scene the update is idempotent at the fixed
    point: with [target == current] it leaves [current] as it is. *)
Lemma flerp1_fixed_point c t :
  (t =? c) = true -> is_infinity c = false ->
  (Three.flerp1 c t 0.15 =? c) = true.
Proof.
  intros Heq Hinf. rewrite FloatAxioms.eqb_spec in *. unfold Three.flerp1, lerp1.
  rewrite FloatAxioms.add_spec, FloatAxioms.mul_spec, FloatAxioms.sub_spec.
  remember (Prim2SF 0.15) as a eqn:Ha. vm_compute in Ha. subst a.
  destruct (Prim2SF t) as [st|st| |st mt et] eqn:Et;
    destruct (Prim2SF c) as [sc|sc| |sc mc ec] eqn:Ec;
    try solve [exfalso; destruct st; try destruct sc; cbv in Heq; discriminate Heq];
    try solve [exfalso; destruct sc; cbv in Heq; discriminate Heq];
    try discriminate Heq.
  - destruct st, sc; reflexivity.
  - apply Prim2SF_infinity in Ec. congruence.
  - apply SFeqb_finite in Heq. injection Heq as -> -> ->.
    unfold SF64sub, SFsub. rewrite Z.sub_diag. cbn [binary_normalize].
    cbn [SF64mul SFmul xorb SF64add SFadd]. apply SFeqb_refl_finite.
Qed.

(** Two numbers that [===] tells apart are different. *)
Lemma float_neq a b : (a =? b) = false -> (a =? a) = true -> a <> b.
Proof. intros H1 H2 E. rewrite <- E in H1. congruence. Qed.

End SmoothingFloat.

(** ** The claims of the specification *)

Section SceneClaims.
Context {M : JsMath}.
Import Three.
Local Open Scope float_scope.

(** C1: the ramp has no branch for age 2 and beyond, so the opacity stays
    where the last frame before age 2 left it and never becomes 1: a photo
    loaded at clock time 10 ends at opacity 0.9900000000000002 when it is
    rendered at 11.98, 12, 12.02 and 13, and at opacity 0.75 when it is
    rendered at 11.5, 12.5 and 13. *)
Theorem C1_fade_stops_below_one rand :
  map mat_opacity (memoriesGroup (run steady_frame_trace (initial_scene rand)))
  = [0.9900000000000002] /\
  map mat_opacity (memoriesGroup (run late_frame_trace (initial_scene rand)))
  = [0.75].
Proof. split; lazy; reflexivity. Qed.

(** The head of the trail is the pointer itself exactly when the pointer
    is a single-precision number. *)
Lemma trail_head_exact_iff elapsed s :
  wf s ->
  load (tPos (animate elapsed s)) 0 = Three.x (currentHandPos (animate elapsed s))
  <-> is_f32 (Three.x (currentHandPos (animate elapsed s))).
Proof.
  intros Hwf. rewrite load_tPos_animate by (unfold trailCount; try assumption; lia).
  reflexivity.
Qed.

(** C2: every frame keeps the trail at [trailCount] entries, moves entry
    [i - 1] into entry [i] for every [i] from [trailCount - 1] down to 1,
    and leaves in entry 0 the smoothed pointer of that frame rounded to
    single precision, the trail being a [Float32Array].  The scene as built
    satisfies [wf] and every callback keeps it ([wf_initial], [wf_run]). *)
Theorem C2_trail_shift_and_head elapsed s :
  wf s ->
  let s' := animate elapsed s in
  wf s' /\
  length (tPos s') = (trailCount * 3)%nat /\
  (forall i k, (1 <= i < trailCount)%nat -> (k < 3)%nat ->
      load (tPos s') (i * 3 + k) = load (tPos s) ((i - 1) * 3 + k)) /\
  load (tPos s') 0 = fround (Three.x (currentHandPos s')) /\
  load (tPos s') 1 = fround (Three.y (currentHandPos s')) /\
  load (tPos s') 2 = fround (Three.z (currentHandPos s')).
Proof.
  intros Hwf s'. pose proof Hwf as [(_ & _ & Hl) _].
  split; [|split; [|split; [|split; [|split]]]].
  - exact (wf_step (Frame elapsed) s Hwf).
  - unfold s'. rewrite tPos_animate, length_trail_step. exact Hl.
  - intros i k Hi Hk. unfold s'.
    rewrite load_tPos_animate by (unfold trailCount in *; try assumption; lia).
    destruct (i * 3 + k)%nat as [|[|[|j]]] eqn:Hj; try lia.
    f_equal. lia.
  - unfold s'. rewrite load_tPos_animate by (unfold trailCount; try assumption; lia).
    reflexivity.
  - unfold s'. rewrite load_tPos_animate by (unfold trailCount; try assumption; lia).
    reflexivity.
  - unfold s'. rewrite load_tPos_animate by (unfold trailCount; try assumption; lia).
    reflexivity.
Qed.

(** C3: a hand sample [(x, y)] sets the pointer target to
    [((x - 0.5) * 50, (0.5 - y) * 40, 10)], so that at any time the target is
    this point for the latest sample, and every frame replaces each
    component of the smoothed pointer by
    [current + (target - current) * 0.15]. *)
Theorem C3_target_mapping_and_smoothing :
  (forall x y p s,
      targetHandPos (updateHandInteraction x y p s)
      = mkVector3 ((x - 0.5) * 50) ((0.5 - y) * 40) 10) /\
  (forall es s, targetHandPos (run es s) = last_target es (targetHandPos s)) /\
  (forall elapsed s,
      let c := currentHandPos s in
      let t := targetHandPos s in
      currentHandPos (animate elapsed s)
      = mkVector3 (Three.x c + (Three.x t - Three.x c) * 0.15)
                  (Three.y c + (Three.y t - Three.y c) * 0.15)
                  (Three.z c + (Three.z t - Three.z c) * 0.15)).
Proof. split; [reflexivity | split; [exact target_run | reflexivity]]. Qed.

(** C6: after every frame the vortex material is exactly (0.8, 0.25) when
    the pinch flag of the latest hand sample is set and exactly (0.4, 0.12)
    otherwise; the frame that follows a sample already shows its value, and
    no other value ever appears. *)
Theorem C6_pinch_feedback_is_binary es elapsed s0 :
  vMat (run (es ++ [Frame elapsed]) s0)
  = if last_pinch es (isPinchingRef s0)
    then mkPointsMaterial 0.8 0.25
    else mkPointsMaterial 0.4 0.12.
Proof.
  rewrite run_app.
  change (run [Frame elapsed] (run es s0)) with (animate elapsed (run es s0)).
  rewrite vMat_animate, pinch_run. reflexivity.
Qed.

(** The stored [x] of a particle is the rotated [x] itself exactly when
    that is a single-precision number. *)
Lemma vortex_x_exact_iff elapsed s i :
  wf s -> (i < vortexCount)%nat ->
  load (vPos (animate elapsed s)) (i * 3) = rotated_x (vVel s) (vPos s) i
  <-> is_f32 (rotated_x (vVel s) (vPos s) i).
Proof.
  intros Hwf Hi. destruct (load_vPos_animate elapsed s i Hwf Hi) as (-> & _).
  reflexivity.
Qed.

(** C7: every frame stores, for every vortex particle, the single-precision
    rounding of [x cos t - z sin t] as its new [x], of [x sin t + z cos t]
    as its new [z], with [t] the angular velocity times 0.01, and of
    [y + sin (elapsed + i) * 0.01] as its new [y], the positions being a
    [Float32Array]; nothing ever writes the angular velocities.  The scene
    as built satisfies [wf] and every callback keeps it. *)
Theorem C7_vortex_advance elapsed s i :
  wf s -> (i < vortexCount)%nat ->
  let s' := animate elapsed s in
  load (vPos s') (i * 3) = fround (rotated_x (vVel s) (vPos s) i) /\
  load (vPos s') (i * 3 + 2) = fround (rotated_z (vVel s) (vPos s) i) /\
  load (vPos s') (i * 3 + 1) = fround (bobbed_y elapsed (vPos s) i) /\
  (forall es, vVel (run es s) = vVel s).
Proof.
  intros Hwf Hi s'.
  destruct (load_vPos_animate elapsed s i Hwf Hi) as (H0 & H1 & H2).
  split; [exact H0 | split; [exact H2 | split; [exact H1 |]]].
  intros es. apply vVel_run.
Qed.

(** C9: the rotation of the tree group is nudged once for every hand
    sample that [updateHandInteraction] receives, and by nothing else: the
    call replaces it by
    [rotation + (target_rotation - rotation) * 0.05] with the target
    rotation [((y - 0.5) * 0.3, (x - 0.5) * 0.6)] of the raw sample, whatever
    the pointer, its target and the pinch flag are; a frame of [animate] and
    a loaded photo leave the rotation as it is; so after any events the
    rotation is the one that the hand samples among them alone produce. *)
Theorem C9_rotation_feedback :
  (forall x y p s,
      mainGroup_rotation (updateHandInteraction x y p s)
      = nudged (mainGroup_rotation s) (target_rotation x y)) /\
  (forall x y p s,
      let r := mainGroup_rotation s in
      mainGroup_rotation (updateHandInteraction x y p s)
      = mkEuler (rx r + ((y - 0.5) * 0.3 - rx r) * 0.05)
                (ry r + ((x - 0.5) * 0.6 - ry r) * 0.05)) /\
  (forall elapsed s,
      mainGroup_rotation (animate elapsed s) = mainGroup_rotation s) /\
  (forall r1 r2 r3 now s,
      mainGroup_rotation (addMemory_loaded r1 r2 r3 now s) = mainGroup_rotation s) /\
  (forall es s,
      mainGroup_rotation (run es s) = rotation_after es (mainGroup_rotation s)).
Proof.
  split; [reflexivity|]. split; [reflexivity|]. split; [reflexivity|].
  split; [reflexivity|].
  intros es s. apply rotation_run.
Qed.

(** C10: the scene is built with the pointer target, the smoothed pointer
    and all trail slots at the origin, and as long as no hand sample has
    arrived every frame leaves the smoothed pointer and the whole trail
    there. *)
Theorem C10_origin_until_first_sample rand es :
  forallb (fun e => negb (is_hand_update e)) es = true ->
  let s := run es (initial_scene rand) in
  targetHandPos s = origin /\ currentHandPos s = origin /\
  tPos s = replicate (trailCount * 3) 0.
Proof.
  intros H. cbn zeta. fold (at_origin (run es (initial_scene rand))).
  generalize (initial_scene_at_origin rand).
  generalize (initial_scene rand) as s.
  induction es as [|e es IH]; intros s Hs; [exact Hs|].
  cbn [forallb] in H. apply andb_prop in H as [He Hes].
  apply negb_true_iff in He.
  rewrite run_cons. apply IH; [exact Hes|]. apply step_at_origin; assumption.
Qed.

End SceneClaims.

Section AppClaims.
Context {M : JsMath}.
Import Three.
Local Open Scope float_scope.

(** C5: for a detected hand the pinch flag handed to the scene is exactly
    the test [d < 0.06], where [d] is the Euclidean distance between
    landmark 4 (thumb tip) and landmark 8 (index tip): the square root of
    the sum of the squares of their two coordinate differences, each square
    taken by [Math.pow(., 2)]; where [Math.pow(v, 2)] is the product
    [v * v], [d] is the square root of [dx * dx + dy * dy].  The test is
    strict: a distance of 0.06 is not a pinch, a distance of 0.059999 is
    one. *)
Theorem C5_pinch_threshold r a thumbTip indexTip :
  detected r = true ->
  landmarks r !! 4%nat = Some thumbTip ->
  landmarks r !! 8%nat = Some indexTip ->
  let d := euclidean_distance_with (fun v => Math_pow v 2) thumbTip indexTip in
  let isPinching := d <? 0.06 in
  (forall scene palmCenter,
      sceneRef a = Some scene ->
      landmarks r !! 9%nat = Some palmCenter ->
      detectLoop (Some r) a
      = Rescheduled
          (mkAppState true
             (Some (updateHandInteraction (lm_x palmCenter) (lm_y palmCenter)
                      isPinching scene)))) /\
  ((forall v, Math_pow v 2 = v * v) ->
   d = euclidean_distance thumbTip indexTip /\
   d = sqrt ((lm_x thumbTip - lm_x indexTip) * (lm_x thumbTip - lm_x indexTip)
             + (lm_y thumbTip - lm_y indexTip) * (lm_y thumbTip - lm_y indexTip))) /\
  (d = 0.06 -> isPinching = false) /\
  (d = 0.059999 -> isPinching = true).
Proof.
  intros Hd H4 H8 d isPinching. split; [|split; [|split]].
  - intros scene palmCenter Hs H9. unfold detectLoop.
    rewrite Hd, H4, H8. cbn [sceneRef]. rewrite Hs, H9. reflexivity.
  - intros Hsq. unfold d, euclidean_distance, euclidean_distance_with.
    rewrite !Hsq. split; reflexivity.
  - intros H. unfold isPinching. rewrite H. reflexivity.
  - intros H. unfold isPinching. rewrite H. reflexivity.
Qed.

(** C8: when the detector reports no hand, [detectLoop] only clears
    [handDetected]: it makes no call into the scene, so the pointer target
    and the pinch flag keep their last values, and the frames rendered
    meanwhile do not write them either. *)
Theorem C8_absent_hand_keeps_target result a :
  no_hand result = true ->
  detectLoop result a = Rescheduled (mkAppState false (sceneRef a)) /\
  (forall es s,
      forallb (fun e => negb (is_hand_update e)) es = true ->
      targetHandPos (run es s) = targetHandPos s /\
      isPinchingRef (run es s) = isPinchingRef s).
Proof.
  intros H. split; [|exact run_keeps_sample].
  destruct result as [r|]; [|reflexivity].
  cbn [no_hand] in H. apply negb_true_iff in H.
  unfold detectLoop. rewrite H. reflexivity.
Qed.

End AppClaims.

(** ** Concrete runs *)

Section SampleScene.
Import Three.
Local Open Scope float_scope.

Lemma sample_scene_wf : wf sample_scene.
Proof. apply wf_initial. Qed.

(** Particle 0 of the sample scene sits at [(10, 0, 0)] and turns at 0.5. *)
Lemma sample_particle_0 :
  load (vPos sample_scene) 0 = 10 /\ load (vPos sample_scene) 1 = 0 /\
  load (vPos sample_scene) 2 = 0 /\ load (vVel sample_scene) 0 = 0.5.
Proof.
  unfold sample_scene.
  pose proof (load_vPos_initial (M := sample_math) sample_random 0 0) as H0.
  pose proof (load_vPos_initial (M := sample_math) sample_random 0 1) as H1.
  pose proof (load_vPos_initial (M := sample_math) sample_random 0 2) as H2.
  pose proof (load_vVel_initial (M := sample_math) sample_random 0) as Hv.
  change (0 * 3 + 0)%nat with 0%nat in H0.
  change (0 * 3 + 1)%nat with 1%nat in H1.
  change (0 * 3 + 2)%nat with 2%nat in H2.
  rewrite H0, H1, H2, Hv by (unfold vortexCount; lia).
  vm_compute. repeat split.
Qed.

Lemma rotated_x_sample_0 :
  rotated_x (M := sample_math) (vVel sample_scene) (vPos sample_scene) 0
  = 10 * Math_cos (JsMath := sample_math) (0.5 * 0.01)
    - 0 * Math_sin (JsMath := sample_math) (0.5 * 0.01).
Proof.
  unfold rotated_x.
  change (0 * 3)%nat with 0%nat. change (0 + 2)%nat with 2%nat.
  destruct sample_particle_0 as (-> & _ & -> & ->). reflexivity.
Qed.

Lemma bobbed_y_sample_0 elapsed :
  bobbed_y (M := sample_math) elapsed (vPos sample_scene) 0
  = 0 + Math_sin (JsMath := sample_math) (elapsed + of_index 0) * 0.01.
Proof.
  unfold bobbed_y. change (0 * 3 + 1)%nat with 1%nat.
  destruct sample_particle_0 as (_ & -> & _). reflexivity.
Qed.

(** At the threshold itself the sampler reports no pinch. *)
Example distance_0_06_is_not_a_pinch :
  detectLoop (M := sample_math) (Some (hand_with_gap 0.06))
             (mkAppState false (Some sample_scene))
  = Rescheduled
      (mkAppState true
         (Some (updateHandInteraction 0 0 false sample_scene))).
Proof. reflexivity. Qed.

Example distance_0_059999_is_a_pinch :
  detectLoop (M := sample_math) (Some (hand_with_gap 0.059999))
             (mkAppState false (Some sample_scene))
  = Rescheduled
      (mkAppState true
         (Some (updateHandInteraction 0 0 true sample_scene))).
Proof. reflexivity. Qed.

(** The sample arithmetic squares by a product. *)
Lemma sample_math_squares v : Math_pow (JsMath := sample_math) v 2 = v * v.
Proof. reflexivity. Qed.

(** Both coordinates count: with the thumb tip 0.03 right of and 0.04 below
    the index tip the distance is 0.05, a pinch; 0.03 and 0.06 apart, or
    0.06 and 0.03 apart, it is not. *)
Example pinch_reads_both_coordinates :
  let a := mkAppState false (Some sample_scene) in
  let palm := mkLandmark 0.25 0.75 in
  let index := mkLandmark 0.5 0.5 in
  let sampled p :=
    Rescheduled
      (mkAppState true (Some (updateHandInteraction 0.25 0.75 p sample_scene))) in
  detectLoop (M := sample_math) (Some (hand_at (mkLandmark 0.53 0.54) index palm)) a
  = sampled true /\
  detectLoop (M := sample_math) (Some (hand_at (mkLandmark 0.53 0.56) index palm)) a
  = sampled false /\
  detectLoop (M := sample_math) (Some (hand_at (mkLandmark 0.56 0.53) index palm)) a
  = sampled false.
Proof. cbv zeta. repeat split. Qed.

Lemma sample_scene_current : currentHandPos sample_scene = origin.
Proof. apply (initial_scene_at_origin (M := sample_math) sample_random). Qed.

Lemma tracking_scene_wf : wf tracking_scene.
Proof. apply wf_run, sample_scene_wf. Qed.

Lemma tracking_scene_current :
  currentHandPos tracking_scene = mkVector3 0.7499999999999999 0 1.5.
Proof.
  unfold tracking_scene. rewrite !run_cons.
  change (run [] ?s) with s.
  change (step ?s (Frame ?e)) with (animate (M := sample_math) e s).
  change (step ?s (HandUpdate ?x ?y ?p)) with (updateHandInteraction x y p s).
  rewrite current_animate, target_updateHandInteraction,
    current_updateHandInteraction, sample_scene_current.
  vm_compute. reflexivity.
Qed.

(** The trail head of a frame is the rounded pointer, not the pointer: after
    the sample [(0.6, 0.5)] the first frame smooths [x] to
    0.7499999999999999 and stores 0.75. *)
Lemma C2_head_is_rounded :
  load (tPos tracking_scene) 0 <> Three.x (currentHandPos tracking_scene).
Proof.
  assert (H : load (tPos tracking_scene) 0
              = fround (Three.x (currentHandPos tracking_scene))).
  { unfold tracking_scene. rewrite !run_cons.
    change (run [] ?s) with s.
    change (step ?s (Frame ?e)) with (animate (M := sample_math) e s).
    rewrite load_tPos_animate;
      [reflexivity | apply wf_step, sample_scene_wf | unfold trailCount; lia]. }
  rewrite H, tracking_scene_current. cbn [Three.x].
  apply float_neq; vm_compute; reflexivity.
Qed.

(** The stored coordinates of a particle are the rounded ones: particle 0
    of the sample scene, rendered at clock time 1, gets [x = 9.99987506866455]
    and [y = 0.008414709940552711], where the unrounded expressions are
    9.999875000260417 and 0.008414709848078966.  The run reads [Math.cos]
    and [Math.sin] at 0.005 and [Math.sin] at 1. *)
Lemma C7_cells_are_rounded :
  let s := sample_scene in
  let s' := animate (M := sample_math) 1 s in
  load (vPos s') (0 * 3) <> rotated_x (M := sample_math) (vVel s) (vPos s) 0 /\
  load (vPos s') (0 * 3 + 1) <> bobbed_y (M := sample_math) 1 (vPos s) 0.
Proof.
  cbv zeta.
  destruct (load_vPos_animate (M := sample_math) 1 sample_scene 0
              sample_scene_wf ltac:(unfold vortexCount; lia)) as (-> & -> & _).
  rewrite rotated_x_sample_0, bobbed_y_sample_0.
  split; apply float_neq; vm_compute; reflexivity.
Qed.

Lemma settled_scene_target : targetHandPos settled_scene = mkVector3 0 0 10.
Proof.
  unfold settled_scene. rewrite run_cons.
  destruct (run_keeps_sample (M := sample_math) (frames_60fps 216)
              (step (M := sample_math) sample_scene (HandUpdate 0.5 0.5 false)))
    as [-> _]; [vm_compute; reflexivity|].
  change (step ?s (HandUpdate ?x ?y ?p)) with (updateHandInteraction x y p s).
  rewrite target_updateHandInteraction. vm_compute. reflexivity.
Qed.

Lemma settled_scene_current :
  currentHandPos settled_scene = mkVector3 0 0 9.999999999999995.
Proof.
  unfold settled_scene. rewrite run_cons.
  rewrite current_run_frames by (vm_compute; reflexivity).
  change (step ?s (HandUpdate ?x ?y ?p)) with (updateHandInteraction x y p s).
  rewrite target_updateHandInteraction,
    current_updateHandInteraction, sample_scene_current.
  vm_compute. reflexivity.
Qed.

(** After the sample [(0.5, 0.5)] and 216 frames the pointer stands at
    [z = 9.999999999999995] under the target [z = 10], and frame 217 does
    not move it: the error is not 0 and does not decrease, neither as the
    code would compute it nor read exactly, and after these 217 frames it is
    above [(1 - 0.15)^217] times the error 10 that the run started with. *)
Lemma C4_pointer_stalls :
  let s := settled_scene in
  let s' := animate (M := sample_math) (of_index 217 / 60) s in
  let err u := abs (Three.z (targetHandPos u) - Three.z (currentHandPos u)) in
  currentHandPos s' = currentHandPos s /\
  (0 <? err s) = true /\ (err s' <? err s) = false /\
  let s0 := updateHandInteraction 0.5 0.5 false sample_scene in
  let exact_err u := pointer_error (coordinate 2 (targetHandPos u))
                                   (coordinate 2 (currentHandPos u)) in
  s' = run (M := sample_math) (frames_60fps 217) s0 /\
  (exact_err s0 == 10)%Q /\
  (0 < exact_err s)%Q /\ (exact_err s' == exact_err s)%Q /\
  ~ (exact_err s' <= (1 - (15 # 100)) ^ 217 * exact_err s0)%Q.
Proof.
  cbv beta zeta.
  assert (Hf : frames_60fps 217 = frames_60fps 216 ++ [Frame (of_index 217 / 60)])
    by (vm_compute; reflexivity).
  split; [|split; [|split; [|split]]].
  - rewrite current_animate, settled_scene_target, settled_scene_current.
    vm_compute. reflexivity.
  - rewrite settled_scene_target, settled_scene_current. vm_compute. reflexivity.
  - rewrite current_animate, target_animate.
    rewrite settled_scene_target, settled_scene_current. vm_compute. reflexivity.
  - rewrite Hf, run_app. unfold settled_scene. rewrite run_cons. reflexivity.
  - rewrite current_animate, target_animate.
    rewrite target_updateHandInteraction, current_updateHandInteraction,
      sample_scene_current.
    rewrite settled_scene_target, settled_scene_current.
    split; [vm_compute; reflexivity|]. split; [vm_compute; reflexivity|].
    split; [vm_compute; reflexivity|].
    apply Qlt_not_le. vm_compute. reflexivity.
Qed.

Lemma sample_scene_rotation : mainGroup_rotation sample_scene = mkEuler 0 0.
Proof. reflexivity. Qed.

(** One hand sample at [(1, 1)], then three frames: the target rotation is
    [(0.15, 0.3)], the sample nudges the rotation to [(0.0075, 0.015)], and
    the frames leave it there, where a nudge on each frame would move both
    angles. *)
Lemma C9_frames_do_not_nudge :
  let s1 := updateHandInteraction 1 1 false sample_scene in
  let s4 := run (M := sample_math) [Frame (1 / 60); Frame (2 / 60); Frame (3 / 60)] s1 in
  let r1 := mainGroup_rotation s1 in
  target_rotation 1 1 = mkEuler 0.15 0.3 /\
  r1 = mkEuler 0.0075 0.015 /\
  mainGroup_rotation (animate (M := sample_math) (1 / 60) s1) = r1 /\
  mainGroup_rotation s4 = r1 /\
  (rx (nudged r1 (target_rotation 1 1)) =? rx r1) = false /\
  (ry (nudged r1 (target_rotation 1 1)) =? ry r1) = false.
Proof.
  cbv beta zeta.
  assert (H1 : mainGroup_rotation (updateHandInteraction 1 1 false sample_scene)
               = mkEuler 0.0075 0.015).
  { change (mainGroup_rotation (updateHandInteraction 1 1 false sample_scene))
      with (nudged (mainGroup_rotation sample_scene) (target_rotation 1 1)).
    rewrite sample_scene_rotation. vm_compute. reflexivity. }
  rewrite rotation_animate, rotation_run, H1.
  split; [vm_compute; reflexivity|]. split; [reflexivity|].
  split; [reflexivity|]. split; [reflexivity|].
  split; vm_compute; reflexivity.
Qed.

End SampleScene.

(** ** Instances of the quantified claims *)

Section Witnesses.
Import Three.
Local Open Scope float_scope.

Lemma C2_trail_shift_and_head_witness :
  let s := tracking_scene in
  wf s /\
  let s' := animate (M := sample_math) (2 / 60) s in
  wf s' /\
  length (tPos s') = (trailCount * 3)%nat /\
  (forall i k, (1 <= i < trailCount)%nat -> (k < 3)%nat ->
      load (tPos s') (i * 3 + k) = load (tPos s) ((i - 1) * 3 + k)) /\
  load (tPos s') 0 = fround (Three.x (currentHandPos s')) /\
  load (tPos s') 1 = fround (Three.y (currentHandPos s')) /\
  load (tPos s') 2 = fround (Three.z (currentHandPos s')).
Proof.
  intros s. split; [exact tracking_scene_wf|].
  exact (C2_trail_shift_and_head (M := sample_math) (2 / 60) s tracking_scene_wf).
Defined.

Lemma C7_vortex_advance_witness :
  wf sample_scene /\ (0 < vortexCount)%nat /\
  let s' := animate (M := sample_math) 1 sample_scene in
  load (vPos s') (0 * 3) = fround (rotated_x (M := sample_math) (vVel sample_scene) (vPos sample_scene) 0) /\
  load (vPos s') (0 * 3 + 2) = fround (rotated_z (M := sample_math) (vVel sample_scene) (vPos sample_scene) 0) /\
  load (vPos s') (0 * 3 + 1) = fround (bobbed_y (M := sample_math) 1 (vPos sample_scene) 0) /\
  (forall es, vVel (run (M := sample_math) es sample_scene) = vVel sample_scene).
Proof.
  assert (Hi : (0 < vortexCount)%nat) by (unfold vortexCount; lia).
  split; [apply wf_initial | split; [exact Hi|]].
  exact (C7_vortex_advance (M := sample_math) 1 sample_scene 0
           (wf_initial sample_random) Hi).
Defined.

Lemma C5_pinch_threshold_witness :
  let thumbTip := mkLandmark 0.53 0.54 in
  let indexTip := mkLandmark 0.5 0.5 in
  let r := hand_at thumbTip indexTip (mkLandmark 0.25 0.75) in
  let a := mkAppState false (Some sample_scene) in
  detected r = true /\
  landmarks r !! 4%nat = Some thumbTip /\
  landmarks r !! 8%nat = Some indexTip /\
  let d := euclidean_distance_with (fun v => Math_pow (JsMath := sample_math) v 2)
             thumbTip indexTip in
  let isPinching := d <? 0.06 in
  (forall scene palmCenter,
      sceneRef a = Some scene ->
      landmarks r !! 9%nat = Some palmCenter ->
      detectLoop (M := sample_math) (Some r) a
      = Rescheduled
          (mkAppState true
             (Some (updateHandInteraction (lm_x palmCenter) (lm_y palmCenter)
                      isPinching scene)))) /\
  ((forall v, Math_pow (JsMath := sample_math) v 2 = v * v) ->
   d = euclidean_distance thumbTip indexTip /\
   d = sqrt ((lm_x thumbTip - lm_x indexTip) * (lm_x thumbTip - lm_x indexTip)
             + (lm_y thumbTip - lm_y indexTip) * (lm_y thumbTip - lm_y indexTip))) /\
  (d = 0.06 -> isPinching = false) /\
  (d = 0.059999 -> isPinching = true).
Proof.
  intros thumbTip indexTip r a.
  split; [reflexivity|]. split; [reflexivity|]. split; [reflexivity|].
  exact (C5_pinch_threshold (M := sample_math) r a thumbTip indexTip
           eq_refl eq_refl eq_refl).
Defined.

Lemma C8_absent_hand_keeps_target_witness :
  let a := mkAppState true (Some sample_scene) in
  let result := Some (mkHandResult false []) in
  no_hand result = true /\
  detectLoop (M := sample_math) result a
  = Rescheduled (mkAppState false (sceneRef a)) /\
  (forall es s,
      forallb (fun e => negb (is_hand_update e)) es = true ->
      targetHandPos (run (M := sample_math) es s) = targetHandPos s /\
      isPinchingRef (run (M := sample_math) es s) = isPinchingRef s).
Proof.
  split; [reflexivity|].
  apply (C8_absent_hand_keeps_target (M := sample_math)). reflexivity.
Defined.

Lemma C10_origin_until_first_sample_witness :
  let es := frames_60fps 2 ++ [MemoryLoaded 0.25 0.5 0.75 (1 / 20)]
            ++ [Frame (3 / 60)] in
  forallb (fun e => negb (is_hand_update e)) es = true /\
  let s := run (M := sample_math) es sample_scene in
  targetHandPos s = origin /\ currentHandPos s = origin /\
  tPos s = replicate (trailCount * 3) 0.
Proof.
  split; [reflexivity|].
  apply (C10_origin_until_first_sample (M := sample_math) sample_random).
  reflexivity.
Defined.

End Witnesses.
(** ** The scene over a whole run *)

Section RunFacts.
Context {M : JsMath}.
Import Three.
Local Open Scope float_scope.

Lemma run_snoc es e s : run (es ++ [e]) s = step (run es s) e.
Proof. rewrite run_app. reflexivity. Qed.

(** Events that a relation between scenes does not see can be dropped on
    one side. *)
Lemma run_filter (R : Scene -> Scene -> Prop) (keep : event -> bool) :
  (forall e s1 s2, R s1 s2 -> R (step s1 e) (step s2 e)) ->
  (forall e s1 s2, keep e = false -> R s1 s2 -> R (step s1 e) s2) ->
  forall es s1 s2, R s1 s2 -> R (run es s1) (run (List.filter keep es) s2).
Proof.
  intros Hstep Hdrop es. induction es as [|e es IH]; intros s1 s2 H; [exact H|].
  cbn [List.filter]. destruct (keep e) eqn:He.
  - rewrite !run_cons. apply IH, Hstep, H.
  - rewrite run_cons. apply IH, Hdrop; assumption.
Qed.

Lemma faded_cons e es b opacity :
  faded (e :: es) b opacity = faded es b (ramp b opacity e).
Proof. reflexivity. Qed.

(** X1: every scene that the callbacks can reach from the scene as built
    keeps its three buffers at 9000, 3000 and 300 cells, each cell a
    single-precision number. *)
Theorem reachable_scene_wf rand es : wf (run es (initial_scene rand)).
Proof. apply wf_run, wf_initial. Qed.

Lemma frame_pointers_snoc es e s :
  frame_pointers (es ++ [e]) s
  = if is_frame e then currentHandPos (run (es ++ [e]) s) :: frame_pointers es s
    else frame_pointers es s.
Proof.
  unfold frame_pointers. rewrite foldl_app. cbn [foldl snd].
  assert (Hfst : forall l sh,
             fst (foldl (fun sh e0 =>
                    let s' := step (fst sh) e0 in
                    (s', if is_frame e0 then currentHandPos s' :: snd sh
                         else snd sh)) sh l)
             = run l (fst sh)).
  { clear. induction l as [|e0 l IHl]; intros sh; [reflexivity|].
    cbn [foldl]. rewrite IHl. reflexivity. }
  rewrite Hfst. cbn [fst]. rewrite run_snoc. reflexivity.
Qed.

(** The trail after a run, read through the pointers of its frames. *)
Lemma load_tPos_run es s j k :
  wf s -> (j < trailCount)%nat -> (k < 3)%nat ->
  load (tPos (run es s)) (j * 3 + k)
  = match frame_pointers es s !! j with
    | Some p => fround (coordinate k p)
    | None => load (tPos s) ((j - length (frame_pointers es s)) * 3 + k)
    end.
Proof.
  intros Hwf Hj Hk. revert j Hj.
  induction es as [|e es IH] using rev_ind; intros j Hj.
  - cbn. rewrite Nat.sub_0_r. reflexivity.
  - rewrite frame_pointers_snoc, run_snoc. destruct e; cbn [is_frame step].
    + apply IH, Hj.
    + apply IH, Hj.
    + assert (Hwf' : wf (run es s)) by apply wf_run, Hwf.
      rewrite load_tPos_animate by (try assumption; unfold trailCount in *; lia).
      destruct j as [|j].
      * destruct k as [|[|[|k]]]; [reflexivity..|lia].
      * replace (S j * 3 + k)%nat with (S (S (S (j * 3 + k)))) by lia.
        replace (S (S (S (j * 3 + k))) - 3)%nat with (j * 3 + k)%nat by lia.
        rewrite IH by lia. reflexivity.
Qed.

(** Without hand samples a pointer that a frame leaves in place stays
    there, and so does its target. *)
Lemma pointer_rests es s :
  forallb (fun e => negb (is_hand_update e)) es = true ->
  lerp (currentHandPos s) (targetHandPos s) 0.15 = currentHandPos s ->
  currentHandPos (run es s) = currentHandPos s /\
  frame_pointers es s
  = replicate (length (List.filter is_frame es)) (currentHandPos s).
Proof.
  intros Hes Hrest. induction es as [|e es IH] using rev_ind.
  - split; reflexivity.
  - rewrite forallb_app in Hes. apply andb_prop in Hes as [Hes He].
    destruct (IH Hes) as [IHc IHf].
    assert (Ht : targetHandPos (run es s) = targetHandPos s)
      by (apply run_keeps_sample, Hes).
    rewrite frame_pointers_snoc, run_snoc, List.filter_app, length_app.
    destruct e as [x y p|r1 r2 r3 now|elapsed]; cbn [forallb is_hand_update negb andb] in He;
      [discriminate He| |]; cbn [is_frame step List.filter length].
    + rewrite Nat.add_0_r. split; assumption.
    + rewrite current_animate, Ht, IHc, Hrest, IHf.
      split; [reflexivity|].
      rewrite Nat.add_1_r. reflexivity.
Qed.

(** X2: the trail is a delay line.  After any run of events, entry [j] of
    the trail holds the rounded pointer of the [j]-th latest frame; when
    fewer than [j + 1] frames were rendered it holds what entry [j - n] held
    before the run, [n] being the number of frames. *)
Theorem trail_is_delay_line es s j k :
  wf s -> (j < trailCount)%nat -> (k < 3)%nat ->
  load (tPos (run es s)) (j * 3 + k)
  = match frame_pointers es s !! j with
    | Some p => fround (coordinate k p)
    | None => load (tPos s) ((j - length (frame_pointers es s)) * 3 + k)
    end.
Proof. apply load_tPos_run. Qed.

(** X3: photos are only ever added: after a run the scene holds one photo
    more for every texture that finished loading. *)
Theorem photos_are_kept es s :
  length (memoriesGroup (run es s))
  = (length (memoriesGroup s) + length (List.filter is_memory_loaded es))%nat.
Proof.
  revert s. induction es as [|e es IH]; intros s; [cbn; lia|].
  rewrite run_cons, IH. destruct e; cbn [step List.filter is_memory_loaded].
  - reflexivity.
  - cbn [addMemory_loaded memoriesGroup]. rewrite length_app. cbn [length]. lia.
  - cbn [animate memoriesGroup]. rewrite length_map. reflexivity.
Qed.

(** X4: a photo keeps its place in the list, its birth time and the [x] and
    [z] of its position for good, and its opacity after a run is the ramp
    value of the latest frame that came before age 2, its old opacity if
    there was none. *)
Theorem photo_over_a_run es s i mesh :
  memoriesGroup s !! i = Some mesh ->
  exists mesh',
    memoriesGroup (run es s) !! i = Some mesh' /\
    birth mesh' = birth mesh /\
    Three.x (position mesh') = Three.x (position mesh) /\
    Three.z (position mesh') = Three.z (position mesh) /\
    mat_opacity mesh' = faded es (birth mesh) (mat_opacity mesh).
Proof.
  revert s mesh. induction es as [|e es IH]; intros s mesh Hi.
  - exists mesh. repeat split. exact Hi.
  - rewrite run_cons, faded_cons.
    destruct e as [x y p|r1 r2 r3 now|elapsed]; cbn [step ramp].
    + apply IH. exact Hi.
    + apply IH. cbn [addMemory_loaded memoriesGroup].
      rewrite lookup_app_l by (eapply lookup_lt_Some; exact Hi). exact Hi.
    + destruct (IH (animate elapsed s) (memory_frame elapsed mesh)) as (m' & H1 & H2 & H3 & H4 & H5).
      { cbn [animate memoriesGroup]. rewrite list_lookup_fmap, Hi. reflexivity. }
      exists m'. split; [exact H1|]. split; [exact H2|].
      split; [exact H3|]. split; [exact H4|]. exact H5.
Qed.

(** X5: a photo that no frame shows before age 2 never fades in: its opacity
    stays what it was, 0 for a photo just loaded. *)
Theorem photo_shown_late_stays es s i mesh :
  memoriesGroup s !! i = Some mesh ->
  Forall (fun e => match e with
                   | Frame elapsed => (elapsed - or_else (birth mesh) 0 <? 2) = false
                   | _ => True
                   end) es ->
  exists mesh',
    memoriesGroup (run es s) !! i = Some mesh' /\
    mat_opacity mesh' = mat_opacity mesh.
Proof.
  intros Hi Hlate.
  destruct (photo_over_a_run es s i mesh Hi) as (m' & H1 & _ & _ & _ & H5).
  exists m'. split; [exact H1|]. rewrite H5. clear -Hlate.
  generalize (mat_opacity mesh) as op.
  induction Hlate as [|e es He _ IH]; intros op; [reflexivity|].
  rewrite faded_cons, IH.
  destruct e; cbn [ramp]; try reflexivity. rewrite He. reflexivity.
Qed.

(** X6: the pointer target, the pinch flag and the rotation of the tree
    depend on the hand samples alone: frames and photos can be dropped from
    a run without changing them. *)
Theorem hand_state_ignores_frames_and_photos es s :
  let s1 := run es s in
  let s2 := run (List.filter is_hand_update es) s in
  targetHandPos s1 = targetHandPos s2 /\
  isPinchingRef s1 = isPinchingRef s2 /\
  mainGroup_rotation s1 = mainGroup_rotation s2.
Proof.
  cbv zeta.
  apply (run_filter (fun s1 s2 =>
           targetHandPos s1 = targetHandPos s2 /\
           isPinchingRef s1 = isPinchingRef s2 /\
           mainGroup_rotation s1 = mainGroup_rotation s2)).
  - intros e s1 s2 (Ht & Hp & Hr). destruct e; cbn [step].
    + cbn [updateHandInteraction targetHandPos isPinchingRef mainGroup_rotation].
      rewrite Hr. repeat split.
    + repeat split; assumption.
    + repeat split; assumption.
  - intros e s1 s2 He H. destruct e; try discriminate He; exact H.
  - repeat split.
Qed.

(** X7: the vortex depends on the frames alone: no hand sample, pinch or
    photo moves a particle. *)
Theorem vortex_ignores_hand_and_photos es s :
  vPos (run es s) = vPos (run (List.filter is_frame es) s).
Proof.
  apply (run_filter (fun s1 s2 => vPos s1 = vPos s2 /\ vVel s1 = vVel s2)).
  - intros e s1 s2 (Hp & Hv). destruct e; cbn [step].
    + split; assumption.
    + split; assumption.
    + cbn [animate vPos vVel]. rewrite Hp, Hv. split; reflexivity.
  - intros e s1 s2 He H. destruct e; try discriminate He; exact H.
  - split; reflexivity.
Qed.

(** X8: a finished texture load adds a photo and touches nothing else:
    dropping the loads from a run changes no field of the scene but the
    photo list. *)
Theorem photos_touch_nothing_else es s :
  let s1 := run es s in
  let s2 := run (List.filter (fun e => negb (is_memory_loaded e)) es) s in
  targetHandPos s1 = targetHandPos s2 /\ currentHandPos s1 = currentHandPos s2 /\
  isPinchingRef s1 = isPinchingRef s2 /\
  mainGroup_rotation s1 = mainGroup_rotation s2 /\
  vPos s1 = vPos s2 /\ vVel s1 = vVel s2 /\ vMat s1 = vMat s2 /\
  tPos s1 = tPos s2.
Proof.
  cbv zeta.
  apply (run_filter (fun s1 s2 =>
           targetHandPos s1 = targetHandPos s2 /\
           currentHandPos s1 = currentHandPos s2 /\
           isPinchingRef s1 = isPinchingRef s2 /\
           mainGroup_rotation s1 = mainGroup_rotation s2 /\
           vPos s1 = vPos s2 /\ vVel s1 = vVel s2 /\ vMat s1 = vMat s2 /\
           tPos s1 = tPos s2)).
  - intros e s1 s2 (Ht & Hc & Hp & Hr & Hvp & Hvv & Hm & Htp).
    destruct e; cbn [step].
    + cbn [updateHandInteraction targetHandPos currentHandPos isPinchingRef
             mainGroup_rotation vPos vVel vMat tPos].
      rewrite Hr. repeat split; assumption.
    + repeat split; assumption.
    + cbn [animate targetHandPos currentHandPos isPinchingRef
             mainGroup_rotation vPos vVel vMat tPos].
      rewrite Ht, Hc, Hp, Hvp, Hvv, Hm, Htp. repeat split; assumption.
  - intros e s1 s2 He H. destruct e; try discriminate He. exact H.
  - repeat split.
Qed.

(** X9: the photos depend on the loads and the frames alone: hand samples
    can be dropped from a run without changing any photo. *)
Theorem photos_ignore_the_hand es s :
  memoriesGroup (run es s)
  = memoriesGroup (run (List.filter (fun e => negb (is_hand_update e)) es) s).
Proof.
  apply (run_filter (fun s1 s2 => memoriesGroup s1 = memoriesGroup s2)).
  - intros e s1 s2 H. destruct e; cbn [step].
    + exact H.
    + cbn [addMemory_loaded memoriesGroup]. rewrite H. reflexivity.
    + cbn [animate memoriesGroup]. rewrite H. reflexivity.
  - intros e s1 s2 He H. destruct e; try discriminate He. exact H.
  - reflexivity.
Qed.

(** X10: the construction loop stores for particle [i] the rounded place
    and the rounded angular velocity it draws, and that velocity is the one
    every later frame finds. *)
Theorem vortex_as_built rand es i :
  (i < vortexCount)%nat ->
  (forall c, (c < 3)%nat ->
     load (vPos (initial_scene rand)) (i * 3 + c) = fround (placed rand i c)) /\
  load (vVel (run es (initial_scene rand))) i = fround (drawn_velocity rand i).
Proof.
  intros Hi. split.
  - intros c Hc. apply load_vPos_initial; assumption.
  - rewrite vVel_run. apply load_vVel_initial, Hi.
Qed.

(** X16: when a frame leaves the pointer where it is, be it on its target
    or stalled next to it, the frames that follow leave it there as long as
    no hand sample arrives, and the trail closes up on it: after [n] frames
    its first [n] entries hold the rounded pointer, all 100 of them after
    100 frames. *)
Theorem trail_closes_up_on_resting_pointer es s j k :
  wf s ->
  forallb (fun e => negb (is_hand_update e)) es = true ->
  lerp (currentHandPos s) (targetHandPos s) 0.15 = currentHandPos s ->
  (j < length (List.filter is_frame es))%nat -> (j < trailCount)%nat ->
  (k < 3)%nat ->
  currentHandPos (run es s) = currentHandPos s /\
  load (tPos (run es s)) (j * 3 + k) = fround (coordinate k (currentHandPos s)).
Proof.
  intros Hwf Hes Hrest Hj Hjt Hk.
  destruct (pointer_rests es s Hes Hrest) as [Hc Hf].
  split; [exact Hc|].
  rewrite load_tPos_run, Hf by assumption.
  rewrite lookup_replicate_2 by exact Hj. reflexivity.
Qed.

End RunFacts.

(** ** The callbacks of the page *)

Section PageFacts.
Context {M : JsMath}.
Import Three.
Local Open Scope float_scope.

Lemma page_run_cons c cs p : page_run (c :: cs) p = page_run cs (page_step p c).
Proof. reflexivity. Qed.

Lemma lookup_None_length {A} (l : list A) i : l !! i = None <-> (length l <= i)%nat.
Proof. apply lookup_ge_None. Qed.

(** X11: a run of [detectLoop] leaves [handDetected] equal to what the
    detector reported, also when it throws; it throws exactly when a hand
    is reported with fewer than 9 landmarks, or with exactly 9 while the
    scene is mounted; and a run that throws leaves the scene untouched. *)
Theorem detectLoop_outcomes result a :
  let o := detectLoop result a in
  handDetected (outcome_state o) = negb (no_hand result) /\
  (throws o = true <->
   exists r, result = Some r /\ detected r = true /\
     ((length (landmarks r) <= 8)%nat \/
      (length (landmarks r) = 9%nat /\ sceneRef a <> None))) /\
  (throws o = true -> sceneRef (outcome_state o) = sceneRef a).
Proof.
  cbv zeta. destruct result as [r|]; cbn [detectLoop no_hand].
  2:{ split; [reflexivity|]. split; [|discriminate].
      split; [discriminate|]. intros (r & Hr & _). discriminate Hr. }
  destruct (detected r) eqn:Hd; cbn [negb].
  2:{ split; [reflexivity|]. split; [|discriminate].
      split; [discriminate|]. intros (r' & [= <-] & Hd' & _). congruence. }
  destruct (landmarks r !! 4%nat) as [thumbTip|] eqn:H4.
  2:{ apply lookup_None_length in H4. cbn. split; [reflexivity|].
      split; [|reflexivity]. split; [|reflexivity].
      intros _. exists r. split; [reflexivity|]. split; [exact Hd|]. left. lia. }
  destruct (landmarks r !! 8%nat) as [indexTip|] eqn:H8.
  2:{ apply lookup_None_length in H8. cbn. split; [reflexivity|].
      split; [|reflexivity]. split; [|reflexivity].
      intros _. exists r. split; [reflexivity|]. split; [exact Hd|]. left. lia. }
  apply lookup_lt_Some in H8. cbn [sceneRef].
  destruct (sceneRef a) as [scene|] eqn:Hs.
  2:{ cbn. split; [reflexivity|]. split; [|discriminate].
      split; [discriminate|].
      intros (r' & [= <-] & _ & [Hl|[_ Hn]]); [lia|congruence]. }
  destruct (landmarks r !! 9%nat) as [palmCenter|] eqn:H9.
  - apply lookup_lt_Some in H9. cbn. split; [reflexivity|].
    split; [|discriminate]. split; [discriminate|].
    intros (r' & [= <-] & _ & [Hl|[Hl _]]); lia.
  - apply lookup_None_length in H9. cbn. split; [reflexivity|].
    split; [|reflexivity]. split; [|reflexivity].
    intros _. exists r. split; [reflexivity|]. split; [exact Hd|]. right.
    split; [lia|discriminate].
Qed.

(** With the landmarks in place a run of [detectLoop] on a mounted scene
    is one step of the scene and is scheduled again. *)
Lemma page_step_readable c p sc :
  detecting p = true -> sceneRef (page_app p) = Some sc ->
  callback_readable c = true ->
  page_step p c
  = mkPage (mkAppState (hand_seen (handDetected (page_app p)) c)
                       (Some (run (scene_events c) sc))) true.
Proof.
  intros Hdet Hs Hc. destruct c as [[r|]|elapsed|r1 r2 r3 now];
    cbn [page_step scene_events hand_seen callback_readable readable] in *.
  - rewrite Hdet. cbn [detectLoop]. destruct (detected r) eqn:Hd.
    + cbn [negb orb] in Hc. apply Nat.leb_le in Hc.
      destruct (lookup_lt_is_Some_2 (landmarks r) 4%nat ltac:(lia)) as [l4 ->].
      destruct (lookup_lt_is_Some_2 (landmarks r) 8%nat ltac:(lia)) as [l8 ->].
      destruct (lookup_lt_is_Some_2 (landmarks r) 9%nat ltac:(lia)) as [l9 ->].
      cbn [sceneRef]. rewrite Hs. reflexivity.
    + rewrite Hs. reflexivity.
  - rewrite Hdet. cbn [detectLoop]. rewrite Hs. reflexivity.
  - unfold on_scene. rewrite Hs, Hdet. reflexivity.
  - unfold on_scene. rewrite Hs, Hdet. reflexivity.
Qed.

(** X12: while the detector hands over the landmarks that [detectLoop]
    reads, the page with a mounted scene is the scene run on the events of
    its callbacks: [detectLoop] stays scheduled, the scene is [run] on the
    hand samples, frames and photo loads in callback order, and
    [handDetected] is what the latest detector result said. *)
Theorem page_run_is_scene_run cs p sc :
  detecting p = true -> sceneRef (page_app p) = Some sc ->
  forallb callback_readable cs = true ->
  page_run cs p
  = mkPage (mkAppState (foldl hand_seen (handDetected (page_app p)) cs)
                       (Some (run (flat_map scene_events cs) sc))) true.
Proof.
  revert p sc. induction cs as [|c cs IH]; intros p sc Hdet Hs Hcs.
  - destruct p as [[h s] d]. cbn in *. subst. reflexivity.
  - cbn [forallb] in Hcs. apply andb_prop in Hcs as [Hc Hcs].
    rewrite page_run_cons, (page_step_readable c p sc Hdet Hs Hc).
    rewrite (IH (mkPage (mkAppState (hand_seen (handDetected (page_app p)) c)
                                    (Some (run (scene_events c) sc))) true)
                (run (scene_events c) sc) eq_refl eq_refl Hcs).
    cbn [page_app handDetected foldl flat_map]. rewrite run_app. reflexivity.
Qed.

(** Once [detectLoop] is no longer scheduled, no callback changes
    [handDetected] or what the hand set in the scene. *)
Lemma page_run_not_detecting cs p :
  detecting p = false ->
  let p' := page_run cs p in
  detecting p' = false /\
  handDetected (page_app p') = handDetected (page_app p) /\
  option_map targetHandPos (sceneRef (page_app p'))
  = option_map targetHandPos (sceneRef (page_app p)) /\
  option_map isPinchingRef (sceneRef (page_app p'))
  = option_map isPinchingRef (sceneRef (page_app p)) /\
  option_map mainGroup_rotation (sceneRef (page_app p'))
  = option_map mainGroup_rotation (sceneRef (page_app p)).
Proof.
  cbv zeta. revert p. induction cs as [|c cs IH]; intros p Hdet.
  - repeat split; assumption.
  - rewrite page_run_cons.
    assert (H : detecting (page_step p c) = false /\
                handDetected (page_app (page_step p c)) = handDetected (page_app p) /\
                option_map targetHandPos (sceneRef (page_app (page_step p c)))
                = option_map targetHandPos (sceneRef (page_app p)) /\
                option_map isPinchingRef (sceneRef (page_app (page_step p c)))
                = option_map isPinchingRef (sceneRef (page_app p)) /\
                option_map mainGroup_rotation (sceneRef (page_app (page_step p c)))
                = option_map mainGroup_rotation (sceneRef (page_app p))).
    { destruct c; cbn [page_step].
      - rewrite Hdet. repeat split; assumption.
      - unfold on_scene. cbn [detecting page_app handDetected sceneRef].
        destruct (sceneRef (page_app p)); repeat split; assumption.
      - unfold on_scene. cbn [detecting page_app handDetected sceneRef].
        destruct (sceneRef (page_app p)); repeat split; assumption. }
    destruct H as (H1 & H2 & H3 & H4 & H5).
    destruct (IH _ H1) as (I1 & I2 & I3 & I4 & I5).
    rewrite I2, I3, I4, I5. repeat split; assumption.
Qed.

(** X13: a run of [detectLoop] that throws is its last.  Whatever
    callbacks follow, [handDetected] stays [true], and the pointer target,
    the pinch flag and the rotation of the tree stay what they were before
    that run: the hand no longer steers the scene. *)
Theorem hand_tracking_ends_with_a_throw result cs p :
  detecting p = true ->
  throws (detectLoop result (page_app p)) = true ->
  let p' := page_run (Detect result :: cs) p in
  detecting p' = false /\
  handDetected (page_app p') = true /\
  option_map targetHandPos (sceneRef (page_app p'))
  = option_map targetHandPos (sceneRef (page_app p)) /\
  option_map isPinchingRef (sceneRef (page_app p'))
  = option_map isPinchingRef (sceneRef (page_app p)) /\
  option_map mainGroup_rotation (sceneRef (page_app p'))
  = option_map mainGroup_rotation (sceneRef (page_app p)).
Proof.
  intros Hdet Hthrow. cbv zeta. rewrite page_run_cons.
  destruct (detectLoop_outcomes result (page_app p)) as (Hh & Hiff & Hsc).
  cbv zeta in Hh, Hiff, Hsc. specialize (Hsc Hthrow).
  apply Hiff in Hthrow as Hr. destruct Hr as (r & -> & Hd & _).
  cbn [no_hand] in Hh. rewrite Hd in Hh. cbn [negb] in Hh.
  cbn [page_step]. rewrite Hdet.
  destruct (detectLoop (Some r) (page_app p)) as [a|a] eqn:Ho;
    [discriminate Hthrow|].
  cbn [outcome_state] in Hh, Hsc.
  destruct (page_run_not_detecting cs (mkPage a false) eq_refl)
    as (I1 & I2 & I3 & I4 & I5).
  cbn [page_app] in I2, I3, I4, I5. rewrite I2, I3, I4, I5, Hsc.
  repeat split; assumption.
Qed.

End PageFacts.

Section ShellFacts.
Context {M : JsMath}.
Import Ascii String.
Local Open Scope string_scope.

Lemma lower_unit_h c :
  lower_unit c = "h"%char <-> c = "h"%char \/ c = "H"%char.
Proof.
  split.
  - destruct c as [[] [] [] [] [] [] [] []]; vm_compute; intros H;
      try discriminate H; auto.
  - intros [-> | ->]; reflexivity.
Qed.

Lemma toLowerCase_h key : toLowerCase key = "h" <-> key = "h" \/ key = "H".
Proof.
  split.
  - destruct key as [|c [|c' key]]; cbn [toLowerCase]; intros H;
      try discriminate H.
    injection H as H. apply lower_unit_h in H as [-> | ->]; auto.
  - intros [-> | ->]; reflexivity.
Qed.

(** X14: of all keys only [h] and [H] do anything: they flip [uiHidden]
    and leave the rest of the state alone, so a second press restores the
    state; every other key leaves the state as it is. *)
Theorem handleKeyDown_toggles key u :
  (if (key =? "h") || (key =? "H")
   then handleKeyDown key u
        = mkShell (negb (uiHidden u)) (camError u) (shell_page u)
   else handleKeyDown key u = u) /\
  handleKeyDown key (handleKeyDown key u) = u.
Proof.
  unfold handleKeyDown. destruct (toLowerCase key =? "h") eqn:E.
  - apply String.eqb_eq, toLowerCase_h in E.
    replace ((key =? "h") || (key =? "H"))%bool with true
      by (destruct E as [-> | ->]; reflexivity).
    split; [reflexivity|].
    destruct u as [h e p]. cbn. rewrite negb_involutive. reflexivity.
  - apply String.eqb_neq in E.
    replace ((key =? "h") || (key =? "H"))%bool with false; [split; reflexivity|].
    symmetry. apply orb_false_intro; apply String.eqb_neq; intros ->;
      apply E; reflexivity.
Qed.

(** X15: started with no error shown, [setupCV] leaves [detectLoop]
    scheduled exactly when the camera is granted, the video element is
    mounted, the tracker initialises and the first run of [detectLoop] does
    not throw.  It shows an error in every other case but one: with the
    camera granted and no video element it stops without a word. *)
Theorem setupCV_outcomes b first u :
  camError u = None ->
  let u' := setupCV b first u in
  (detecting (shell_page u') = true <->
   camera_granted b = true /\ video_mounted b = true /\ tracker_ready b = true /\
   throws (detectLoop first (page_app (shell_page u))) = false) /\
  (camError u' = None <->
   detecting (shell_page u') = true \/
   (camera_granted b = true /\ video_mounted b = false)) /\
  uiHidden u' = uiHidden u.
Proof.
  intros He. cbv zeta. unfold setupCV. rewrite He.
  destruct b as [[] [] []]; cbn [camera_granted video_mounted tracker_ready andb].
  1: destruct (detectLoop first (page_app (shell_page u))); cbn.
  all: cbn; repeat split; try tauto; try discriminate; try reflexivity;
    intros; intuition discriminate.
Qed.

End ShellFacts.

(** ** Rounding does not step over a binary64 number *)

Section RoundingBound.
Local Open Scope Z_scope.

Lemma fexp64 x : fexp 53 1024 x = Z.max (x - 53) (-1074).
Proof. reflexivity. Qed.

Lemma scaled_shift m e j :
  0 <= j -> -2200 <= e - j -> scaled (m * 2 ^ j) (e - j) = scaled m e.
Proof.
  intros Hj He. unfold scaled.
  replace (e + 2200) with (j + (e - j + 2200)) by lia.
  rewrite (Z.pow_add_r 2 j (e - j + 2200)) by lia. ring.
Qed.

Lemma scaled_align m e e0 :
  -2200 <= e0 <= e -> scaled (m * 2 ^ (e - e0)) e0 = scaled m e.
Proof.
  intros H. rewrite <- (scaled_shift m e (e - e0)) by lia. f_equal. lia.
Qed.

Lemma scaled_le_mono m1 m2 e : -2200 <= e -> m1 <= m2 -> scaled m1 e <= scaled m2 e.
Proof.
  intros He H. unfold scaled. apply Z.mul_le_mono_nonneg_r; [|exact H].
  apply Z.pow_nonneg. lia.
Qed.

Lemma scaled_le_inv m1 m2 e : -2200 <= e -> scaled m1 e <= scaled m2 e -> m1 <= m2.
Proof.
  intros He H. unfold scaled in H.
  apply Z.mul_le_mono_pos_r in H; [exact H|]. apply Z.pow_pos_nonneg; lia.
Qed.

(** A smaller magnitude has no more digits in front of the binary point. *)
Lemma scaled_le_digits m1 e1 m2 e2 :
  0 < m1 -> 0 < m2 -> -2200 <= e1 -> -2200 <= e2 ->
  scaled m1 e1 <= scaled m2 e2 ->
  Zdigits2 m1 + e1 <= Zdigits2 m2 + e2.
Proof.
  intros H1 H2 He1 He2 H. unfold scaled in H.
  pose proof (Zdigits2_bounds m1 H1) as [Hl1 _].
  pose proof (Zdigits2_bounds m2 H2) as [_ Hu2].
  pose proof (Zdigits2_pos m1 H1). pose proof (Zdigits2_pos m2 H2).
  assert (Hp1 : 0 < 2 ^ (e1 + 2200)) by (apply Z.pow_pos_nonneg; lia).
  assert (Hp2 : 0 < 2 ^ (e2 + 2200)) by (apply Z.pow_pos_nonneg; lia).
  assert (Hlt : 2 ^ (Zdigits2 m1 - 1 + (e1 + 2200)) < 2 ^ (Zdigits2 m2 + (e2 + 2200))).
  { rewrite (Z.pow_add_r 2 (Zdigits2 m1 - 1)), (Z.pow_add_r 2 (Zdigits2 m2)) by lia.
    apply Z.le_lt_trans with (m1 * 2 ^ (e1 + 2200)).
    - apply Z.mul_le_mono_nonneg_r; lia.
    - apply Z.le_lt_trans with (m2 * 2 ^ (e2 + 2200)); [exact H|].
      apply Z.mul_lt_mono_pos_r; [exact Hp2|exact Hu2]. }
  apply Z.pow_lt_mono_r_iff in Hlt; lia.
Qed.

Lemma shr_1_rs mrs :
  0 <= shr_m mrs ->
  shr_r (shr_1 mrs) = Z.odd (shr_m mrs) /\
  shr_s (shr_1 mrs) = (shr_r mrs || shr_s mrs)%bool.
Proof.
  destruct mrs as [m r s]; cbn [shr_m shr_r shr_s]. intros H.
  destruct m as [|[p|p|]|p]; cbn [shr_1 shr_r shr_s]; try lia; split; reflexivity.
Qed.

(** Shifting out zeros only leaves the location exact. *)
Lemma shr_iter_exact k m :
  0 <= m -> m mod 2 ^ Z.of_nat k = 0 ->
  let mrs := Nat.iter k shr_1 (Build_shr_record m false false) in
  shr_r mrs = false /\ shr_s mrs = false.
Proof.
  intros Hm. induction k as [|k IH]; intros Hk; [split; reflexivity|].
  cbv zeta in *. rewrite Nat.iter_succ.
  assert (Hpk : 0 < 2 ^ Z.of_nat k) by (apply Z.pow_pos_nonneg; lia).
  rewrite Nat2Z.inj_succ, Z.pow_succ_r in Hk by lia.
  assert (Hmk : m mod 2 ^ Z.of_nat k = 0 /\ (m / 2 ^ Z.of_nat k) mod 2 = 0).
  { rewrite Z.mul_comm in Hk. rewrite Z.rem_mul_r in Hk by lia.
    pose proof (Z.mod_pos_bound m (2 ^ Z.of_nat k) Hpk).
    pose proof (Z.mod_pos_bound (m / 2 ^ Z.of_nat k) 2 ltac:(lia)). nia. }
  destruct Hmk as [Hmk Hev]. destruct (IH Hmk) as [Hr Hs].
  set (mrs := Nat.iter k shr_1 (Build_shr_record m false false)) in *.
  assert (Hmm : shr_m mrs = m / 2 ^ Z.of_nat k)
    by (unfold mrs; rewrite shr_iter_m; [reflexivity|exact Hm]).
  assert (H0 : 0 <= shr_m mrs) by (rewrite Hmm; apply Z.div_pos; lia).
  destruct (shr_1_rs mrs H0) as [-> ->]. rewrite Hr, Hs, Hmm.
  split; [|reflexivity].
  rewrite <- Z.negb_even. apply negb_false_iff.
  rewrite Zeven_mod. apply Z.eqb_eq, Hev.
Qed.

(** The mantissa rounded after a shift by [n] bits stays under every
    bound that is a whole number of the new units. *)
Lemma shr_round_le p m B :
  0 <= m -> m <= B * 2 ^ Zpos p ->
  let mrs := SpecFloat.iter_pos shr_1 p (Build_shr_record m false false) in
  let m2 := round_nearest_even (shr_m mrs) (loc_of_shr_record mrs) in
  m / 2 ^ Zpos p <= m2 <= B.
Proof.
  intros Hm HB. cbv zeta.
  assert (Hp : 0 < 2 ^ Zpos p) by (apply Z.pow_pos_nonneg; lia).
  rewrite shr_pos_m by exact Hm. cbn [shr_m].
  pose proof (Z.div_mod m (2 ^ Zpos p) ltac:(lia)) as Hdm.
  pose proof (Z.mod_pos_bound m (2 ^ Zpos p) Hp) as Hmod.
  destruct (Z.eq_dec (m mod 2 ^ Zpos p) 0) as [H0|H0].
  - rewrite iter_pos_nat.
    destruct (shr_iter_exact (Pos.to_nat p) m Hm) as [Hr Hs];
      [rewrite positive_nat_Z; exact H0|].
    cbv zeta in Hr, Hs.
    destruct (Nat.iter (Pos.to_nat p) shr_1 (Build_shr_record m false false))
      as [m' r s]. cbn [shr_r shr_s] in Hr, Hs. subst r s.
    cbn [loc_of_shr_record round_nearest_even]. split; [lia|]. nia.
  - destruct (round_nearest_even_cases (m / 2 ^ Zpos p)
                (loc_of_shr_record
                   (SpecFloat.iter_pos shr_1 p (Build_shr_record m false false))))
      as [-> | ->]; split; try lia; nia.
Qed.

Lemma loc_of_shr_record_of_loc m l :
  loc_of_shr_record (shr_record_of_loc m l) = l.
Proof. destruct l as [|[]]; reflexivity. Qed.

(** Rounding a magnitude that lies under a binary64 number [b * 2^eb]
    gives zero or a finite number under it, never an infinity.  The
    magnitude is [mx * 2^ex] when the location [lx] is exact, and lies
    between that and [(mx + 1) * 2^ex] when it is not. *)
Lemma binary_round_aux_within s mx ex lx b eb :
  0 <= mx -> -2200 <= ex <= eb ->
  canonical_mantissa 53 1024 b eb = true -> eb <= 971 ->
  scaled mx ex <= scaled (Zpos b) eb ->
  (lx <> loc_Exact -> scaled mx ex < scaled (Zpos b) eb) ->
  within b eb (binary_round_aux 53 1024 s mx ex lx).
Proof.
  intros Hmx [Hex Hexb] Hcan Hemax Hle Hlt.
  unfold canonical_mantissa in Hcan. apply Z.eqb_eq in Hcan.
  rewrite fexp64 in Hcan.
  assert (Hdb : 0 < Zpos (digits2_pos b)) by lia.
  unfold binary_round_aux.
  (* first shift and rounding *)
  assert (H1 : exists m2 e',
             (let '(mrs', e') := shr_fexp 53 1024 mx ex lx in
              (round_nearest_even (shr_m mrs') (loc_of_shr_record mrs'), e'))
             = (m2, e') /\
             0 <= m2 /\ -2200 <= e' <= eb /\ scaled m2 e' <= scaled (Zpos b) eb).
  { unfold shr_fexp, shr. rewrite fexp64. set (d := Zdigits2 mx).
    assert (Hd : d + ex <= Zpos (digits2_pos b) + eb).
    { destruct (Z.eq_dec mx 0) as [->|Hnz]; [subst d; cbn [Zdigits2]; lia|].
      apply (scaled_le_digits mx ex (Zpos b) eb); lia. }
    assert (HBx : mx <= Zpos b * 2 ^ (eb - ex) /\
                  (lx <> loc_Exact -> mx < Zpos b * 2 ^ (eb - ex))).
    { split.
      - apply (scaled_le_inv _ _ ex); [lia|]. rewrite scaled_align by lia. exact Hle.
      - intros Hl. specialize (Hlt Hl).
        rewrite <- (scaled_align (Zpos b) eb ex) in Hlt by lia.
        unfold scaled in Hlt. apply Z.mul_lt_mono_pos_r in Hlt; [exact Hlt|].
        apply Z.pow_pos_nonneg; lia. }
    destruct HBx as [HBle HBlt].
    assert (Hnoshift : exists m2 e',
               (round_nearest_even (shr_m (shr_record_of_loc mx lx))
                  (loc_of_shr_record (shr_record_of_loc mx lx)), ex) = (m2, e') /\
               0 <= m2 /\ -2200 <= e' <= eb /\ scaled m2 e' <= scaled (Zpos b) eb).
    { eexists _, ex. split; [reflexivity|].
      rewrite shr_m_of_loc, loc_of_shr_record_of_loc.
      assert (mx <= round_nearest_even mx lx <= Zpos b * 2 ^ (eb - ex)).
      { destruct lx as [|c]; [cbn; lia|].
        specialize (HBlt ltac:(discriminate)).
        destruct (round_nearest_even_cases mx (loc_Inexact c)) as [-> | ->]; lia. }
      split; [lia|]. split; [lia|].
      rewrite <- (scaled_align (Zpos b) eb ex) by lia.
      apply scaled_le_mono; lia. }
    destruct (Z.max (d + ex - 53) (-1074) - ex) as [|p|p] eqn:Hn;
      [exact Hnoshift| |exact Hnoshift].
    assert (He1 : ex + Zpos p <= eb) by lia.
    eexists _, (ex + Zpos p). split; [reflexivity|].
    assert (Hp : 0 < 2 ^ Zpos p) by (apply Z.pow_pos_nonneg; lia).
    assert (HB : mx <= Zpos b * 2 ^ (eb - (ex + Zpos p)) * 2 ^ Zpos p /\
                 (lx <> loc_Exact ->
                  mx < Zpos b * 2 ^ (eb - (ex + Zpos p)) * 2 ^ Zpos p)).
    { rewrite <- Z.mul_assoc, <- Z.pow_add_r by lia.
      replace (eb - (ex + Zpos p) + Zpos p) with (eb - ex) by lia.
      split; assumption. }
    destruct HB as [HB HBs].
    assert (Hlo : 0 <= mx / 2 ^ Zpos p) by (apply Z.div_pos; lia).
    assert (Hr : mx / 2 ^ Zpos p
                 <= round_nearest_even
                      (shr_m (SpecFloat.iter_pos shr_1 p (shr_record_of_loc mx lx)))
                      (loc_of_shr_record
                         (SpecFloat.iter_pos shr_1 p (shr_record_of_loc mx lx)))
                 <= Zpos b * 2 ^ (eb - (ex + Zpos p))).
    { destruct lx as [|c].
      - apply shr_round_le; assumption.
      - specialize (HBs ltac:(discriminate)).
        rewrite shr_pos_m by (rewrite shr_m_of_loc; exact Hmx).
        rewrite shr_m_of_loc.
        assert (mx / 2 ^ Zpos p < Zpos b * 2 ^ (eb - (ex + Zpos p)))
          by (apply Z.div_lt_upper_bound; lia).
        destruct (round_nearest_even_cases (mx / 2 ^ Zpos p)
                    (loc_of_shr_record
                       (SpecFloat.iter_pos shr_1 p
                          (shr_record_of_loc mx (loc_Inexact c)))))
          as [-> | ->]; lia. }
    split; [lia|]. split; [lia|].
    apply Z.le_trans with (scaled (Zpos b * 2 ^ (eb - (ex + Zpos p))) (ex + Zpos p)).
    - apply scaled_le_mono; [lia|]. apply Hr.
    - rewrite scaled_align by lia. lia. }
  destruct H1 as (m2 & e' & Hshr & Hm2 & He' & Hle2).
  destruct (shr_fexp 53 1024 mx ex lx) as [mrs' e1].
  injection Hshr as -> ->.
  (* second shift *)
  destruct (Z.eq_dec m2 0) as [->|Hnz].
  { unfold shr_fexp, shr. cbn [Zdigits2 shr_record_of_loc]. rewrite fexp64.
    destruct (Z.max (0 + e' - 53) (-1074) - e') as [|p|p].
    - exact I.
    - rewrite shr_pos_m by (cbn; lia). cbn [shr_m]. rewrite Z.div_0_l; [exact I|].
      apply Z.pow_nonzero; lia.
    - exact I. }
  pose proof (shr_fexp_m 53 1024 m2 e' loc_Exact Hm2) as Hs2. cbv zeta in Hs2.
  pose proof (scaled_le_digits m2 e' (Zpos b) eb
                ltac:(lia) ltac:(lia) ltac:(lia) ltac:(lia) Hle2) as Hd2.
  cbn [Zdigits2] in Hd2. rewrite fexp64 in Hs2.
  destruct (shr_fexp 53 1024 m2 e' loc_Exact) as [mrs'' e''].
  destruct Hs2 as [Hpos Hneg].
  assert (H3 : 0 <= shr_m mrs'' /\ e' <= e'' <= eb /\
               scaled (shr_m mrs'') e'' <= scaled (Zpos b) eb).
  { destruct (Z_lt_le_dec 0 (Z.max (Zdigits2 m2 + e' - 53) (-1074) - e')) as [Hn|Hn].
    - destruct (Hpos Hn) as [-> ->].
      set (n := Z.max (Zdigits2 m2 + e' - 53) (-1074) - e') in *.
      assert (Hpn : 0 < 2 ^ n) by (apply Z.pow_pos_nonneg; lia).
      split; [apply Z.div_pos; lia|]. split; [lia|].
      apply Z.le_trans with (scaled m2 e'); [|exact Hle2].
      rewrite <- (scaled_align (m2 / 2 ^ n) (e' + n) e') by lia.
      replace (e' + n - e') with n by lia.
      apply scaled_le_mono; [lia|].
      rewrite Z.mul_comm. apply Z.mul_div_le. exact Hpn.
    - destruct (Hneg Hn) as [-> ->]. split; [lia|]. split; [lia|exact Hle2]. }
  destruct H3 as (H0 & He'' & Hle3).
  destruct (shr_m mrs'') as [|m|m]; [exact I| |lia].
  rewrite (proj2 (Z.leb_le e'' (1024 - 53))) by lia.
  exact Hle3.
Qed.

End RoundingBound.
Section RangeOfOperations.
Local Open Scope Z_scope.

Lemma binary_round_aux_within' s mx ex b eb :
  -2200 <= ex <= eb -> canonical_mantissa 53 1024 b eb = true -> eb <= 971 ->
  scaled (Zpos mx) ex <= scaled (Zpos b) eb ->
  within b eb (binary_round_aux 53 1024 s (Zpos mx) ex loc_Exact).
Proof.
  intros He Hc Hm Hle.
  apply binary_round_aux_within; try assumption; [lia|]. intros H. now destruct H.
Qed.

Lemma shl_align_fst mx ex ez :
  ez <= ex -> Zpos (fst (shl_align mx ex ez)) = Zpos mx * 2 ^ (ex - ez).
Proof.
  intros H. unfold shl_align. destruct (ez - ex) as [|d|d] eqn:Hd; cbn [fst].
  - replace (ex - ez) with 0 by lia. lia.
  - lia.
  - rewrite Pos_iter_xO_val. f_equal. f_equal. lia.
Qed.

Lemma binary_round_within s mx ex b eb :
  -2200 <= ex -> canonical_mantissa 53 1024 b eb = true -> eb <= 971 ->
  scaled (Zpos mx) ex <= scaled (Zpos b) eb ->
  within b eb (binary_round 53 1024 s mx ex).
Proof.
  intros Hex Hcan Hemax Hle. unfold binary_round.
  pose proof (scaled_le_digits (Zpos mx) ex (Zpos b) eb
                ltac:(lia) ltac:(lia) Hex) as Hd.
  assert (Heb : eb = Z.max (Zpos (digits2_pos b) + eb - 53) (-1074)).
  { unfold canonical_mantissa in Hcan. apply Z.eqb_eq in Hcan.
    rewrite fexp64 in Hcan. lia. }
  specialize (Hd ltac:(lia) Hle). cbn [Zdigits2] in Hd.
  rewrite fexp64. unfold shl_align.
  destruct (Z.max (Zpos (digits2_pos mx) + ex - 53) (-1074) - ex) as [|d|d] eqn:En.
  - apply binary_round_aux_within'; try assumption. lia.
  - apply binary_round_aux_within'; try assumption. lia.
  - apply binary_round_aux_within'; try assumption; [lia|].
    rewrite Pos_iter_xO_val.
    replace (Z.max (Zpos (digits2_pos mx) + ex - 53) (-1074)) with (ex - Zpos d) by lia.
    rewrite scaled_shift by lia. exact Hle.
Qed.

Lemma scaled_sub m1 m2 e : scaled (m1 - m2) e = scaled m1 e - scaled m2 e.
Proof. unfold scaled. ring. Qed.

Lemma scaled_opp m e : scaled (- m) e = - scaled m e.
Proof. unfold scaled. ring. Qed.

(** The difference of two positive binary64 numbers that lie within
    [b * 2^eb] of each other is within [b * 2^eb] of zero. *)
Lemma SFsub_within mx ex my ey b eb :
  -1074 <= ex -> -1074 <= ey ->
  canonical_mantissa 53 1024 b eb = true -> eb <= 971 ->
  Z.abs (scaled (Zpos mx) ex - scaled (Zpos my) ey) <= scaled (Zpos b) eb ->
  within b eb (SFsub 53 1024 (S754_finite false mx ex) (S754_finite false my ey)).
Proof.
  intros Hex Hey Hcan Hemax Hle. cbn [SFsub cond_Zopp].
  set (ez := Z.min ex ey).
  rewrite !shl_align_fst by lia.
  assert (Hv : scaled (Zpos mx * 2 ^ (ex - ez) - Zpos my * 2 ^ (ey - ez)) ez
               = scaled (Zpos mx) ex - scaled (Zpos my) ey).
  { rewrite scaled_sub, !scaled_align by lia. reflexivity. }
  destruct (Zpos mx * 2 ^ (ex - ez) - Zpos my * 2 ^ (ey - ez)) as [|m|m] eqn:Em;
    cbn [binary_normalize].
  - exact I.
  - apply binary_round_within; try assumption; lia.
  - apply binary_round_within; try assumption; [lia|].
    change (Zpos m) with (- Zneg m). rewrite scaled_opp. lia.
Qed.

Lemma scaled_mul m1 e1 m2 e2 :
  -2200 <= e1 -> -2200 <= e2 -> -2200 <= e1 + e2 ->
  scaled (m1 * m2) (e1 + e2) * 2 ^ 2200 = scaled m1 e1 * scaled m2 e2.
Proof.
  intros H1 H2 H12. unfold scaled.
  replace (2 ^ (e1 + 2200) * (m2 * 2 ^ (e2 + 2200)))
    with (m2 * (2 ^ (e1 + 2200) * 2 ^ (e2 + 2200))) by ring.
  rewrite <- !Z.mul_assoc. f_equal.
  replace (2 ^ (e1 + 2200) * (m2 * 2 ^ (e2 + 2200)))
    with (m2 * (2 ^ (e1 + 2200) * 2 ^ (e2 + 2200))) by ring.
  f_equal. rewrite <- !Z.pow_add_r by lia. f_equal. lia.
Qed.

(** The canonical exponent of a binary64 number. *)
Lemma canonical_exponent m e :
  canonical_mantissa 53 1024 m e = true ->
  e = Z.max (Zpos (digits2_pos m) + e - 53) (-1074).
Proof.
  unfold canonical_mantissa. intros H. apply Z.eqb_eq in H.
  rewrite fexp64 in H. lia.
Qed.

(** On canonical numbers the comparison of binary64 follows the
    magnitudes. *)
Lemma within_SFleb f b eb :
  SpecFloat.valid_binary 53 1024 f = true -> canonical_mantissa 53 1024 b eb = true ->
  within b eb f ->
  SFleb f (S754_finite false b eb) = true /\
  SFleb (S754_finite true b eb) f = true.
Proof.
  intros Hv Hcan Hw. destruct f as [s|s| |s m e]; cbn [within] in Hw.
  - destruct s; split; reflexivity.
  - destruct Hw.
  - destruct Hw.
  - cbn [SpecFloat.valid_binary] in Hv. unfold bounded in Hv.
    apply andb_prop in Hv as [Hc _].
    apply canonical_exponent in Hc. apply canonical_exponent in Hcan.
    pose proof (scaled_le_digits (Zpos m) e (Zpos b) eb
                  ltac:(lia) ltac:(lia) ltac:(lia) ltac:(lia) Hw) as Hd.
    cbn [Zdigits2] in Hd.
    assert (Hcmp : match e ?= eb with
                   | Eq => Pos.compare_cont Eq m b <> Gt
                   | Lt => True
                   | Gt => False
                   end).
    { destruct (Z.compare_spec e eb) as [->|Hlt|Hgt]; [|exact I|lia].
      apply scaled_le_inv in Hw; [|lia]. fold (Pos.compare m b).
      rewrite Pos.compare_gt_iff. lia. }
    unfold SFleb, SFcompare. destruct s.
    + split; [reflexivity|].
      rewrite Z.compare_antisym. destruct (e ?= eb); cbn [CompOpp]; try tauto.
      fold (Pos.compare b m). rewrite Pos.compare_antisym. fold (Pos.compare m b) in Hcmp.
      destruct (m ?= b)%positive; cbn; try reflexivity. congruence.
    + split; [|reflexivity].
      destruct (e ?= eb); try tauto. fold (Pos.compare m b) in *.
      destruct (m ?= b)%positive; try reflexivity. congruence.
Qed.

(** ... and the magnitudes follow the comparison. *)
Lemma SFcompare_scaled m1 e1 m2 e2 :
  canonical_mantissa 53 1024 m1 e1 = true ->
  canonical_mantissa 53 1024 m2 e2 = true ->
  match SFcompare (S754_finite false m1 e1) (S754_finite false m2 e2) with
  | Some Lt => scaled (Zpos m1) e1 < scaled (Zpos m2) e2
  | Some Eq => scaled (Zpos m1) e1 = scaled (Zpos m2) e2
  | _ => True
  end.
Proof.
  intros Hc1 Hc2.
  apply canonical_exponent in Hc1. apply canonical_exponent in Hc2.
  cbn [SFcompare]. destruct (Z.compare_spec e1 e2) as [->|Hlt|Hgt]; [| |exact I].
  - fold (Pos.compare m1 m2). destruct (Pos.compare_spec m1 m2) as [->|H|H].
    + reflexivity.
    + unfold scaled. apply Z.mul_lt_mono_pos_r; [apply Z.pow_pos_nonneg|]; lia.
    + exact I.
  - pose proof (digits2_bounds m1) as [_ Hm]. pose proof (digits2_bounds m2) as [Hbl _].
    replace (Zpos (digits2_pos m2)) with 53 in Hbl by lia.
    change (2 ^ (53 - 1)) with (2 ^ 52) in Hbl.
    apply Z.lt_le_trans with (scaled (2 ^ 52) e2); [|apply scaled_le_mono; lia].
    rewrite <- (scaled_align (Zpos m1) e1 (-1074)), <- (scaled_align (2 ^ 52) e2 (-1074)) by lia.
    unfold scaled. apply Z.mul_lt_mono_pos_r; [apply Z.pow_pos_nonneg; lia|].
    rewrite <- Z.pow_add_r by lia.
    apply Z.lt_le_trans with (2 ^ Zpos (digits2_pos m1) * 2 ^ (e1 - -1074)).
    + apply Z.mul_lt_mono_pos_r; [apply Z.pow_pos_nonneg|]; lia.
    + rewrite <- Z.pow_add_r by lia. apply Z.pow_le_mono_r; lia.
Qed.

(** A canonical number between [0] and [b * 2^eb] is zero, or positive
    with a magnitude up to [b * 2^eb]. *)
Lemma SFleb_within f b eb :
  SpecFloat.valid_binary 53 1024 f = true -> canonical_mantissa 53 1024 b eb = true ->
  SFleb (S754_zero false) f = true -> SFleb f (S754_finite false b eb) = true ->
  (exists s, f = S754_zero s) \/
  (exists m e, f = S754_finite false m e /\ -1074 <= e /\
               scaled (Zpos m) e <= scaled (Zpos b) eb).
Proof.
  intros Hv Hcan H0 H1. destruct f as [s|s| |s m e].
  - left. exists s. reflexivity.
  - destruct s; [discriminate H0|discriminate H1].
  - discriminate H0.
  - right. destruct s; [discriminate H0|]. exists m, e. split; [reflexivity|].
    cbn [SpecFloat.valid_binary] in Hv. unfold bounded in Hv. apply andb_prop in Hv as [Hc _].
    pose proof (SFcompare_scaled m e b eb Hc Hcan) as Hcmp.
    apply canonical_exponent in Hc. split; [lia|].
    unfold SFleb in H1.
    destruct (SFcompare (S754_finite false m e) (S754_finite false b eb)) as [[| |]|];
      try discriminate H1; lia.
Qed.

End RangeOfOperations.
Section TargetRange.
Import Three.

Lemma Prim2SF_half : Prim2SF 0.5 = S754_finite false 4503599627370496 (-53).
Proof. vm_compute. reflexivity. Qed.

Lemma Prim2SF_one : Prim2SF 1 = S754_finite false 4503599627370496 (-52).
Proof. vm_compute. reflexivity. Qed.

Lemma Prim2SF_zero : Prim2SF 0 = S754_zero false.
Proof. vm_compute. reflexivity. Qed.

Lemma scaled_one_half :
  (scaled 4503599627370496 (-52) = 2 * scaled 4503599627370496 (-53))%Z.
Proof. vm_compute. reflexivity. Qed.

(** A coordinate between 0 and 1 lies within 0.5 of 0.5, also after the
    subtraction has been rounded. *)
Lemma half_span u :
  (0 <=? u)%float = true -> (u <=? 1)%float = true ->
  within 4503599627370496 (-53) (Prim2SF (u - 0.5)) /\
  within 4503599627370496 (-53) (Prim2SF (0.5 - u)).
Proof.
  intros H0 H1. rewrite leb_spec in H0, H1.
  rewrite Prim2SF_zero in H0. rewrite Prim2SF_one in H1.
  rewrite !FloatAxioms.sub_spec, Prim2SF_half.
  destruct (SFleb_within (Prim2SF u) 4503599627370496 (-52)
              (Prim2SF_valid u) eq_refl H0 H1)
    as [[s ->]|(m & e & -> & He & Hle)].
  - split.
    + cbn. lia.
    + cbn. lia.
  - rewrite scaled_one_half in Hle.
    assert (Hpos : (0 < scaled (Zpos m) e)%Z).
    { unfold scaled. apply Z.mul_pos_pos; [lia|]. apply Z.pow_pos_nonneg; lia. }
    split; apply SFsub_within; try lia; try reflexivity.
Qed.

(** Scaling by a finite gain carries the bound along. *)
Lemma gain_within d gain mg eg b eb :
  within 4503599627370496 (-53) (Prim2SF d) ->
  Prim2SF gain = S754_finite false mg eg ->
  (-1074 <= eg)%Z -> (eg - 53 <= eb)%Z ->
  canonical_mantissa 53 1024 b eb = true -> (eb <= 971)%Z ->
  (scaled 4503599627370496 (-53) * scaled (Zpos mg) eg
   = scaled (Zpos b) eb * 2 ^ 2200)%Z ->
  within b eb (Prim2SF (d * gain)).
Proof.
  intros Hd Hg Heg Hegb Hcan Hemax Hprod.
  rewrite FloatAxioms.mul_spec, Hg.
  pose proof (Prim2SF_valid d) as Hv.
  destruct (Prim2SF d) as [s|s| |s m e]; cbn [within] in Hd.
  - exact I.
  - destruct Hd.
  - destruct Hd.
  - cbn [SpecFloat.valid_binary] in Hv. unfold bounded in Hv.
    apply andb_prop in Hv as [Hc _]. apply canonical_exponent in Hc.
    pose proof (scaled_le_digits (Zpos m) e 4503599627370496 (-53)
                  ltac:(lia) ltac:(lia) ltac:(lia) ltac:(lia) Hd) as Hdig.
    cbn [Zdigits2] in Hdig. change (Zpos (digits2_pos 4503599627370496)) with 53%Z in Hdig.
    cbn [SF64mul SFmul]. apply binary_round_aux_within'; try assumption; [lia|].
    rewrite Pos2Z.inj_mul.
    assert (Hp : (0 < 2 ^ 2200)%Z) by (apply Z.pow_pos_nonneg; lia).
    apply (Z.mul_le_mono_pos_r _ _ (2 ^ 2200)%Z Hp).
    rewrite scaled_mul by lia. rewrite <- Hprod.
    apply Z.mul_le_mono_nonneg_r; [|exact Hd].
    unfold scaled. apply Z.mul_nonneg_nonneg; [lia|]. apply Z.pow_nonneg. lia.
Qed.

(** A number within [b * 2^eb] of zero compares inside [[-B, B]]. *)
Lemma within_leb t lo hi b eb :
  within b eb (Prim2SF t) ->
  Prim2SF lo = S754_finite true b eb -> Prim2SF hi = S754_finite false b eb ->
  canonical_mantissa 53 1024 b eb = true ->
  (lo <=? t)%float = true /\ (t <=? hi)%float = true.
Proof.
  intros Hw Hlo Hhi Hcan. rewrite !leb_spec, Hlo, Hhi.
  destruct (within_SFleb (Prim2SF t) b eb (Prim2SF_valid t) Hcan Hw) as [H1 H2].
  split; assumption.
Qed.

(** The scene-space point of a hand inside the camera image. *)
Lemma scene_point_in_box x y :
  (0 <=? x)%float = true -> (x <=? 1)%float = true ->
  (0 <=? y)%float = true -> (y <=? 1)%float = true ->
  in_box (scene_point x y).
Proof.
  intros Hx0 Hx1 Hy0 Hy1. unfold in_box, scene_point. cbn [Three.x Three.y Three.z].
  destruct (half_span x Hx0 Hx1) as [Hx _].
  destruct (half_span y Hy0 Hy1) as [_ Hy].
  assert (Hgx : within 7036874417766400 (-48) (Prim2SF ((x - 0.5) * 50))).
  { apply (gain_within _ 50 7036874417766400 (-47)); try assumption;
      try (vm_compute; reflexivity); lia. }
  assert (Hgy : within 5629499534213120 (-48) (Prim2SF ((0.5 - y) * 40))).
  { apply (gain_within _ 40 5629499534213120 (-47)); try assumption;
      try (vm_compute; reflexivity); lia. }
  destruct (within_leb _ (-25) 25 _ _ Hgx) as [H1 H2];
    try (vm_compute; reflexivity).
  destruct (within_leb _ (-20) 20 _ _ Hgy) as [H3 H4];
    try (vm_compute; reflexivity).
  split; [exact H1|]. split; [exact H2|]. split; [exact H3|]. split; [exact H4|].
  right. reflexivity.
Qed.

End TargetRange.

Section TargetInBox.
Context {M : JsMath}.
Import Three.



End TargetInBox.

Section Division.
Local Open Scope Z_scope.

Lemma scaled_bounds m e :
  0 < m -> -2200 <= e ->
  2 ^ (Zdigits2 m - 1 + (e + 2200)) <= scaled m e < 2 ^ (Zdigits2 m + (e + 2200)).
Proof.
  intros Hm He. pose proof (Zdigits2_bounds m Hm) as [Hl Hu].
  pose proof (Zdigits2_pos m Hm).
  assert (Hp : 0 < 2 ^ (e + 2200)) by (apply Z.pow_pos_nonneg; lia).
  rewrite (Z.pow_add_r 2 (Zdigits2 m - 1)), (Z.pow_add_r 2 (Zdigits2 m)) by lia.
  unfold scaled. split.
  - apply Z.mul_le_mono_nonneg_r; lia.
  - apply Z.mul_lt_mono_pos_r; lia.
Qed.

Lemma new_location_exact nb r :
  new_location nb r <> loc_Exact -> r <> 0.
Proof.
  unfold new_location, new_location_even, new_location_odd.
  intros H ->. destruct (Z.even nb); cbn in H; congruence.
Qed.

(** The quotient of two binary64 numbers whose exact quotient lies under
    [b * 2^eb] is rounded to zero or a number under [b * 2^eb]. *)
Lemma SFdiv_within sx m1 e1 sy m2 e2 b eb :
  -1074 <= e1 <= 971 -> -1074 <= e2 <= 971 ->
  canonical_mantissa 53 1024 b eb = true -> eb <= 971 ->
  scaled (Zpos m1) e1 * 2 ^ 2200 <= scaled (Zpos b) eb * scaled (Zpos m2) e2 ->
  within b eb (SFdiv 53 1024 (S754_finite sx m1 e1) (S754_finite sy m2 e2)).
Proof.
  intros He1 He2 Hcan Hemax Hle. cbn [SFdiv]. unfold SFdiv_core_binary.
  cbn [Zdigits2]. rewrite fexp64.
  set (d1 := Zpos (digits2_pos m1)). set (d2 := Zpos (digits2_pos m2)).
  set (e' := Z.min (Z.max (d1 + e1 - (d2 + e2) - 53) (-1074)) (e1 - e2)).
  pose proof (canonical_exponent b eb Hcan) as Heb.
  set (db := Zpos (digits2_pos b)) in *.
  pose proof (scaled_bounds (Zpos m1) e1 ltac:(lia) ltac:(lia)) as [Hl1 _].
  pose proof (scaled_bounds (Zpos m2) e2 ltac:(lia) ltac:(lia)) as [H2l Hu2].
  pose proof (scaled_bounds (Zpos b) eb ltac:(lia) ltac:(lia)) as [Hbl Hub].
  cbn [Zdigits2] in Hl1, H2l, Hu2, Hbl, Hub. fold d1 in Hl1. fold d2 in H2l, Hu2.
  fold db in Hbl, Hub.
  assert (Hdig : d1 + e1 - (d2 + e2) <= db + eb).
  { assert (Hp : 0 < 2 ^ 2200) by (apply Z.pow_pos_nonneg; lia).
    assert (H0b : 0 < 2 ^ (db - 1 + (eb + 2200))) by (apply Z.pow_pos_nonneg; lia).
    assert (H02 : 0 < 2 ^ (d2 - 1 + (e2 + 2200))) by (apply Z.pow_pos_nonneg; lia).
    assert (Hlt : 2 ^ (d1 - 1 + (e1 + 2200) + 2200)
                  < 2 ^ (db + (eb + 2200) + (d2 + (e2 + 2200)))).
    { rewrite (Z.pow_add_r 2 (d1 - 1 + (e1 + 2200))),
        (Z.pow_add_r 2 (db + (eb + 2200))) by lia.
      apply Z.le_lt_trans with (scaled (Zpos m1) e1 * 2 ^ 2200).
      - apply Z.mul_le_mono_nonneg_r; lia.
      - apply Z.le_lt_trans with (scaled (Zpos b) eb * scaled (Zpos m2) e2); [exact Hle|].
        apply Z.mul_lt_mono_nonneg; lia. }
    apply Z.pow_lt_mono_r_iff in Hlt; lia. }
  assert (He' : -2200 <= e' <= eb /\ e' <= e1 - e2) by lia.
  set (sh := e1 - e2 - e').
  assert (Hm' : match sh with
                | Z0 => Zpos m1
                | Zpos _ => Z.shiftl (Zpos m1) sh
                | Zneg _ => 0
                end = Zpos m1 * 2 ^ sh).
  { destruct sh as [|p|p] eqn:Es; [cbn; lia| |lia].
    rewrite Z.shiftl_mul_pow2 by lia. reflexivity. }
  rewrite Hm'.
  pose proof (Z_div_mod (Zpos m1 * 2 ^ sh) (Zpos m2) eq_refl) as Hdm.
  destruct (Z.div_eucl (Zpos m1 * 2 ^ sh) (Zpos m2)) as [q r].
  destruct Hdm as [Hdm Hr].
  assert (Hsh : 0 < 2 ^ sh) by (apply Z.pow_pos_nonneg; lia).
  assert (Hq : 0 <= q) by nia.
  (* the exact quotient against the bound, on the scale of [e'] *)
  assert (Hkey : (Zpos m2 * q + r) * 2 ^ (e' + 2200) <= scaled (Zpos b) eb * Zpos m2).
  { rewrite <- Hdm.
    assert (Hp2 : 0 < 2 ^ (e2 + 2200)) by (apply Z.pow_pos_nonneg; lia).
    apply (Z.mul_le_mono_pos_r _ _ (2 ^ (e2 + 2200)) Hp2).
    replace (scaled (Zpos b) eb * Zpos m2 * 2 ^ (e2 + 2200))
      with (scaled (Zpos b) eb * scaled (Zpos m2) e2) by (unfold scaled; ring).
    replace (Zpos m1 * 2 ^ sh * 2 ^ (e' + 2200) * 2 ^ (e2 + 2200))
      with (scaled (Zpos m1) e1 * 2 ^ 2200); [exact Hle|].
    unfold scaled. rewrite <- !Z.mul_assoc. f_equal.
    rewrite <- !Z.pow_add_r by lia. f_equal. lia. }
  assert (Hpe : 0 < 2 ^ (e' + 2200)) by (apply Z.pow_pos_nonneg; lia).
  apply binary_round_aux_within; try assumption; try lia.
  - unfold scaled in *. nia.
  - intros Hloc. apply new_location_exact in Hloc. unfold scaled in *. nia.
Qed.

(** The sign of a rounded number is the sign handed in. *)
Lemma binary_round_aux_sign s mx ex lx :
  match binary_round_aux 53 1024 s mx ex lx with
  | S754_zero s' | S754_infinity s' | S754_finite s' _ _ => s' = s
  | S754_nan => True
  end.
Proof.
  unfold binary_round_aux.
  destruct (shr_fexp 53 1024 mx ex lx) as [mrs' e'].
  destruct (shr_fexp 53 1024 _ e' loc_Exact) as [mrs'' e''].
  destruct (shr_m mrs''); try reflexivity.
  destruct (e'' <=? 1024 - 53); reflexivity.
Qed.

End Division.

Section OpacityRamp.
Local Open Scope Z_scope.

Lemma Prim2SF_two : Prim2SF 2 = S754_finite false 4503599627370496 (-51).
Proof. vm_compute. reflexivity. Qed.

(** The value that the ramp writes is below 1: half of a binary64 number
    below 2 is at most [1 - 2^-53]. *)
Lemma ramp_below_one age :
  (age <? 2)%float = true -> (1 <=? age / 2)%float = false.
Proof.
  intros Hlt. rewrite ltb_spec, Prim2SF_two in Hlt.
  rewrite leb_spec, Prim2SF_one.
  pose proof (Prim2SF_valid (age / 2)) as Hvq.
  rewrite FloatAxioms.div_spec, Prim2SF_two in Hvq |- *.
  change (SF64div ?a ?b) with (SFdiv 53 1024 a b) in *.
  pose proof (Prim2SF_valid age) as Hv.
  destruct (Prim2SF age) as [s|s| |s m e].
  - reflexivity.
  - destruct s; [reflexivity|discriminate Hlt].
  - discriminate Hlt.
  - destruct s.
    + cbn [SFdiv]. destruct (SFdiv_core_binary _ _ _ _ _ _) as [[mz ez] lz].
      pose proof (binary_round_aux_sign (xorb true false) mz ez lz) as Hs.
      destruct (binary_round_aux 53 1024 (xorb true false) mz ez lz);
        cbn in Hs; subst; reflexivity.
    + cbn [SpecFloat.valid_binary] in Hv. unfold bounded in Hv.
      apply andb_prop in Hv as [Hc Hemax]. apply Z.leb_le in Hemax.
      pose proof (SFcompare_scaled m e 4503599627370496 (-51) Hc eq_refl) as Hcmp.
      unfold SFltb in Hlt.
      destruct (SFcompare (S754_finite false m e) (S754_finite false 4503599627370496 (-51)))
        as [[| |]|]; try discriminate Hlt. clear Hlt.
      pose proof (canonical_exponent m e Hc) as He.
      assert (Hd : (Zdigits2 (Zpos m) + e <= 53 + -51)%Z).
      { apply (scaled_le_digits (Zpos m) e 4503599627370496 (-51)); lia. }
      cbn [Zdigits2] in Hd.
      pose proof (digits2_bounds m) as [Hml Hm].
      assert (He52 : e <= -52).
      { destruct (Z.eq_dec e (-51)) as [->|Hne]; [|lia].
        replace (Zpos (digits2_pos m)) with 53 in Hml by lia.
        change (2 ^ (53 - 1)) with 4503599627370496 in Hml.
        assert (scaled 4503599627370496 (-51) <= scaled (Zpos m) (-51))
          by (apply scaled_le_mono; lia).
        lia. }
      assert (Hm53 : (Zpos m <= 9007199254740991)%Z).
      { assert ((2 ^ Zpos (digits2_pos m) <= 2 ^ 53)%Z)
          by (apply Z.pow_le_mono_r; lia).
        change (2 ^ 53)%Z with 9007199254740992%Z in *. lia. }
      assert (Hbound : (scaled (Zpos m) e <= scaled 9007199254740991 (-52))%Z).
      { destruct (Z.eq_dec e (-52)) as [->|Hne].
        - apply scaled_le_mono; lia.
        - apply Z.le_trans with (scaled 9007199254740991 e);
            [apply scaled_le_mono; lia|].
          rewrite <- (scaled_align 9007199254740991 e (-1074)),
            <- (scaled_align 9007199254740991 (-52) (-1074)) by lia.
          apply scaled_le_mono; [lia|].
          apply Z.mul_le_mono_nonneg_l; [lia|]. apply Z.pow_le_mono_r; lia. }
      assert (Hw : within 9007199254740991 (-53)
                     (SFdiv 53 1024 (S754_finite false m e)
                        (S754_finite false 4503599627370496 (-51)))).
      { apply SFdiv_within; try lia; try reflexivity.
        assert (Hp : (0 < 2 ^ 2200)%Z) by (apply Z.pow_pos_nonneg; lia).
        apply Z.le_trans with (scaled 9007199254740991 (-52) * 2 ^ 2200)%Z.
        - apply Z.mul_le_mono_nonneg_r; lia.
        - vm_compute. discriminate. }
      destruct (SFdiv 53 1024 (S754_finite false m e)
                  (S754_finite false 4503599627370496 (-51))) as [s'|s'| |s' m' e'];
        cbn [within] in Hw; [reflexivity|destruct Hw|destruct Hw|].
      destruct s'; [reflexivity|].
      cbn [SpecFloat.valid_binary] in Hvq. unfold bounded in Hvq.
      apply andb_prop in Hvq as [Hc' _].
      pose proof (SFcompare_scaled 4503599627370496 (-52) m' e' eq_refl Hc') as Hcmp'.
      assert (Hone : (scaled 9007199254740991 (-53) < scaled 4503599627370496 (-52))%Z)
        by (vm_compute; reflexivity).
      unfold SFleb.
      destruct (SFcompare (S754_finite false 4503599627370496 (-52))
                  (S754_finite false m' e')) as [[| |]|]; try reflexivity; lia.
Qed.

End OpacityRamp.

Section NeverOpaque.
Context {M : JsMath}.
Import Three.
Local Open Scope float_scope.

Lemma memory_frame_below_one elapsed mesh :
  (1 <=? mat_opacity mesh) = false ->
  (1 <=? mat_opacity (memory_frame elapsed mesh)) = false.
Proof.
  intros H. unfold memory_frame. cbv zeta. cbn [mat_opacity].
  destruct (elapsed - or_else (birth mesh) 0 <? 2) eqn:Hage; [|exact H].
  apply ramp_below_one, Hage.
Qed.

Lemma step_below_one e s :
  Forall (fun mesh => (1 <=? mat_opacity mesh) = false) (memoriesGroup s) ->
  Forall (fun mesh => (1 <=? mat_opacity mesh) = false) (memoriesGroup (step s e)).
Proof.
  intros H. destruct e as [x y p|r1 r2 r3 now|elapsed]; cbn [step].
  - exact H.
  - cbn [addMemory_loaded memoriesGroup]. apply Forall_app. split; [exact H|].
    constructor; [reflexivity|constructor].
  - cbn [animate memoriesGroup]. apply Forall_fmap.
    eapply Forall_impl; [exact H|]. intros mesh Hm.
    apply memory_frame_below_one, Hm.
Qed.

(** X18: no photo ever becomes opaque.  In every scene that the callbacks
    reach, the opacity of every photo is below 1: the ramp of [animate]
    writes half of an age below 2, at most [1 - 2^-53], and nothing else
    writes the opacity. *)
Theorem photos_never_opaque rand es :
  Forall (fun mesh => (1 <=? mat_opacity mesh) = false)
         (memoriesGroup (run es (initial_scene rand))).
Proof.
  assert (H : forall s,
             Forall (fun mesh => (1 <=? mat_opacity mesh) = false) (memoriesGroup s) ->
             Forall (fun mesh => (1 <=? mat_opacity mesh) = false)
                    (memoriesGroup (run es s))).
  { induction es as [|e es IH]; intros s Hs; [exact Hs|].
    rewrite run_cons. apply IH, step_below_one, Hs. }
  apply H. constructor.
Qed.

End NeverOpaque.

(** ** Sums, differences and the smoothing step *)

Section SignedValues.
Local Open Scope Z_scope.

Lemma within_sval b eb f :
  within b eb f <-> finite_or_zero f /\ Z.abs (sval f) <= scaled (Zpos b) eb.
Proof.
  assert (H0 : 0 <= scaled (Zpos b) eb).
  { unfold scaled. apply Z.mul_nonneg_nonneg; [lia|]. apply Z.pow_nonneg. lia. }
  destruct f as [s|s| |s m e]; cbn [within finite_or_zero sval].
  - change (Z.abs 0) with 0. tauto.
  - tauto.
  - tauto.
  - assert (0 <= scaled (Zpos m) e).
    { unfold scaled. apply Z.mul_nonneg_nonneg; [lia|]. apply Z.pow_nonneg. lia. }
    destruct s; cbn [cond_Zopp]; split.
    + intros Hw. split; [exact I|lia].
    + intros [_ Hw]. lia.
    + intros Hw. split; [exact I|lia].
    + intros [_ Hw]. lia.
Qed.

Lemma scaled_nonneg m e : 0 <= m -> 0 <= scaled m e.
Proof.
  intros H. unfold scaled. apply Z.mul_nonneg_nonneg; [lia|]. apply Z.pow_nonneg. lia.
Qed.

Lemma scaled_pos m e : 0 < m -> -2200 <= e -> 0 < scaled m e.
Proof.
  intros H He. unfold scaled. apply Z.mul_pos_pos; [lia|]. apply Z.pow_pos_nonneg; lia.
Qed.

Lemma scaled_add m1 m2 e : scaled (m1 + m2) e = scaled m1 e + scaled m2 e.
Proof. unfold scaled. ring. Qed.

Lemma scaled_cond_Zopp s m e : scaled (cond_Zopp s m) e = cond_Zopp s (scaled m e).
Proof. destruct s; cbn [cond_Zopp]; [apply scaled_opp|reflexivity]. Qed.

(** Rounding a sum of binary64 numbers at most doubles it, and is exact
    when the result has the least exponent. *)
Lemma binary_round_aux_double s mx ex :
  0 < mx -> -1074 <= ex ->
  match binary_round_aux 53 1024 s mx ex loc_Exact with
  | S754_finite _ m e =>
      scaled (Zpos m) e <= 2 * scaled mx ex /\ ex <= e /\ (e = ex -> Zpos m = mx)
  | _ => True
  end.
Proof.
  intros Hmx Hex. unfold binary_round_aux.
  assert (H1 : exists m2 e',
             (let '(mrs', e') := shr_fexp 53 1024 mx ex loc_Exact in
              (round_nearest_even (shr_m mrs') (loc_of_shr_record mrs'), e'))
             = (m2, e') /\
             0 < m2 /\ ex <= e' /\ scaled m2 e' <= 2 * scaled mx ex /\
             (e' = ex -> m2 = mx)).
  { unfold shr_fexp, shr. cbn [shr_record_of_loc]. rewrite fexp64.
    pose proof (Zdigits2_bounds mx Hmx) as [Hdl _].
    pose proof (scaled_pos mx ex Hmx ltac:(lia)) as Hsp.
    destruct (Z.max (Zdigits2 mx + ex - 53) (-1074) - ex) as [|p|p] eqn:Hn.
    - exists mx, ex. cbn. repeat split; lia.
    - eexists _, (ex + Zpos p). split; [reflexivity|].
      rewrite shr_pos_m by (cbn; lia). cbn [shr_m].
      assert (Hp : 0 < 2 ^ Zpos p) by (apply Z.pow_pos_nonneg; lia).
      assert (Hm1 : 1 <= mx / 2 ^ Zpos p).
      { apply Z.div_le_lower_bound; [lia|].
        apply Z.le_trans with (2 ^ (Zdigits2 mx - 1)); [|exact Hdl].
        rewrite Z.mul_1_r. apply Z.pow_le_mono_r; lia. }
      pose proof (Z.mul_div_le mx (2 ^ Zpos p) Hp) as Hfl.
      assert (Hs1 : scaled (mx / 2 ^ Zpos p) (ex + Zpos p) <= scaled mx ex).
      { rewrite <- (scaled_align (mx / 2 ^ Zpos p) (ex + Zpos p) ex) by lia.
        replace (ex + Zpos p - ex) with (Zpos p) by lia.
        apply scaled_le_mono; lia. }
      assert (Hs2 : scaled (mx / 2 ^ Zpos p + 1) (ex + Zpos p)
                    <= 2 * scaled (mx / 2 ^ Zpos p) (ex + Zpos p)).
      { replace (2 * scaled (mx / 2 ^ Zpos p) (ex + Zpos p))
          with (scaled (2 * (mx / 2 ^ Zpos p)) (ex + Zpos p)) by (unfold scaled; ring).
        apply scaled_le_mono; lia. }
      pose proof (scaled_nonneg (mx / 2 ^ Zpos p) (ex + Zpos p) ltac:(lia)).
      destruct (round_nearest_even_cases (mx / 2 ^ Zpos p)
                  (loc_of_shr_record
                     (SpecFloat.iter_pos shr_1 p (Build_shr_record mx false false))))
        as [-> | ->]; repeat split; lia.
    - exists mx, ex. cbn. repeat split; lia. }
  destruct H1 as (m2 & e' & Hshr & Hm2 & He' & Hle2 & Hex2).
  destruct (shr_fexp 53 1024 mx ex loc_Exact) as [mrs' e1].
  injection Hshr as -> ->.
  pose proof (shr_fexp_m 53 1024 m2 e' loc_Exact ltac:(lia)) as Hs2. cbv zeta in Hs2.
  rewrite fexp64 in Hs2.
  destruct (shr_fexp 53 1024 m2 e' loc_Exact) as [mrs'' e''].
  destruct Hs2 as [Hpos Hneg].
  assert (H3 : scaled (shr_m mrs'') e'' <= scaled m2 e' /\ e' <= e'' /\
               (e'' = e' -> shr_m mrs'' = m2)).
  { destruct (Z_lt_le_dec 0 (Z.max (Zdigits2 m2 + e' - 53) (-1074) - e')) as [Hn|Hn].
    - destruct (Hpos Hn) as [-> ->].
      set (n := Z.max (Zdigits2 m2 + e' - 53) (-1074) - e') in *.
      assert (Hpn : 0 < 2 ^ n) by (apply Z.pow_pos_nonneg; lia).
      split; [|split; [lia|intros; lia]].
      rewrite <- (scaled_align (m2 / 2 ^ n) (e' + n) e') by lia.
      replace (e' + n - e') with n by lia.
      apply scaled_le_mono; [lia|].
      rewrite Z.mul_comm. apply Z.mul_div_le. exact Hpn.
    - destruct (Hneg Hn) as [-> ->]. split; [lia|]. split; [lia|reflexivity]. }
  destruct H3 as (Hle3 & He'' & Hex3).
  destruct (shr_m mrs'') as [|m|m]; [exact I| |exact I].
  destruct (e'' <=? 1024 - 53); [|exact I].
  split; [lia|]. split; [lia|]. intros E. rewrite Hex3 by lia. apply Hex2. lia.
Qed.

Lemma binary_round_double s mx ex :
  -1074 <= ex ->
  match binary_round 53 1024 s mx ex with
  | S754_finite _ m e =>
      scaled (Zpos m) e <= 2 * scaled (Zpos mx) ex /\
      (e = -1074 -> scaled (Zpos m) e = scaled (Zpos mx) ex)
  | _ => True
  end.
Proof.
  intros Hex. unfold binary_round. rewrite fexp64. unfold shl_align.
  destruct (Z.max (Zpos (digits2_pos mx) + ex - 53) (-1074) - ex) as [|d|d] eqn:En.
  - pose proof (binary_round_aux_double s (Zpos mx) ex ltac:(lia) Hex) as H.
    destruct (binary_round_aux 53 1024 s (Zpos mx) ex loc_Exact); try exact I.
    destruct H as (H1 & H2 & H3). split; [exact H1|]. intros ->.
    rewrite H3 by lia. f_equal. lia.
  - pose proof (binary_round_aux_double s (Zpos mx) ex ltac:(lia) Hex) as H.
    destruct (binary_round_aux 53 1024 s (Zpos mx) ex loc_Exact); try exact I.
    destruct H as (H1 & H2 & H3). split; [exact H1|]. intros ->.
    rewrite H3 by lia. f_equal. lia.
  - set (ez := Z.max (Zpos (digits2_pos mx) + ex - 53) (-1074)) in *.
    assert (Hv : scaled (Zpos (Pos.iter xO mx d)) ez = scaled (Zpos mx) ex).
    { rewrite Pos_iter_xO_val. replace ez with (ex - Zpos d) by lia.
      apply scaled_shift; lia. }
    pose proof (binary_round_aux_double s (Zpos (Pos.iter xO mx d)) ez
                  ltac:(lia) ltac:(lia)) as H.
    destruct (binary_round_aux 53 1024 s (Zpos (Pos.iter xO mx d)) ez loc_Exact);
      try exact I.
    destruct H as (H1 & H2 & H3). rewrite Hv in H1. split; [exact H1|].
    intros ->. rewrite H3 by lia. replace ez with (-1074) in Hv by lia. exact Hv.
Qed.

Lemma binary_round_sign s mx ex :
  match binary_round 53 1024 s mx ex with
  | S754_zero s' | S754_infinity s' | S754_finite s' _ _ => s' = s
  | S754_nan => True
  end.
Proof.
  unfold binary_round. destruct (shl_align _ _ _) as [mz ez].
  apply binary_round_aux_sign.
Qed.

(** What [binary_normalize] makes of an exact sum [M * 2^ez]. *)
Lemma binary_normalize_spec M ez b eb :
  -1074 <= ez -> canonical_mantissa 53 1024 b eb = true -> eb <= 971 ->
  Z.abs (scaled M ez) <= scaled (Zpos b) eb ->
  let f := binary_normalize 53 1024 M ez false in
  within b eb f /\
  (0 <= M -> 0 <= sval f) /\ (M <= 0 -> sval f <= 0) /\
  Z.abs (sval f) <= 2 * Z.abs (scaled M ez) /\
  (forall s m, f = S754_finite s m (-1074) -> sval f = scaled M ez).
Proof.
  intros Hez Hcan Hemax Hle. cbv zeta.
  destruct M as [|m|m]; cbn [binary_normalize].
  - cbn. repeat split; try lia; try (intros; discriminate).
  - assert (Hw : within b eb (binary_round 53 1024 false m ez))
      by (apply binary_round_within; try assumption; lia).
    pose proof (binary_round_double false m ez Hez) as Hd.
    pose proof (binary_round_sign false m ez) as Hs.
    pose proof (scaled_pos (Zpos m) ez ltac:(lia) ltac:(lia)) as Hp.
    destruct (binary_round 53 1024 false m ez) as [s'|s'| |s' m' e'];
      cbn [within] in Hw; try (destruct Hw; fail).
    + cbn. repeat split; try lia; try (intros; discriminate).
    + subst s'. destruct Hd as [Hd1 Hd2]. cbn [sval cond_Zopp].
      pose proof (scaled_nonneg (Zpos m') e' ltac:(lia)).
      split; [exact Hw|]. split; [lia|]. split; [lia|]. split; [lia|].
      intros s m0 [= <- <- ->]. apply Hd2. reflexivity.
  - assert (Hw : within b eb (binary_round 53 1024 true m ez)).
    { apply binary_round_within; try assumption; [lia|].
      change (Zpos m) with (- Zneg m). rewrite scaled_opp. lia. }
    pose proof (binary_round_double true m ez Hez) as Hd.
    pose proof (binary_round_sign true m ez) as Hs.
    pose proof (scaled_pos (Zpos m) ez ltac:(lia) ltac:(lia)) as Hp.
    assert (Hneg : scaled (Zneg m) ez = - scaled (Zpos m) ez)
      by (change (Zneg m) with (- Zpos m); apply scaled_opp).
    destruct (binary_round 53 1024 true m ez) as [s'|s'| |s' m' e'];
      cbn [within] in Hw; try (destruct Hw; fail).
    + cbn. repeat split; try lia; try (intros; discriminate).
    + subst s'. destruct Hd as [Hd1 Hd2]. cbn [sval cond_Zopp].
      pose proof (scaled_nonneg (Zpos m') e' ltac:(lia)).
      split; [exact Hw|]. split; [lia|]. split; [lia|]. split; [lia|].
      intros s m0 [= <- <- ->]. rewrite Hd2 by reflexivity. lia.
Qed.

Lemma valid_exponent s m e :
  SpecFloat.valid_binary 53 1024 (S754_finite s m e) = true -> -1074 <= e <= 971.
Proof.
  cbn [SpecFloat.valid_binary]. unfold bounded. intros H.
  apply andb_prop in H as [Hc He]. apply Z.leb_le in He.
  apply canonical_exponent in Hc. lia.
Qed.

(** The sum of two finite binary64 numbers whose exact sum lies within
    [b * 2^eb]. *)
Lemma SFadd_spec x y b eb :
  SpecFloat.valid_binary 53 1024 x = true -> SpecFloat.valid_binary 53 1024 y = true ->
  finite_or_zero x -> finite_or_zero y ->
  canonical_mantissa 53 1024 b eb = true -> eb <= 971 ->
  Z.abs (sval x + sval y) <= scaled (Zpos b) eb ->
  let f := SFadd 53 1024 x y in
  within b eb f /\
  (0 <= sval x + sval y -> 0 <= sval f) /\ (sval x + sval y <= 0 -> sval f <= 0) /\
  Z.abs (sval f) <= 2 * Z.abs (sval x + sval y) /\
  (forall s m, f = S754_finite s m (-1074) -> sval f = sval x + sval y).
Proof.
  intros Hvx Hvy Hfx Hfy Hcan Hemax Hle. cbv zeta.
  destruct x as [sx|sx| |sx mx ex]; try destruct Hfx;
    destruct y as [sy|sy| |sy my ey]; try destruct Hfy.
  - assert (E : sval (SFadd 53 1024 (S754_zero sx) (S754_zero sy)) = 0)
      by (destruct sx, sy; reflexivity).
    assert (W : within b eb (SFadd 53 1024 (S754_zero sx) (S754_zero sy)))
      by (destruct sx, sy; exact I).
    cbn [sval] in *. rewrite E.
    split; [exact W|]. split; [lia|]. split; [lia|]. split; [lia|].
    intros s m H. destruct sx, sy; discriminate H.
  - cbn [SFadd]. cbn [sval] in Hle |- *. rewrite !Z.add_0_l in *.
    split; [apply within_sval; split; [exact I|exact Hle]|].
    split; [lia|]. split; [lia|]. split; [lia|]. intros; reflexivity.
  - cbn [SFadd]. cbn [sval] in Hle |- *. rewrite !Z.add_0_r in *.
    split; [apply within_sval; split; [exact I|exact Hle]|].
    split; [lia|]. split; [lia|]. split; [lia|]. intros; reflexivity.
  - apply valid_exponent in Hvx, Hvy. cbn [SFadd].
    set (ez := Z.min ex ey).
    rewrite !shl_align_fst by lia.
    assert (Hv : scaled (cond_Zopp sx (Zpos mx * 2 ^ (ex - ez))
                         + cond_Zopp sy (Zpos my * 2 ^ (ey - ez))) ez
                 = sval (S754_finite sx mx ex) + sval (S754_finite sy my ey)).
    { rewrite scaled_add, !scaled_cond_Zopp, !scaled_align by lia. reflexivity. }
    set (M := cond_Zopp sx (Zpos mx * 2 ^ (ex - ez))
              + cond_Zopp sy (Zpos my * 2 ^ (ey - ez))) in *.
    rewrite <- Hv in Hle |- *.
    destruct (binary_normalize_spec M ez b eb ltac:(lia) Hcan Hemax Hle)
      as (H1 & H2 & H3 & H4 & H5).
    assert (Hp : 0 < 2 ^ (ez + 2200)) by (apply Z.pow_pos_nonneg; lia).
    split; [exact H1|]. split; [|split; [|split; [exact H4|exact H5]]].
    + intros H. apply H2. unfold scaled in H. nia.
    + intros H. apply H3. unfold scaled in H. nia.
Qed.

Lemma SFsub_as_add x y : SFsub 53 1024 x y = SFadd 53 1024 x (SFopp y).
Proof.
  destruct x as [sx|sx| |sx mx ex], y as [sy|sy| |sy my ey];
    try reflexivity;
    destruct sx, sy; reflexivity.
Qed.

Lemma sval_SFopp y : sval (SFopp y) = - sval y.
Proof.
  destruct y as [s|s| |s m e]; try reflexivity.
  cbn [SFopp sval]. destruct s; cbn [cond_Zopp negb]; lia.
Qed.

Lemma SFsub_spec x y b eb :
  SpecFloat.valid_binary 53 1024 x = true -> SpecFloat.valid_binary 53 1024 y = true ->
  finite_or_zero x -> finite_or_zero y ->
  canonical_mantissa 53 1024 b eb = true -> eb <= 971 ->
  Z.abs (sval x - sval y) <= scaled (Zpos b) eb ->
  let f := SFsub 53 1024 x y in
  within b eb f /\
  (0 <= sval x - sval y -> 0 <= sval f) /\ (sval x - sval y <= 0 -> sval f <= 0) /\
  Z.abs (sval f) <= 2 * Z.abs (sval x - sval y) /\
  (forall s m, f = S754_finite s m (-1074) -> sval f = sval x - sval y).
Proof.
  intros Hvx Hvy Hfx Hfy Hcan Hemax Hle. cbv zeta. rewrite SFsub_as_add.
  replace (sval x - sval y) with (sval x + sval (SFopp y)) in *
    by (rewrite sval_SFopp; lia).
  apply SFadd_spec; try assumption.
  - destruct y; assumption.
  - destruct y; assumption.
Qed.

End SignedValues.
Section SmoothingStep.
Local Open Scope Z_scope.

Lemma scaled_half_step m e : -2199 <= e -> 2 * scaled m (e - 1) = scaled m e.
Proof.
  intros He. unfold scaled. replace (e + 2200) with (Z.succ (e - 1 + 2200)) by lia.
  rewrite Z.pow_succ_r by lia. ring.
Qed.

(** A product with a gain of at most one half: it has the sign of the
    other factor, and at most half its magnitude, or the magnitude itself
    when that is a multiple of the least binary64 number. *)
Lemma SFmul_gain sd md ed ma ea :
  SpecFloat.valid_binary 53 1024 (S754_finite sd md ed) = true ->
  -1074 <= ea <= -1 ->
  scaled (Zpos ma) ea <= scaled 4503599627370496 (-53) ->
  let p := SFmul 53 1024 (S754_finite sd md ed) (S754_finite false ma ea) in
  finite_or_zero p /\
  (sd = false -> 0 <= sval p) /\ (sd = true -> sval p <= 0) /\
  Z.abs (sval p) <= scaled (Zpos md) ed /\
  (-1074 < ed -> 2 * Z.abs (sval p) <= scaled (Zpos md) ed).
Proof.
  intros Hv Hea Ha. cbv zeta. cbn [SFmul].
  pose proof (valid_exponent _ _ _ Hv) as Hed.
  cbn [SpecFloat.valid_binary] in Hv. unfold bounded in Hv.
  apply andb_prop in Hv as [Hc _].
  pose proof (canonical_exponent md ed Hc) as Hce.
  pose proof (scaled_pos (Zpos md) ed ltac:(lia) ltac:(lia)) as Hpd.
  assert (Hp : 0 < 2 ^ 2200) by (apply Z.pow_pos_nonneg; lia).
  assert (Hhalf : 2 * scaled 4503599627370496 (-53) = 2 ^ 2200)
    by (vm_compute; reflexivity).
  assert (Hprod : 2 * scaled (Zpos (md * ma)) (ed + ea) <= scaled (Zpos md) ed).
  { rewrite Pos2Z.inj_mul.
    apply (Z.mul_le_mono_pos_r _ _ (2 ^ 2200) Hp).
    rewrite <- Z.mul_assoc, scaled_mul by lia. nia. }
  pose proof (scaled_pos (Zpos (md * ma)) (ed + ea) ltac:(lia) ltac:(lia)) as Hpp.
  pose proof (binary_round_aux_sign (xorb sd false) (Zpos (md * ma)) (ed + ea) loc_Exact)
    as Hs.
  rewrite xorb_false_r in *.
  assert (Hw : within md ed
                 (binary_round_aux 53 1024 sd (Zpos (md * ma)) (ed + ea) loc_Exact)).
  { apply binary_round_aux_within'; try assumption; lia. }
  assert (Hw2 : -1074 < ed ->
                within md (ed - 1)
                  (binary_round_aux 53 1024 sd (Zpos (md * ma)) (ed + ea) loc_Exact)).
  { intros Hn. apply binary_round_aux_within'; try lia.
    - unfold canonical_mantissa. apply Z.eqb_eq. rewrite fexp64. lia.
    - rewrite <- (scaled_half_step (Zpos md) ed) in Hprod by lia. lia. }
  destruct (binary_round_aux 53 1024 sd (Zpos (md * ma)) (ed + ea) loc_Exact)
    as [s'|s'| |s' m' e']; cbn [within] in Hw; try (destruct Hw; fail).
  - cbn. repeat split; try lia; try (intros; lia).
  - subst s'. cbn [finite_or_zero sval].
    pose proof (scaled_nonneg (Zpos m') e' ltac:(lia)) as Hn'.
    split; [exact I|]. split; [intros ->; cbn; lia|]. split; [intros ->; cbn; lia|].
    split; [destruct sd; cbn; lia|].
    intros Hn. specialize (Hw2 Hn). cbn [within] in Hw2.
    rewrite <- (scaled_half_step (Zpos md) ed) by lia. destruct sd; cbn; lia.
Qed.

End SmoothingStep.

Section SmoothingStepFloat.
Local Open Scope Z_scope.

(** One smoothing step [this + (v - this) * alpha] with a gain of at most
    one half stays within every normal bound that holds both its
    arguments: the three roundings never carry the result past the
    farther of the two. *)
Lemma lerp_step_within (this v alpha : float) b eb ma ea :
  within b eb (Prim2SF this) -> within b eb (Prim2SF v) ->
  canonical_mantissa 53 1024 b eb = true -> eb <= 969 ->
  Prim2SF alpha = S754_finite false ma ea -> -1074 <= ea <= -1 ->
  scaled (Zpos ma) ea <= scaled 4503599627370496 (-53) ->
  within b eb (Prim2SF (this + (v - this) * alpha)) /\
  (0 <= sval (Prim2SF this) -> 0 <= sval (Prim2SF v) ->
   0 <= sval (Prim2SF (this + (v - this) * alpha))).
Proof.
  intros Hr HT Hcan Hemax Ealpha Hea Ha.
  pose proof (canonical_exponent b eb Hcan) as Hceb.
  apply within_sval in Hr as [Fr Br]. apply within_sval in HT as [FT BT].
  pose proof (Prim2SF_valid this) as Vr. pose proof (Prim2SF_valid v) as VT.
  pose proof (Prim2SF_valid (v - this)) as Vd.
  pose proof (Prim2SF_valid ((v - this) * alpha)) as Vp.
  rewrite FloatAxioms.add_spec.
  rewrite FloatAxioms.mul_spec, Ealpha in Vp |- *.
  rewrite FloatAxioms.sub_spec in Vd, Vp |- *.
  change (SF64sub ?a ?c) with (SFsub 53 1024 a c) in *.
  change (SF64mul ?a ?c) with (SFmul 53 1024 a c) in *.
  change (SF64add ?a ?c) with (SFadd 53 1024 a c).
  change (FloatAxioms.valid_binary ?a) with (SpecFloat.valid_binary 53 1024 a) in *.
  set (R := Prim2SF this) in *. set (Tf := Prim2SF v) in *.
  (* the difference: finite, of the sign of the exact difference, at most
     twice as large, and exact at the least exponent *)
  assert (Hbig : scaled (Zpos b) eb * 2 <= scaled 4503599627370496 (eb + 2)).
  { pose proof (digits2_bounds b) as [_ Hb].
    assert (2 ^ Zpos (digits2_pos b) <= 2 ^ 53) by (apply Z.pow_le_mono_r; lia).
    change (2 ^ 53) with (4503599627370496 * 2) in *.
    rewrite <- (scaled_align 4503599627370496 (eb + 2) eb) by lia.
    replace (eb + 2 - eb) with 2 by lia. change (2 ^ 2) with 4.
    unfold scaled. assert (0 < 2 ^ (eb + 2200)) by (apply Z.pow_pos_nonneg; lia).
    nia. }
  destruct (SFsub_spec Tf R 4503599627370496 (eb + 2) VT Vr FT Fr)
    as (Wd & Dpos & Dneg & Ddbl & Dex).
  { unfold canonical_mantissa. apply Z.eqb_eq. rewrite fexp64.
    change (Zpos (digits2_pos 4503599627370496)) with 53. lia. }
  { lia. }
  { lia. }
  apply within_sval in Wd as [Fd _].
  set (D := SFsub 53 1024 Tf R) in *.
  (* the product *)
  assert (HP : finite_or_zero (SFmul 53 1024 D (S754_finite false ma ea)) /\
               (0 <= sval Tf - sval R ->
                0 <= sval (SFmul 53 1024 D (S754_finite false ma ea))
                  <= sval Tf - sval R) /\
               (sval Tf - sval R <= 0 ->
                sval Tf - sval R
                  <= sval (SFmul 53 1024 D (S754_finite false ma ea)) <= 0)).
  { destruct D as [sd|sd| |sd md ed] eqn:ED; try (destruct Fd; fail).
    - cbn. repeat split; lia.
    - destruct (SFmul_gain sd md ed ma ea Vd Hea Ha) as (Fp & Ppos & Pneg & Pabs & Phalf).
      pose proof (valid_exponent _ _ _ Vd) as Hed.
      pose proof (scaled_pos (Zpos md) ed ltac:(lia) ltac:(lia)) as Hpd.
      split; [exact Fp|].
      assert (Hmag : Z.abs (sval (SFmul 53 1024 (S754_finite sd md ed)
                                    (S754_finite false ma ea)))
                     <= Z.abs (sval Tf - sval R)).
      { destruct (Z.eq_dec ed (-1074)) as [->|Hne].
        - rewrite <- (Dex sd md eq_refl). cbn [sval].
          destruct sd; cbn [cond_Zopp]; lia.
        - specialize (Phalf ltac:(lia)). cbn [sval] in Ddbl.
          destruct sd; cbn [cond_Zopp] in Ddbl; lia. }
      cbn [sval] in Dpos, Dneg.
      destruct sd; cbn [cond_Zopp] in Dpos, Dneg.
      + specialize (Pneg eq_refl). split; intros H; lia.
      + specialize (Ppos eq_refl). split; intros H; lia. }
  destruct HP as (Fp & Ppos & Pneg).
  (* the sum lies between the two arguments *)
  destruct (SFadd_spec R (SFmul 53 1024 D (S754_finite false ma ea)) b eb
              Vr Vp Fr Fp Hcan ltac:(lia)) as (Wc & Cpos & _); [lia|].
  split; [exact Wc|]. intros H0 H1. apply Cpos. lia.
Qed.

End SmoothingStepFloat.

Section SmoothingRange.
Local Open Scope Z_scope.

Lemma SFcompare_negative m1 e1 m2 e2 :
  SFcompare (S754_finite true m1 e1) (S754_finite true m2 e2)
  = SFcompare (S754_finite false m2 e2) (S754_finite false m1 e1).
Proof.
  cbn [SFcompare]. rewrite (Z.compare_antisym e1 e2).
  destruct (e1 ?= e2); cbn [CompOpp]; try reflexivity.
  fold (Pos.compare m1 m2). fold (Pos.compare m2 m1).
  rewrite (Pos.compare_antisym m1 m2). reflexivity.
Qed.

(** A number that compares inside [[-B, B]] is finite and within [B]. *)
Lemma leb_within t lo hi b eb :
  (lo <=? t)%float = true -> (t <=? hi)%float = true ->
  Prim2SF lo = S754_finite true b eb -> Prim2SF hi = S754_finite false b eb ->
  canonical_mantissa 53 1024 b eb = true ->
  within b eb (Prim2SF t).
Proof.
  intros Hlo Hhi Elo Ehi Hcan. rewrite leb_spec in Hlo, Hhi.
  rewrite Elo in Hlo. rewrite Ehi in Hhi.
  pose proof (Prim2SF_valid t) as Hv.
  destruct (Prim2SF t) as [s|s| |s m e]; cbn [within].
  - exact I.
  - destruct s; [discriminate Hlo|discriminate Hhi].
  - discriminate Hlo.
  - cbn [SpecFloat.valid_binary] in Hv. unfold bounded in Hv.
    apply andb_prop in Hv as [Hc _].
    pose proof (SFcompare_scaled m e b eb Hc Hcan) as Hcmp.
    destruct s.
    + unfold SFleb in Hlo. rewrite SFcompare_negative in Hlo.
      destruct (SFcompare (S754_finite false m e) (S754_finite false b eb)) as [[| |]|];
        try discriminate Hlo; lia.
    + unfold SFleb in Hhi.
      destruct (SFcompare (S754_finite false m e) (S754_finite false b eb)) as [[| |]|];
        try discriminate Hhi; lia.
Qed.

(** ... and one between [0] and [B] has a value that is not negative. *)
Lemma leb_nonneg t : (0 <=? t)%float = true -> 0 <= sval (Prim2SF t).
Proof.
  intros H. rewrite leb_spec, Prim2SF_zero in H.
  destruct (Prim2SF t) as [s|s| |s m e]; cbn [sval]; try lia.
  destruct s; [discriminate H|]. cbn [cond_Zopp]. apply scaled_nonneg. lia.
Qed.

Lemma nonneg_leb t :
  finite_or_zero (Prim2SF t) -> 0 <= sval (Prim2SF t) -> (0 <=? t)%float = true.
Proof.
  intros Hf H. rewrite leb_spec, Prim2SF_zero.
  pose proof (Prim2SF_valid t) as Hv.
  destruct (Prim2SF t) as [s|s| |s m e]; try destruct Hf.
  - reflexivity.
  - destruct s; [|reflexivity]. cbn [sval cond_Zopp] in H.
    apply valid_exponent in Hv.
    pose proof (scaled_pos (Zpos m) e ltac:(lia) ltac:(lia)).
    lia.
Qed.

(** One smoothing step between [-B] and [B], and between [0] and [B]. *)
Lemma flerp1_between lo hi b eb this v alpha ma ea :
  Prim2SF lo = S754_finite true b eb -> Prim2SF hi = S754_finite false b eb ->
  canonical_mantissa 53 1024 b eb = true -> eb <= 969 ->
  Prim2SF alpha = S754_finite false ma ea -> -1074 <= ea <= -1 ->
  scaled (Zpos ma) ea <= scaled 4503599627370496 (-53) ->
  between lo hi this -> between lo hi v ->
  between lo hi (Three.flerp1 this v alpha).
Proof.
  intros Elo Ehi Hcan Hemax Ealpha Hea Ha [H1 H2] [H3 H4].
  unfold Three.flerp1, lerp1.
  destruct (lerp_step_within this v alpha b eb ma ea) as [Hw _]; try assumption.
  - apply (leb_within _ lo hi); assumption.
  - apply (leb_within _ lo hi); assumption.
  - apply (within_leb _ lo hi b eb); assumption.
Qed.

Lemma flerp1_between_0 hi b eb this v alpha ma ea :
  Prim2SF hi = S754_finite false b eb ->
  canonical_mantissa 53 1024 b eb = true -> eb <= 969 ->
  Prim2SF alpha = S754_finite false ma ea -> -1074 <= ea <= -1 ->
  scaled (Zpos ma) ea <= scaled 4503599627370496 (-53) ->
  between 0 hi this -> between 0 hi v ->
  between 0 hi (Three.flerp1 this v alpha).
Proof.
  intros Ehi Hcan Hemax Ealpha Hea Ha [H1 H2] [H3 H4].
  unfold Three.flerp1, lerp1.
  assert (W : forall u, (0 <=? u)%float = true -> (u <=? hi)%float = true ->
                        within b eb (Prim2SF u)).
  { intros u Hu0 Hu1. rewrite leb_spec in Hu0, Hu1.
    rewrite Prim2SF_zero in Hu0. rewrite Ehi in Hu1.
    destruct (SFleb_within (Prim2SF u) b eb (Prim2SF_valid u) Hcan Hu0 Hu1)
      as [[s ->]|(m & e & -> & _ & Hle)]; [exact I|exact Hle]. }
  destruct (lerp_step_within this v alpha b eb ma ea) as [Hw Hpos]; try assumption.
  - apply W; assumption.
  - apply W; assumption.
  - split.
    + apply nonneg_leb.
      * apply within_sval in Hw. apply Hw.
      * apply Hpos; apply leb_nonneg; assumption.
    + rewrite leb_spec, Ehi.
      apply (within_SFleb _ b eb (Prim2SF_valid _) Hcan Hw).
Qed.

End SmoothingRange.

Section PointerInBox.
Context {M : JsMath}.
Import Three.
Local Open Scope float_scope.

Lemma lerp_in_box c t :
  pointer_in_box c -> in_box t -> pointer_in_box (lerp c t 0.15).
Proof.
  intros (Hx & Hy & Hz) (Tx1 & Tx2 & Ty1 & Ty2 & Tz).
  unfold pointer_in_box, lerp. cbn [Three.x Three.y Three.z].
  split; [|split].
  - apply (flerp1_between _ _ 7036874417766400 (-48) _ _ _ 5404319552844595 (-55));
      try (vm_compute; reflexivity); try (vm_compute; discriminate);
      [lia|exact Hx|split; assumption].
  - apply (flerp1_between _ _ 5629499534213120 (-48) _ _ _ 5404319552844595 (-55));
      try (vm_compute; reflexivity); try (vm_compute; discriminate);
      [lia|exact Hy|split; assumption].
  - apply (flerp1_between_0 _ 5629499534213120 (-49) _ _ _ 5404319552844595 (-55));
      try (vm_compute; reflexivity); try (vm_compute; discriminate);
      [lia|exact Hz|].
    destruct Tz as [-> | ->]; split; reflexivity.
Qed.

Lemma step_in_box e s :
  in_image e = true ->
  in_box (targetHandPos s) /\ pointer_in_box (currentHandPos s) ->
  in_box (targetHandPos (step s e)) /\ pointer_in_box (currentHandPos (step s e)).
Proof.
  intros He [Ht Hc]. destruct e as [x y p|r1 r2 r3 now|elapsed]; cbn [step].
  - rewrite target_updateHandInteraction, current_updateHandInteraction.
    split; [|exact Hc].
    cbn [in_image] in He.
    apply andb_prop in He as [He Hy1]. apply andb_prop in He as [He Hy0].
    apply andb_prop in He as [Hx0 Hx1].
    apply (scene_point_in_box x y); assumption.
  - split; assumption.
  - rewrite target_animate, current_animate. split; [exact Ht|].
    apply lerp_in_box; assumption.
Qed.

(** X19: as long as every hand sample lies inside the camera image, the
    smoothed pointer never leaves the box either: in every reachable
    scene its [x] is between -25 and 25, its [y] between -20 and 20 and
    its [z] between 0 and 10.  The three roundings of a smoothing step
    [c + (t - c) * 0.15] never carry a coordinate past the farther of [c]
    and [t]. *)
Theorem pointer_stays_in_the_box rand es :
  forallb in_image es = true ->
  pointer_in_box (currentHandPos (run es (initial_scene rand))).
Proof.
  intros Hes.
  assert (H : forall s,
             in_box (targetHandPos s) /\ pointer_in_box (currentHandPos s) ->
             in_box (targetHandPos (run es s)) /\
             pointer_in_box (currentHandPos (run es s))).
  { induction es as [|e es IH]; intros s Hs; [exact Hs|].
    cbn [forallb] in Hes. apply andb_prop in Hes as [He Hes].
    rewrite run_cons. apply (IH Hes), step_in_box; assumption. }
  apply H. destruct (initial_scene_at_origin rand) as (-> & -> & _).
  unfold in_box, pointer_in_box, between, origin. cbn [Three.x Three.y Three.z].
  repeat split; try reflexivity. left. reflexivity.
Qed.

End PointerInBox.
Section TiltInRange.
Context {M : JsMath}.
Import Three.
Local Open Scope float_scope.

Lemma rotation_updateHandInteraction x y p s :
  mainGroup_rotation (updateHandInteraction x y p s)
  = mkEuler (flerp1 (rx (mainGroup_rotation s)) ((y - 0.5) * 0.3) 0.05)
            (flerp1 (ry (mainGroup_rotation s)) ((x - 0.5) * 0.6) 0.05).
Proof. reflexivity. Qed.

Lemma step_tilt_in_range e s :
  in_image e = true ->
  tilt_in_range (mainGroup_rotation s) ->
  tilt_in_range (mainGroup_rotation (step s e)).
Proof.
  intros He [Hx Hy]. destruct e as [x y p|r1 r2 r3 now|elapsed]; cbn [step].
  - rewrite rotation_updateHandInteraction. unfold tilt_in_range. cbn [rx ry].
    cbn [in_image] in He.
    apply andb_prop in He as [He Hy1]. apply andb_prop in He as [He Hy0].
    apply andb_prop in He as [Hx0 Hx1].
    destruct (half_span x Hx0 Hx1) as [Wx _].
    destruct (half_span y Hy0 Hy1) as [Wy _].
    assert (Gx : within 5404319552844595 (-55) (Prim2SF ((y - 0.5) * 0.3))).
    { apply (gain_within _ 0.3 5404319552844595 (-54)); try assumption;
        try (vm_compute; reflexivity); lia. }
    assert (Gy : within 5404319552844595 (-54) (Prim2SF ((x - 0.5) * 0.6))).
    { apply (gain_within _ 0.6 5404319552844595 (-53)); try assumption;
        try (vm_compute; reflexivity); lia. }
    assert (Tx : between (-0.15) 0.15 ((y - 0.5) * 0.3)).
    { apply (within_leb _ _ _ _ _ Gx); vm_compute; reflexivity. }
    assert (Ty : between (-0.3) 0.3 ((x - 0.5) * 0.6)).
    { apply (within_leb _ _ _ _ _ Gy); vm_compute; reflexivity. }
    split.
    + apply (flerp1_between _ _ 5404319552844595 (-55) _ _ _ 7205759403792794 (-57));
        try (vm_compute; reflexivity); try (vm_compute; discriminate);
        [lia|exact Hx|exact Tx].
    + apply (flerp1_between _ _ 5404319552844595 (-54) _ _ _ 7205759403792794 (-57));
        try (vm_compute; reflexivity); try (vm_compute; discriminate);
        [lia|exact Hy|exact Ty].
  - split; assumption.
  - split; assumption.
Qed.

(** X20: as long as every hand sample lies inside the camera image, the
    tree never tilts by more than 0.15 radians nor turns by more than 0.3:
    in every reachable scene [rotation.x] is between -0.15 and 0.15 and
    [rotation.y] between -0.3 and 0.3, the numbers being the binary64
    values of those literals. *)
Theorem tilt_stays_in_range rand es :
  forallb in_image es = true ->
  tilt_in_range (mainGroup_rotation (run es (initial_scene rand))).
Proof.
  intros Hes.
  assert (H : forall s,
             tilt_in_range (mainGroup_rotation s) ->
             tilt_in_range (mainGroup_rotation (run es s))).
  { induction es as [|e es IH]; intros s Hs; [exact Hs|].
    cbn [forallb] in Hes. apply andb_prop in Hes as [He Hes].
    rewrite run_cons. apply (IH Hes), step_tilt_in_range; assumption. }
  apply H. unfold tilt_in_range, between, initial_scene.
  cbn [mainGroup_rotation rx ry]. repeat split; reflexivity.
Qed.

End TiltInRange.
(** ** Rounding to nearest: the value, the error and the order *)

Section RoundingValue.
Local Open Scope Z_scope.

(** The round bit and the sticky bit after a shift by [k + 1] bits. *)
Lemma shr_iter_rs k m :
  0 <= m ->
  let mrs := Nat.iter (S k) shr_1 (Build_shr_record m false false) in
  shr_r mrs = Z.odd (m / 2 ^ Z.of_nat k) /\
  (shr_s mrs = false <-> m mod 2 ^ Z.of_nat k = 0).
Proof.
  intros Hm. induction k as [|k IH]; cbv zeta in *.
  - change (Nat.iter 1 shr_1 (Build_shr_record m false false))
      with (shr_1 (Build_shr_record m false false)).
    destruct (shr_1_rs (Build_shr_record m false false) Hm) as [Hr Hs].
    rewrite Hr, Hs. cbn [shr_m shr_r shr_s orb]. change (2 ^ Z.of_nat 0) with 1.
    rewrite Z.div_1_r, Z.mod_1_r. tauto.
  - rewrite Nat.iter_succ.
    set (mrs := Nat.iter (S k) shr_1 (Build_shr_record m false false)) in *.
    destruct IH as [IHr IHs].
    assert (Hpk : 0 < 2 ^ Z.of_nat k) by (apply Z.pow_pos_nonneg; lia).
    assert (Hmm : shr_m mrs = m / 2 ^ Z.of_nat (S k))
      by (unfold mrs; rewrite shr_iter_m; [reflexivity|exact Hm]).
    assert (H0 : 0 <= shr_m mrs).
    { rewrite Hmm. apply Z.div_pos; [lia|apply Z.pow_pos_nonneg; lia]. }
    destruct (shr_1_rs mrs H0) as [-> ->]. rewrite Hmm. split; [reflexivity|].
    rewrite (Nat2Z.inj_succ k), Z.pow_succ_r by lia.
    rewrite (Z.mul_comm 2), Z.rem_mul_r by lia.
    rewrite IHr. rewrite orb_false_iff, IHs.
    pose proof (Z.mod_pos_bound m (2 ^ Z.of_nat k) Hpk).
    pose proof (Z.mod_pos_bound (m / 2 ^ Z.of_nat k) 2 ltac:(lia)).
    rewrite <- Z.negb_even, negb_false_iff, Zeven_mod, Z.eqb_eq. nia.
Qed.

(** Rounding to nearest after a shift by [p] bits: the rounded mantissa is
    one of the two neighbours, at most half a unit away. *)
Lemma shr_round_half p m :
  0 <= m ->
  let mrs := SpecFloat.iter_pos shr_1 p (Build_shr_record m false false) in
  let m2 := round_nearest_even (shr_m mrs) (loc_of_shr_record mrs) in
  m / 2 ^ Zpos p <= m2 <= m / 2 ^ Zpos p + 1 /\
  2 * Z.abs (m2 * 2 ^ Zpos p - m) <= 2 ^ Zpos p.
Proof.
  intros Hm. cbv zeta.
  rewrite shr_pos_m by exact Hm. cbn [shr_m]. rewrite iter_pos_nat.
  destruct (Pos2Nat.is_succ p) as [k Hk]. rewrite Hk.
  destruct (shr_iter_rs k m Hm) as [Hr Hs]. cbv zeta in Hr, Hs.
  assert (Hp : Zpos p = Z.succ (Z.of_nat k)) by lia.
  assert (Hpk : 0 < 2 ^ Z.of_nat k) by (apply Z.pow_pos_nonneg; lia).
  rewrite Hp, Z.pow_succ_r by lia.
  pose proof (Z.div_mod m (2 ^ Z.of_nat k) ltac:(lia)) as Hdm.
  pose proof (Z.mod_pos_bound m (2 ^ Z.of_nat k) Hpk) as Hlow.
  pose proof (Z.div_mod (m / 2 ^ Z.of_nat k) 2 ltac:(lia)) as Hdm2.
  pose proof (Z.mod_pos_bound (m / 2 ^ Z.of_nat k) 2 ltac:(lia)) as Hbit.
  assert (Hq : m / (2 * 2 ^ Z.of_nat k) = m / 2 ^ Z.of_nat k / 2)
    by (rewrite (Z.mul_comm 2), Z.div_div by lia; reflexivity).
  rewrite Hq.
  set (q := m / 2 ^ Z.of_nat k / 2) in *.
  set (bit := (m / 2 ^ Z.of_nat k) mod 2) in *.
  set (low := m mod 2 ^ Z.of_nat k) in *.
  set (h := 2 ^ Z.of_nat k) in *.
  assert (Hodd : Z.odd (m / h) = negb (bit =? 0)).
  { rewrite <- Z.negb_even. f_equal. apply Zeven_mod. }
  destruct (Nat.iter (S k) shr_1 (Build_shr_record m false false)) as [m' r s].
  cbn [shr_r shr_s] in Hr, Hs. cbn [loc_of_shr_record].
  rewrite Hodd in Hr.
  destruct r, s; cbn [loc_of_shr_record round_nearest_even].
  - assert (bit = 1) by (destruct (Z.eqb_spec bit 0); [discriminate Hr|lia]).
    assert (low <> 0) by (intros E; apply Hs in E; discriminate E).
    split; [lia|]. nia.
  - assert (bit = 1) by (destruct (Z.eqb_spec bit 0); [discriminate Hr|lia]).
    assert (low = 0) by (apply Hs; reflexivity).
    destruct (Z.even q); split; try lia; nia.
  - assert (bit = 0) by (destruct (Z.eqb_spec bit 0); [lia|discriminate Hr]).
    split; [lia|]. nia.
  - assert (bit = 0) by (destruct (Z.eqb_spec bit 0); [lia|discriminate Hr]).
    split; [lia|]. nia.
Qed.

(** What [binary_round_aux] returns for an exact positive magnitude
    [mx * 2^ex]: the mantissa [m2] rounded to nearest at the exponent that
    the format gives the magnitude, renormalised without loss. *)
Lemma binary_round_aux_value s mx ex :
  0 < mx -> -2200 <= ex ->
  let e' := Z.max ex (fexp 53 1024 (Zdigits2 mx + ex)) in
  exists m2,
    mx / 2 ^ (e' - ex) <= m2 <= mx / 2 ^ (e' - ex) + 1 /\
    2 * Z.abs (m2 * 2 ^ (e' - ex) - mx) <= 2 ^ (e' - ex) /\
    match binary_round_aux 53 1024 s mx ex loc_Exact with
    | S754_zero _ => m2 = 0
    | S754_finite _ m e => scaled (Zpos m) e = scaled m2 e'
    | S754_infinity _ => True
    | S754_nan => False
    end.
Proof.
  intros Hmx Hex. cbv zeta. rewrite fexp64.
  set (d := Zdigits2 mx).
  pose proof (Zdigits2_bounds mx Hmx) as [Hdl Hdu]. fold d in Hdl, Hdu.
  pose proof (Zdigits2_pos mx Hmx) as Hdpos. fold d in Hdpos.
  unfold binary_round_aux.
  (* the first shift, then rounding to nearest *)
  assert (H1 : exists m2,
             (let '(mrs', e') := shr_fexp 53 1024 mx ex loc_Exact in
              (round_nearest_even (shr_m mrs') (loc_of_shr_record mrs'), e'))
             = (m2, Z.max ex (Z.max (d + ex - 53) (-1074))) /\
             mx / 2 ^ (Z.max ex (Z.max (d + ex - 53) (-1074)) - ex) <= m2
               <= mx / 2 ^ (Z.max ex (Z.max (d + ex - 53) (-1074)) - ex) + 1 /\
             2 * Z.abs (m2 * 2 ^ (Z.max ex (Z.max (d + ex - 53) (-1074)) - ex) - mx)
               <= 2 ^ (Z.max ex (Z.max (d + ex - 53) (-1074)) - ex) /\
             (ex < Z.max (d + ex - 53) (-1074) -> m2 <= 2 ^ 53)).
  { unfold shr_fexp, shr. cbn [shr_record_of_loc]. rewrite fexp64. fold d.
    destruct (Z.max (d + ex - 53) (-1074) - ex) as [|p|p] eqn:Hn.
    - exists mx. replace (Z.max ex (Z.max (d + ex - 53) (-1074))) with ex by lia.
      rewrite Z.sub_diag. cbn [shr_m loc_of_shr_record round_nearest_even].
      change (2 ^ 0) with 1. rewrite Z.div_1_r.
      split; [reflexivity|]. split; [lia|]. split; lia.
    - exists (round_nearest_even
                (shr_m (SpecFloat.iter_pos shr_1 p (Build_shr_record mx false false)))
                (loc_of_shr_record
                   (SpecFloat.iter_pos shr_1 p (Build_shr_record mx false false)))).
      replace (Z.max ex (Z.max (d + ex - 53) (-1074))) with (ex + Zpos p) by lia.
      replace (ex + Zpos p - ex) with (Zpos p) by lia.
      split; [reflexivity|].
      destruct (shr_round_half p mx ltac:(lia)) as [Hb Hh]. cbv zeta in Hb, Hh.
      split; [exact Hb|]. split; [exact Hh|]. intros _.
      assert (mx / 2 ^ Zpos p < 2 ^ 53).
      { apply Z.div_lt_upper_bound; [apply Z.pow_pos_nonneg; lia|].
        rewrite <- Z.pow_add_r by lia.
        apply Z.lt_le_trans with (2 ^ d); [exact Hdu|].
        apply Z.pow_le_mono_r; lia. }
      lia.
    - exists mx. replace (Z.max ex (Z.max (d + ex - 53) (-1074))) with ex by lia.
      rewrite Z.sub_diag. cbn [shr_m loc_of_shr_record round_nearest_even].
      change (2 ^ 0) with 1. rewrite Z.div_1_r.
      split; [reflexivity|]. split; [lia|]. split; lia. }
  destruct H1 as (m2 & Hshr & Hb & Hh & Hnorm).
  set (e' := Z.max ex (Z.max (d + ex - 53) (-1074))) in *.
  exists m2. split; [exact Hb|]. split; [exact Hh|].
  destruct (shr_fexp 53 1024 mx ex loc_Exact) as [mrs' e1].
  injection Hshr as -> ->.
  assert (Hm2 : 0 <= m2).
  { assert (0 <= mx / 2 ^ (e' - ex))
      by (apply Z.div_pos; [lia|apply Z.pow_pos_nonneg; lia]). lia. }
  (* the second shift loses nothing *)
  destruct (Z.eq_dec m2 0) as [->|Hnz].
  { unfold shr_fexp, shr. cbn [Zdigits2 shr_record_of_loc]. rewrite fexp64.
    destruct (Z.max (0 + e' - 53) (-1074) - e') as [|p|p].
    - reflexivity.
    - rewrite shr_pos_m by (cbn; lia). cbn [shr_m]. rewrite Z.div_0_l; [reflexivity|].
      apply Z.pow_nonzero; lia.
    - reflexivity. }
  pose proof (shr_fexp_m 53 1024 m2 e' loc_Exact Hm2) as Hs2. cbv zeta in Hs2.
  rewrite fexp64 in Hs2.
  pose proof (Zdigits2_bounds m2 ltac:(lia)) as [Hd2l Hd2u].
  pose proof (Zdigits2_pos m2 ltac:(lia)) as Hd2pos.
  assert (Hd2 : Zdigits2 m2 + e' - 53 <= e' \/ (m2 = 2 ^ 53 /\ -1074 <= e')).
  { destruct (Z_lt_le_dec ex (Z.max (d + ex - 53) (-1074))) as [Hsh|Hsh].
    - specialize (Hnorm Hsh).
      destruct (Z.eq_dec m2 (2 ^ 53)) as [E|E]; [right; split; [exact E|lia]|].
      left. assert (Zdigits2 m2 <= 53); [|lia].
      apply Zdigits2_le; lia.
    - left. replace e' with ex in * by lia.
      assert (Em : m2 = mx).
      { rewrite Z.sub_diag in Hh. change (2 ^ 0) with 1 in Hh. lia. }
      rewrite Em. fold d. lia. }
  destruct (shr_fexp 53 1024 m2 e' loc_Exact) as [mrs'' e''].
  destruct Hs2 as [Hpos Hneg].
  assert (H3 : 0 < shr_m mrs'' /\ scaled (shr_m mrs'') e'' = scaled m2 e').
  { destruct Hd2 as [Hd2|[E He']].
    - assert (He'l : -1074 <= e' \/ Zdigits2 m2 + e' - 53 <= e') by (right; exact Hd2).
      assert (Hn : Z.max (Zdigits2 m2 + e' - 53) (-1074) - e' <= 0) by lia.
      destruct (Hneg Hn) as [-> ->]. split; [lia|reflexivity].
    - assert (Hdg : Zdigits2 m2 = 54).
      { rewrite E. apply Z.le_antisymm.
        - apply Zdigits2_le; [lia|]. split; [lia|].
          apply Z.pow_lt_mono_r; lia.
        - apply Zdigits2_ge; [lia|]. change (54 - 1) with 53. lia. }
      assert (Hn : 0 < Z.max (Zdigits2 m2 + e' - 53) (-1074) - e') by lia.
      destruct (Hpos Hn) as [-> ->]. rewrite Hdg.
      replace (Z.max (54 + e' - 53) (-1074) - e') with 1 by lia.
      rewrite E. change (2 ^ 53 / 2 ^ 1) with (2 ^ 52).
      split; [apply Z.pow_pos_nonneg; lia|].
      rewrite <- (scaled_align (2 ^ 52) (e' + 1) e') by lia.
      replace (e' + 1 - e') with 1 by lia. reflexivity. }
  destruct H3 as [H0 Hv].
  destruct (shr_m mrs'') as [|m|m]; [lia| |lia].
  destruct (e'' <=? 1024 - 53); [exact Hv|exact I].
Qed.

End RoundingValue.
Section RoundingOrder.
Local Open Scope Z_scope.

(** Rounding a magnitude that lies over a binary64 number [b * 2^eb] does
    not give a number under it. *)
Lemma binary_round_aux_above s mx ex b eb :
  0 < mx -> -2200 <= ex -> canonical_mantissa 53 1024 b eb = true ->
  scaled (Zpos b) eb <= scaled mx ex ->
  match binary_round_aux 53 1024 s mx ex loc_Exact with
  | S754_zero _ => False
  | S754_finite _ m e => scaled (Zpos b) eb <= scaled (Zpos m) e
  | _ => True
  end.
Proof.
  intros Hmx Hex Hcan Hle.
  pose proof (canonical_exponent b eb Hcan) as Hceb.
  destruct (binary_round_aux_value s mx ex Hmx Hex) as (m2 & Hb & Hh & Hres).
  cbv zeta in Hb, Hh, Hres. rewrite fexp64 in Hb, Hh, Hres.
  set (d := Zdigits2 mx) in *.
  pose proof (Zdigits2_bounds mx Hmx) as [Hdl Hdu]. fold d in Hdl, Hdu.
  pose proof (scaled_le_digits (Zpos b) eb mx ex ltac:(lia) Hmx ltac:(lia) Hex Hle) as Hdig.
  cbn [Zdigits2] in Hdig. fold d in Hdig.
  set (e' := Z.max ex (Z.max (d + ex - 53) (-1074))) in *.
  pose proof (digits2_bounds b) as [_ Hbu].
  assert (Hbu53 : Zpos b < 2 ^ 53).
  { apply Z.lt_le_trans with (2 ^ Zpos (digits2_pos b)); [exact Hbu|].
    apply Z.pow_le_mono_r; lia. }
  assert (Hkey : scaled (Zpos b) eb <= scaled m2 e').
  { destruct (Z.eq_dec e' ex) as [E|E].
    - rewrite E in *. rewrite Z.sub_diag in Hh. change (2 ^ 0) with 1 in Hh.
      replace m2 with mx by lia. exact Hle.
    - assert (Hsh : ex < e') by lia.
      assert (Hp : 0 < 2 ^ (e' - ex)) by (apply Z.pow_pos_nonneg; lia).
      apply Z.le_trans with (scaled (mx / 2 ^ (e' - ex)) e');
        [|apply scaled_le_mono; lia].
      destruct (Z_le_gt_dec e' eb) as [Hle'|Hgt'].
      + (* same exponent as the bound: the floor is at least [b] *)
        assert (Ee : e' = eb) by lia. rewrite Ee in *.
        apply scaled_le_mono; [lia|].
        apply Z.div_le_lower_bound; [exact Hp|].
        apply (scaled_le_inv _ _ ex); [lia|].
        rewrite Z.mul_comm, scaled_align by lia. exact Hle.
      + (* a higher exponent: the result is normal and fills its binade *)
        assert (Hn : e' = d + ex - 53) by lia.
        assert (H52 : 2 ^ 52 <= mx / 2 ^ (e' - ex)).
        { apply Z.div_le_lower_bound; [exact Hp|].
          rewrite <- Z.pow_add_r by lia.
          apply Z.le_trans with (2 ^ (d - 1)); [|exact Hdl].
          apply Z.pow_le_mono_r; lia. }
        apply Z.le_trans with (scaled (2 ^ 52) e'); [|apply scaled_le_mono; lia].
        rewrite <- (scaled_align (2 ^ 52) e' eb) by lia.
        apply scaled_le_mono; [lia|].
        apply Z.le_trans with (2 ^ 52 * 2 ^ 1).
        * change (2 ^ 52 * 2 ^ 1) with (2 ^ 53). lia.
        * apply Z.mul_le_mono_nonneg_l; [lia|]. apply Z.pow_le_mono_r; lia. }
  pose proof (scaled_pos (Zpos b) eb ltac:(lia) ltac:(lia)) as Hpb.
  destruct (binary_round_aux 53 1024 s mx ex loc_Exact) as [s'|s'| |s' m e];
    try exact I.
  - subst m2. change (scaled 0 e') with 0 in Hkey. lia.
  - rewrite Hres. exact Hkey.
Qed.

(** The error of rounding to nearest: at most [2^-53] of the magnitude
    when the result is normal, at most half the least binary64 number when
    it is not. *)
Lemma binary_round_aux_error s mx ex :
  0 < mx -> -2200 <= ex ->
  match binary_round_aux 53 1024 s mx ex loc_Exact with
  | S754_zero _ => scaled mx ex <= 2 ^ 1125
  | S754_finite _ m e =>
      2 ^ 53 * Z.abs (scaled (Zpos m) e - scaled mx ex)
        <= scaled mx ex + 2 ^ 53 * 2 ^ 1125 /\
      (-1074 <= ex ->
       2 ^ 53 * Z.abs (scaled (Zpos m) e - scaled mx ex) <= scaled mx ex)
  | _ => True
  end.
Proof.
  intros Hmx Hex.
  destruct (binary_round_aux_value s mx ex Hmx Hex) as (m2 & Hb & Hh & Hres).
  cbv zeta in Hb, Hh, Hres. rewrite fexp64 in Hb, Hh, Hres.
  set (d := Zdigits2 mx) in *.
  pose proof (Zdigits2_bounds mx Hmx) as [Hdl Hdu]. fold d in Hdl, Hdu.
  pose proof (Zdigits2_pos mx Hmx) as Hdpos. fold d in Hdpos.
  set (e' := Z.max ex (Z.max (d + ex - 53) (-1074))) in *.
  pose proof (scaled_pos mx ex Hmx Hex) as Hpx.
  (* the error on the common scale *)
  assert (Hv : scaled m2 e' - scaled mx ex
               = (m2 * 2 ^ (e' - ex) - mx) * 2 ^ (ex + 2200)).
  { rewrite <- (scaled_align m2 e' ex) by lia. unfold scaled. ring. }
  assert (Hp : 0 < 2 ^ (ex + 2200)) by (apply Z.pow_pos_nonneg; lia).
  assert (Herr : (e' = ex /\ scaled m2 e' = scaled mx ex) \/
                 (ex < e' /\
                  2 * Z.abs (scaled m2 e' - scaled mx ex) <= 2 ^ (e' + 2200))).
  { destruct (Z.eq_dec e' ex) as [E|E].
    - left. split; [exact E|]. rewrite E in *. rewrite Z.sub_diag in Hh.
      change (2 ^ 0) with 1 in Hh. replace m2 with mx by lia. reflexivity.
    - right. split; [lia|]. rewrite Hv, Z.abs_mul, (Z.abs_eq (2 ^ (ex + 2200))) by lia.
      replace (e' + 2200) with (e' - ex + (ex + 2200)) by lia.
      rewrite (Z.pow_add_r 2 (e' - ex) (ex + 2200)) by lia. nia. }
  assert (Hnormal : ex < e' -> e' = d + ex - 53 ->
                    2 ^ 53 * 2 ^ (e' + 2200) <= 2 * scaled mx ex).
  { intros Hsh Hn. rewrite <- Z.pow_add_r by lia.
    apply Z.le_trans with (2 * (2 ^ (d - 1) * 2 ^ (ex + 2200))).
    - rewrite <- Z.pow_add_r by lia.
      replace (53 + (e' + 2200)) with (Z.succ (d - 1 + (ex + 2200))) by lia.
      rewrite Z.pow_succ_r by lia. lia.
    - unfold scaled. nia. }
  assert (Hsub : ex < e' -> e' <> d + ex - 53 -> 2 ^ (e' + 2200) = 2 * 2 ^ 1125).
  { intros Hsh Hn. replace e' with (-1074) by lia. reflexivity. }
  assert (H1125 : 0 < 2 ^ 1125) by (apply Z.pow_pos_nonneg; lia).
  assert (H53 : 0 < 2 ^ 53) by (apply Z.pow_pos_nonneg; lia).
  destruct (binary_round_aux 53 1024 s mx ex loc_Exact) as [s'|s'| |s' m e];
    try exact I.
  - subst m2. change (scaled 0 e') with 0 in Herr.
    destruct Herr as [[_ E]|[Hsh Hh2]]; [lia|].
    destruct (Z.eq_dec e' (d + ex - 53)) as [Hn|Hn].
    + (* a normal result is not zero *)
      exfalso. rewrite Hn in Hb.
      assert (2 ^ 52 <= mx / 2 ^ (d + ex - 53 - ex)); [|lia].
      apply Z.div_le_lower_bound; [apply Z.pow_pos_nonneg; lia|].
      rewrite <- Z.pow_add_r by lia.
      apply Z.le_trans with (2 ^ (d - 1)); [|exact Hdl].
      apply Z.pow_le_mono_r; lia.
    + rewrite (Hsub Hsh Hn) in Hh2. lia.
  - rewrite Hres. destruct Herr as [[E Hv0]|[Hsh Hh2]].
    + rewrite Hv0, Z.sub_diag. cbn [Z.abs]. rewrite Z.mul_0_r. split; [lia|]. intros; lia.
    + destruct (Z.eq_dec e' (d + ex - 53)) as [Hn|Hn].
      * pose proof (Hnormal Hsh Hn). split; [nia|]. intros _. nia.
      * rewrite (Hsub Hsh Hn) in Hh2. split; [nia|]. intros. lia.
Qed.

End RoundingOrder.
Section SumOrder.
Local Open Scope Z_scope.

Lemma shl_align_value mx ex ez :
  -2200 <= ez ->
  let '(mz, ez') := shl_align mx ex ez in
  scaled (Zpos mz) ez' = scaled (Zpos mx) ex /\ ez' = Z.min ex ez.
Proof.
  intros Hez. unfold shl_align. destruct (ez - ex) as [|d|d] eqn:Hd.
  - split; [reflexivity|lia].
  - split; [reflexivity|lia].
  - rewrite Pos_iter_xO_val. split; [|lia].
    replace ez with (ex - Zpos d) by lia. apply scaled_shift; lia.
Qed.

Lemma binary_round_above s mx ex b eb :
  -1074 <= ex -> canonical_mantissa 53 1024 b eb = true ->
  scaled (Zpos b) eb <= scaled (Zpos mx) ex ->
  match binary_round 53 1024 s mx ex with
  | S754_zero _ => False
  | S754_finite _ m e => scaled (Zpos b) eb <= scaled (Zpos m) e
  | _ => True
  end.
Proof.
  intros Hex Hcan Hle. unfold binary_round. rewrite fexp64.
  pose proof (shl_align_value mx ex
                (Z.max (Zpos (digits2_pos mx) + ex - 53) (-1074)) ltac:(lia)) as Hv.
  destruct (shl_align mx ex (Z.max (Zpos (digits2_pos mx) + ex - 53) (-1074)))
    as [mz ez]. destruct Hv as [Hv Hez].
  apply binary_round_aux_above; try assumption; try lia.
Qed.

Lemma binary_round_error s mx ex :
  -1074 <= ex ->
  match binary_round 53 1024 s mx ex with
  | S754_zero _ => False
  | S754_finite _ m e =>
      2 ^ 53 * Z.abs (scaled (Zpos m) e - scaled (Zpos mx) ex) <= scaled (Zpos mx) ex
  | _ => True
  end.
Proof.
  intros Hex. unfold binary_round. rewrite fexp64.
  pose proof (shl_align_value mx ex
                (Z.max (Zpos (digits2_pos mx) + ex - 53) (-1074)) ltac:(lia)) as Hv.
  destruct (shl_align mx ex (Z.max (Zpos (digits2_pos mx) + ex - 53) (-1074)))
    as [mz ez]. destruct Hv as [Hv Hez].
  pose proof (binary_round_aux_error s (Zpos mz) ez ltac:(lia) ltac:(lia)) as H.
  destruct (binary_round_aux 53 1024 s (Zpos mz) ez loc_Exact) as [s'|s'| |s' m e];
    try exact I.
  - assert (2 ^ 1126 <= scaled (Zpos mz) ez).
    { unfold scaled. apply Z.le_trans with (1 * 2 ^ (ez + 2200)).
      - rewrite Z.mul_1_l. apply Z.pow_le_mono_r; lia.
      - apply Z.mul_le_mono_nonneg_r; [apply Z.pow_nonneg|]; lia. }
    assert (2 ^ 1125 < 2 ^ 1126) by (apply Z.pow_lt_mono_r; lia). lia.
  - rewrite <- Hv. apply H. lia.
Qed.

(** What [binary_normalize] makes of an exact signed sum [M * 2^ez], when
    it is finite: the error is at most [2^-53] of the sum, and the result
    does not step over any binary64 number. *)
Lemma binary_normalize_order M ez :
  -1074 <= ez ->
  let f := binary_normalize 53 1024 M ez false in
  finite_or_zero f ->
  2 ^ 53 * Z.abs (sval f - scaled M ez) <= Z.abs (scaled M ez) /\
  (forall g, SpecFloat.valid_binary 53 1024 g = true -> finite_or_zero g ->
     (sval g <= scaled M ez -> sval g <= sval f) /\
     (scaled M ez <= sval g -> sval f <= sval g)).
Proof.
  intros Hez. cbv zeta. destruct M as [|m|m]; cbn [binary_normalize]; intros Hf.
  - change (scaled 0 ez) with 0. cbn [sval]. change (Z.abs (0 - 0)) with 0.
    change (Z.abs 0) with 0. split; [lia|]. intros g _ _. split; intros; assumption.
  - pose proof (binary_round_error false m ez Hez) as He.
    pose proof (binary_round_sign false m ez) as Hs.
    pose proof (scaled_pos (Zpos m) ez ltac:(lia) ltac:(lia)) as Hp.
    assert (Hab : forall b eb, canonical_mantissa 53 1024 b eb = true ->
                scaled (Zpos b) eb <= scaled (Zpos m) ez ->
                match binary_round 53 1024 false m ez with
                | S754_zero _ => False
                | S754_finite _ m' e' => scaled (Zpos b) eb <= scaled (Zpos m') e'
                | _ => True
                end)
      by (intros b eb Hc Hl; apply binary_round_above; assumption).
    assert (Hwi : forall b eb, canonical_mantissa 53 1024 b eb = true -> eb <= 971 ->
                scaled (Zpos m) ez <= scaled (Zpos b) eb ->
                within b eb (binary_round 53 1024 false m ez))
      by (intros b eb Hc He' Hl; apply binary_round_within; try assumption; lia).
    destruct (binary_round 53 1024 false m ez) as [s'|s'| |s' m' e'];
      try (destruct Hf; fail); try (destruct He; fail).
    subst s'. cbn [sval cond_Zopp].
    pose proof (scaled_nonneg (Zpos m') e' ltac:(lia)) as Hn'.
    split; [lia|]. intros g Hvg Hfg.
    destruct g as [sg|sg| |sg mg eg]; try (destruct Hfg; fail); cbn [sval].
    + split; intros; lia.
    + pose proof (valid_exponent _ _ _ Hvg) as Heg.
      cbn [SpecFloat.valid_binary] in Hvg. unfold bounded in Hvg.
      apply andb_prop in Hvg as [Hcg _].
      pose proof (scaled_pos (Zpos mg) eg ltac:(lia) ltac:(lia)) as Hpg.
      destruct sg; cbn [cond_Zopp].
      * split; intros; lia.
      * split; intros H.
        -- apply (Hab mg eg Hcg H).
        -- apply (Hwi mg eg Hcg ltac:(lia) H).
  - pose proof (binary_round_error true m ez Hez) as He.
    pose proof (binary_round_sign true m ez) as Hs.
    pose proof (scaled_pos (Zpos m) ez ltac:(lia) ltac:(lia)) as Hp.
    assert (Hneg : scaled (Zneg m) ez = - scaled (Zpos m) ez)
      by (change (Zneg m) with (- Zpos m); apply scaled_opp).
    assert (Hab : forall b eb, canonical_mantissa 53 1024 b eb = true ->
                scaled (Zpos b) eb <= scaled (Zpos m) ez ->
                match binary_round 53 1024 true m ez with
                | S754_zero _ => False
                | S754_finite _ m' e' => scaled (Zpos b) eb <= scaled (Zpos m') e'
                | _ => True
                end)
      by (intros b eb Hc Hl; apply binary_round_above; assumption).
    assert (Hwi : forall b eb, canonical_mantissa 53 1024 b eb = true -> eb <= 971 ->
                scaled (Zpos m) ez <= scaled (Zpos b) eb ->
                within b eb (binary_round 53 1024 true m ez))
      by (intros b eb Hc He' Hl; apply binary_round_within; try assumption; lia).
    destruct (binary_round 53 1024 true m ez) as [s'|s'| |s' m' e'];
      try (destruct Hf; fail); try (destruct He; fail).
    subst s'. cbn [sval cond_Zopp]. rewrite Hneg.
    pose proof (scaled_nonneg (Zpos m') e' ltac:(lia)) as Hn'.
    split; [lia|]. intros g Hvg Hfg.
    destruct g as [sg|sg| |sg mg eg]; try (destruct Hfg; fail); cbn [sval].
    + split; intros; lia.
    + pose proof (valid_exponent _ _ _ Hvg) as Heg.
      cbn [SpecFloat.valid_binary] in Hvg. unfold bounded in Hvg.
      apply andb_prop in Hvg as [Hcg _].
      pose proof (scaled_pos (Zpos mg) eg ltac:(lia) ltac:(lia)) as Hpg.
      destruct sg; cbn [cond_Zopp].
      * split; intros H.
        -- assert (Hw := Hwi mg eg Hcg ltac:(lia) ltac:(lia)). cbn [within] in Hw. lia.
        -- assert (Ha := Hab mg eg Hcg ltac:(lia)). lia.
      * split; intros; lia.
Qed.

(** The same for the sum and the difference of two finite numbers. *)
Lemma SFadd_order x y :
  SpecFloat.valid_binary 53 1024 x = true -> SpecFloat.valid_binary 53 1024 y = true ->
  finite_or_zero x -> finite_or_zero y ->
  finite_or_zero (SFadd 53 1024 x y) ->
  2 ^ 53 * Z.abs (sval (SFadd 53 1024 x y) - (sval x + sval y))
    <= Z.abs (sval x + sval y) /\
  (forall g, SpecFloat.valid_binary 53 1024 g = true -> finite_or_zero g ->
     (sval g <= sval x + sval y -> sval g <= sval (SFadd 53 1024 x y)) /\
     (sval x + sval y <= sval g -> sval (SFadd 53 1024 x y) <= sval g)).
Proof.
  intros Hvx Hvy Hfx Hfy.
  destruct x as [sx|sx| |sx mx ex]; try destruct Hfx;
    destruct y as [sy|sy| |sy my ey]; try destruct Hfy.
  - assert (E : sval (SFadd 53 1024 (S754_zero sx) (S754_zero sy)) = 0)
      by (destruct sx, sy; reflexivity).
    intros _. rewrite E. cbn [sval]. split; [lia|]. intros g _ _. split; intros; lia.
  - intros _. cbn [SFadd]. cbn [sval]. rewrite !Z.add_0_l.
    split; [lia|]. intros g _ _. split; intros; lia.
  - intros _. cbn [SFadd]. cbn [sval]. rewrite !Z.add_0_r.
    split; [lia|]. intros g _ _. split; intros; lia.
  - apply valid_exponent in Hvx, Hvy. cbn [SFadd].
    set (ez := Z.min ex ey).
    rewrite !shl_align_fst by lia.
    assert (Hv : scaled (cond_Zopp sx (Zpos mx * 2 ^ (ex - ez))
                         + cond_Zopp sy (Zpos my * 2 ^ (ey - ez))) ez
                 = sval (S754_finite sx mx ex) + sval (S754_finite sy my ey)).
    { rewrite scaled_add, !scaled_cond_Zopp, !scaled_align by lia. reflexivity. }
    rewrite <- Hv. intros Hf.
    apply (binary_normalize_order _ ez ltac:(lia) Hf).
Qed.

Lemma SFsub_order x y :
  SpecFloat.valid_binary 53 1024 x = true -> SpecFloat.valid_binary 53 1024 y = true ->
  finite_or_zero x -> finite_or_zero y ->
  finite_or_zero (SFsub 53 1024 x y) ->
  2 ^ 53 * Z.abs (sval (SFsub 53 1024 x y) - (sval x - sval y))
    <= Z.abs (sval x - sval y) /\
  (forall g, SpecFloat.valid_binary 53 1024 g = true -> finite_or_zero g ->
     (sval g <= sval x - sval y -> sval g <= sval (SFsub 53 1024 x y)) /\
     (sval x - sval y <= sval g -> sval (SFsub 53 1024 x y) <= sval g)).
Proof.
  intros Hvx Hvy Hfx Hfy. rewrite SFsub_as_add.
  replace (sval x - sval y) with (sval x + sval (SFopp y))
    by (rewrite sval_SFopp; lia).
  apply SFadd_order; try assumption.
  - destruct y; assumption.
  - destruct y; assumption.
Qed.

(** The product with a positive number: the error of its magnitude. *)
Lemma SFmul_error sd md ed ma ea :
  -1074 <= ed -> -1074 <= ea ->
  let p := SFmul 53 1024 (S754_finite sd md ed) (S754_finite false ma ea) in
  finite_or_zero p ->
  2 ^ 53 * Z.abs (Z.abs (sval p) - scaled (Zpos (md * ma)) (ed + ea))
    <= scaled (Zpos (md * ma)) (ed + ea) + 2 ^ 53 * 2 ^ 1125.
Proof.
  intros Hed Hea. cbv zeta. cbn [SFmul].
  pose proof (binary_round_aux_error (xorb sd false) (Zpos (md * ma)) (ed + ea)
                ltac:(lia) ltac:(lia)) as H.
  pose proof (scaled_pos (Zpos (md * ma)) (ed + ea) ltac:(lia) ltac:(lia)) as Hp.
  assert (H53 : 0 < 2 ^ 53) by (apply Z.pow_pos_nonneg; lia).
  destruct (binary_round_aux 53 1024 (xorb sd false) (Zpos (md * ma)) (ed + ea) loc_Exact)
    as [s'|s'| |s' m e]; intros Hf; try (destruct Hf; fail).
  - cbn [sval]. change (Z.abs 0) with 0. nia.
  - cbn [sval]. pose proof (scaled_nonneg (Zpos m) e ltac:(lia)).
    destruct H as [H _]. destruct s'; cbn [cond_Zopp];
      [rewrite Z.abs_opp|]; rewrite (Z.abs_eq (scaled (Zpos m) e)) by lia; exact H.
Qed.

End SumOrder.
Section SmoothingContraction.
Local Open Scope Z_scope.

Lemma Prim2SF_0_15 : Prim2SF 0.15 = S754_finite false 5404319552844595 (-55).
Proof. vm_compute. reflexivity. Qed.

(** One smoothing step [this + (v - this) * 0.15] on finite numbers
    within [b * 2^eb]: the result lies between [this] and [v], and its
    distance from [v] is at most 0.85 of the old distance plus the
    rounding of the three operations, [2^-52] of the bound and half the
    least binary64 number. *)
Lemma lerp_step_contract (this v : float) b eb :
  within b eb (Prim2SF this) -> within b eb (Prim2SF v) ->
  canonical_mantissa 53 1024 b eb = true -> eb <= 969 ->
  let R := sval (Prim2SF this) in
  let T := sval (Prim2SF v) in
  let R' := sval (Prim2SF (this + (v - this) * 0.15)) in
  within b eb (Prim2SF (this + (v - this) * 0.15)) /\
  (R <= T -> R <= R' <= T) /\ (T <= R -> T <= R' <= R) /\
  2 ^ 52 * 100 * Z.abs (T - R')
    <= 2 ^ 52 * 85 * Z.abs (T - R) + 100 * (scaled (Zpos b) eb + 2 ^ 52 * 2 ^ 1125).
Proof.
  intros Hr HT Hcan Hemax. cbv zeta.
  pose proof (canonical_exponent b eb Hcan) as Hceb.
  apply within_sval in Hr as [Fr Br]. apply within_sval in HT as [FT BT].
  pose proof (Prim2SF_valid this) as Vr. pose proof (Prim2SF_valid v) as VT.
  pose proof (Prim2SF_valid (v - this)) as Vd.
  pose proof (Prim2SF_valid ((v - this) * 0.15)) as Vp.
  rewrite FloatAxioms.add_spec.
  rewrite FloatAxioms.mul_spec, Prim2SF_0_15 in Vp |- *.
  rewrite FloatAxioms.sub_spec in Vd, Vp |- *.
  change (SF64sub ?a ?c) with (SFsub 53 1024 a c) in *.
  change (SF64mul ?a ?c) with (SFmul 53 1024 a c) in *.
  change (SF64add ?a ?c) with (SFadd 53 1024 a c).
  change (FloatAxioms.valid_binary ?a) with (SpecFloat.valid_binary 53 1024 a) in *.
  set (R := Prim2SF this) in *. set (Tf := Prim2SF v) in *.
  (* the difference *)
  assert (Hbig : scaled (Zpos b) eb * 2 <= scaled 4503599627370496 (eb + 2)).
  { pose proof (digits2_bounds b) as [_ Hb].
    assert (2 ^ Zpos (digits2_pos b) <= 2 ^ 53) by (apply Z.pow_le_mono_r; lia).
    change (2 ^ 53) with (4503599627370496 * 2) in *.
    rewrite <- (scaled_align 4503599627370496 (eb + 2) eb) by lia.
    replace (eb + 2 - eb) with 2 by lia. change (2 ^ 2) with 4.
    unfold scaled. assert (0 < 2 ^ (eb + 2200)) by (apply Z.pow_pos_nonneg; lia).
    nia. }
  destruct (SFsub_spec Tf R 4503599627370496 (eb + 2) VT Vr FT Fr)
    as (Wd & Dpos & Dneg & Ddbl & Dex).
  { unfold canonical_mantissa. apply Z.eqb_eq. rewrite fexp64.
    change (Zpos (digits2_pos 4503599627370496)) with 53. lia. }
  { lia. }
  { lia. }
  apply within_sval in Wd as [Fd _].
  destruct (SFsub_order Tf R VT Vr FT Fr Fd) as [Derr _].
  set (D := SFsub 53 1024 Tf R) in *.
  (* the product *)
  set (P := SFmul 53 1024 D (S754_finite false 5404319552844595 (-55))) in *.
  assert (HP : finite_or_zero P /\
               (0 <= sval Tf - sval R -> 0 <= sval P <= sval Tf - sval R) /\
               (sval Tf - sval R <= 0 -> sval Tf - sval R <= sval P <= 0) /\
               exists X2, 0 <= X2 /\ X2 * 2 ^ 55 = Z.abs (sval D) * 5404319552844595 /\
                 2 ^ 53 * Z.abs (Z.abs (sval P) - X2) <= X2 + 2 ^ 53 * 2 ^ 1125).
  { unfold P. destruct D as [sd|sd| |sd md ed] eqn:ED; try (destruct Fd; fail).
    - cbn [SFmul sval finite_or_zero]. split; [exact I|]. split; [lia|]. split; [lia|].
      exists 0. change (Z.abs 0) with 0. split; [lia|]. split; [reflexivity|].
      assert (0 < 2 ^ 53 * 2 ^ 1125) by (apply Z.mul_pos_pos; apply Z.pow_pos_nonneg; lia).
      change (Z.abs (0 - 0)) with 0. lia.
    - destruct (SFmul_gain sd md ed 5404319552844595 (-55) Vd ltac:(lia))
        as (Fp & Ppos & Pneg & Pabs & Phalf); [vm_compute; discriminate|].
      pose proof (valid_exponent _ _ _ Vd) as Hed.
      pose proof (scaled_pos (Zpos md) ed ltac:(lia) ltac:(lia)) as Hpd.
      split; [exact Fp|].
      assert (Hmag : Z.abs (sval (SFmul 53 1024 (S754_finite sd md ed)
                                    (S754_finite false 5404319552844595 (-55))))
                     <= Z.abs (sval Tf - sval R)).
      { destruct (Z.eq_dec ed (-1074)) as [->|Hne].
        - rewrite <- (Dex sd md eq_refl). cbn [sval].
          destruct sd; cbn [cond_Zopp]; lia.
        - specialize (Phalf ltac:(lia)). cbn [sval] in Ddbl.
          destruct sd; cbn [cond_Zopp] in Ddbl; lia. }
      pose proof (SFmul_error sd md ed 5404319552844595 (-55) ltac:(lia) ltac:(lia) Fp)
        as Perr.
      pose proof (scaled_mul (Zpos md) ed 5404319552844595 (-55)
                    ltac:(lia) ltac:(lia) ltac:(lia)) as Hmul.
      rewrite <- Pos2Z.inj_mul in Hmul.
      assert (HX : scaled (Zpos (md * 5404319552844595)) (ed + -55) * 2 ^ 55
                   = Z.abs (sval (S754_finite sd md ed)) * 5404319552844595).
      { cbn [sval]. replace (Z.abs (cond_Zopp sd (scaled (Zpos md) ed)))
          with (scaled (Zpos md) ed) by (destruct sd; cbn [cond_Zopp]; lia).
        apply (Z.mul_reg_r _ _ (2 ^ 2145)); [apply Z.pow_nonzero; lia|].
        rewrite <- Z.mul_assoc, <- Z.pow_add_r by lia.
        change (55 + 2145) with 2200. rewrite Hmul.
        unfold scaled. change (-55 + 2200) with 2145. ring. }
      cbn [sval] in Dpos, Dneg.
      split; [|split].
      + destruct sd; cbn [cond_Zopp] in Dpos, Dneg.
        * specialize (Pneg eq_refl). intros H; lia.
        * specialize (Ppos eq_refl). intros H; lia.
      + destruct sd; cbn [cond_Zopp] in Dpos, Dneg.
        * specialize (Pneg eq_refl). intros H; lia.
        * specialize (Ppos eq_refl). intros H; lia.
      + exists (scaled (Zpos (md * 5404319552844595)) (ed + -55)).
        split; [apply scaled_nonneg; lia|]. split; [exact HX|exact Perr]. }
  destruct HP as (Fp & Ppos & Pneg & X2 & HX0 & HX & Perr).
  (* the sum lies between the two arguments *)
  destruct (SFadd_spec R P b eb Vr Vp Fr Fp Hcan ltac:(lia)) as (Wc & _); [lia|].
  split; [exact Wc|].
  apply within_sval in Wc as [Fc Bc].
  destruct (SFadd_order R P Vr Vp Fr Fp Fc) as [Cerr Cmono].
  destruct (Cmono R Vr Fr) as [CR1 CR2]. destruct (Cmono Tf VT FT) as [CT1 CT2].
  set (R' := sval (SFadd 53 1024 R P)) in *.
  assert (Hb1 : sval R <= sval Tf -> sval R <= R' <= sval Tf)
    by (intros H; specialize (Ppos ltac:(lia)); split; [apply CR1|apply CT2]; lia).
  assert (Hb2 : sval Tf <= sval R -> sval Tf <= R' <= sval R)
    by (intros H; specialize (Pneg ltac:(lia)); split; [apply CT1|apply CR2]; lia).
  split; [exact Hb1|]. split; [exact Hb2|].
  (* the contraction, from the three relative errors *)
  set (SB := scaled (Zpos b) eb) in *.
  set (r := sval R) in *. set (t := sval Tf) in *.
  set (d := sval D) in *. set (p := sval P) in *.
  clearbody SB r t d p R'.
  clear - Br BT Dpos Dneg Derr Ppos Pneg HX0 HX Perr Cerr Hb1 Hb2.
  change (2 ^ 53) with 9007199254740992 in *.
  change (2 ^ 55) with 36028797018963968 in *.
  change (2 ^ 52) with 4503599627370496.
  assert (H1125 : 0 < 2 ^ 1125) by (apply Z.pow_pos_nonneg; lia).
  set (eta := 2 ^ 1125) in *. clearbody eta.
  destruct (Z_le_gt_dec r t) as [Hrt|Hrt].
  - specialize (Hb1 Hrt). specialize (Dpos ltac:(lia)). specialize (Ppos ltac:(lia)).
    clear Hb2 Dneg Pneg.
    rewrite (Z.abs_eq (t - r)) in * by lia. rewrite (Z.abs_eq (t - R')) by lia.
    rewrite (Z.abs_eq d) in HX by lia. rewrite (Z.abs_eq p) in Perr by lia.
    lia.
  - specialize (Hb2 ltac:(lia)). specialize (Dneg ltac:(lia)). specialize (Pneg ltac:(lia)).
    clear Hb1 Dpos Ppos.
    rewrite (Z.abs_neq (t - r)) in * by lia. rewrite (Z.abs_neq (t - R')) by lia.
    rewrite (Z.abs_neq d) in HX by lia. rewrite (Z.abs_neq p) in Perr by lia.
    lia.
Qed.

End SmoothingContraction.
Section ExactError.
Local Open Scope Q_scope.

Lemma Qval_scaled v :
  Qval v * inject_Z (2 ^ 2200) == inject_Z (sval (Prim2SF v)).
Proof.
  unfold Qval. pose proof (Prim2SF_valid v) as Hv.
  change (FloatAxioms.valid_binary ?a) with (SpecFloat.valid_binary 53 1024 a) in Hv.
  destruct (Prim2SF v) as [s|s| |s m e]; cbn [sval];
    try (rewrite Qmult_0_l; reflexivity).
  apply valid_exponent in Hv.
  rewrite <- scaled_cond_Zopp. unfold scaled.
  rewrite inject_Z_mult, !Zpower_Qpower by lia.
  rewrite <- Qmult_assoc. apply Qmult_comp; [reflexivity|].
  rewrite Qpower_plus by (intros H; discriminate H). reflexivity.
Qed.

Lemma scale_pos : 0 < inject_Z (2 ^ 2200).
Proof.
  rewrite <- (Zlt_Qlt 0). apply Z.pow_pos_nonneg; lia.
Qed.

Lemma pointer_error_scaled t c :
  pointer_error t c * inject_Z (2 ^ 2200)
  == inject_Z (Z.abs (sval (Prim2SF t) - sval (Prim2SF c))).
Proof.
  unfold pointer_error.
  rewrite <- (Qabs_pos (inject_Z (2 ^ 2200))) at 1
    by (apply Qlt_le_weak, scale_pos).
  rewrite <- Qabs_Qmult.
  assert (E : (Qval t - Qval c) * inject_Z (2 ^ 2200)
              == inject_Z (sval (Prim2SF t) - sval (Prim2SF c))).
  { unfold Z.sub. rewrite inject_Z_plus, inject_Z_opp, <- !Qval_scaled. ring. }
  rewrite E. reflexivity.
Qed.

(** Comparing two errors is comparing them on the integer scale. *)
Lemma pointer_error_le t c t' c' :
  (Z.abs (sval (Prim2SF t) - sval (Prim2SF c))
   <= Z.abs (sval (Prim2SF t') - sval (Prim2SF c')))%Z ->
  pointer_error t c <= pointer_error t' c'.
Proof.
  intros H. apply (Qmult_le_r _ _ _ scale_pos).
  rewrite !pointer_error_scaled, <- Zle_Qle. exact H.
Qed.

Lemma pointer_error_lt t c t' c' :
  (Z.abs (sval (Prim2SF t) - sval (Prim2SF c))
   < Z.abs (sval (Prim2SF t') - sval (Prim2SF c')))%Z ->
  pointer_error t c < pointer_error t' c'.
Proof.
  intros H. apply (Qmult_lt_r _ _ _ scale_pos).
  rewrite !pointer_error_scaled, <- Zlt_Qlt. exact H.
Qed.

(** A recurrence [e' <= 0.85 e + sigma] stays within [20/3 sigma] of the
    geometric sequence. *)
Lemma geometric_bound (e : nat -> Q) (sigma : Q) (K : nat) :
  0 <= sigma ->
  (forall k, (k < K)%nat -> e (S k) <= (85 # 100) * e k + sigma) ->
  e K <= (85 # 100) ^ Z.of_nat K * e 0%nat + (20 # 3) * sigma.
Proof.
  intros Hs. induction K as [|K IH]; intros Hstep.
  - change ((85 # 100) ^ Z.of_nat 0) with 1. lra.
  - specialize (IH ltac:(intros k Hk; apply Hstep; lia)).
    specialize (Hstep K ltac:(lia)).
    rewrite Nat2Z.inj_succ. unfold Z.succ.
    rewrite Qpower_plus by (intros H; discriminate H).
    change ((85 # 100) ^ 1) with (85 # 100).
    set (q := (85 # 100) ^ Z.of_nat K) in *.
    assert (E : q * (85 # 100) * e 0%nat == (85 # 100) * (q * e 0%nat)) by ring.
    rewrite E. set (g := q * e 0%nat) in *. lra.
Qed.

End ExactError.
Section SmoothedError.
Import Three.

Lemma canonical_same_value m1 e1 m2 e2 :
  canonical_mantissa 53 1024 m1 e1 = true ->
  canonical_mantissa 53 1024 m2 e2 = true ->
  scaled (Zpos m1) e1 = scaled (Zpos m2) e2 -> m1 = m2 /\ e1 = e2.
Proof.
  intros H1 H2 E.
  apply canonical_exponent in H1, H2.
  pose proof (scaled_le_digits (Zpos m1) e1 (Zpos m2) e2
                ltac:(lia) ltac:(lia) ltac:(lia) ltac:(lia) ltac:(lia)) as Ha.
  pose proof (scaled_le_digits (Zpos m2) e2 (Zpos m1) e1
                ltac:(lia) ltac:(lia) ltac:(lia) ltac:(lia) ltac:(lia)) as Hb.
  cbn [Zdigits2] in Ha, Hb.
  assert (Ee : e1 = e2) by lia. subst e2. split; [|reflexivity].
  assert (Zpos m1 <= Zpos m2)%Z by (apply (scaled_le_inv _ _ e1); lia).
  assert (Zpos m2 <= Zpos m1)%Z by (apply (scaled_le_inv _ _ e1); lia).
  lia.
Qed.

(** Finite numbers of the same value are equal numbers of JavaScript. *)
Lemma sval_eqb x y :
  finite_or_zero (Prim2SF x) -> finite_or_zero (Prim2SF y) ->
  sval (Prim2SF x) = sval (Prim2SF y) -> (x =? y)%float = true.
Proof.
  intros Fx Fy E. rewrite FloatAxioms.eqb_spec.
  pose proof (Prim2SF_valid x) as Vx. pose proof (Prim2SF_valid y) as Vy.
  change (FloatAxioms.valid_binary ?a) with (SpecFloat.valid_binary 53 1024 a) in *.
  destruct (Prim2SF x) as [sx|sx| |sx mx ex]; try (destruct Fx; fail);
    destruct (Prim2SF y) as [sy|sy| |sy my ey]; try (destruct Fy; fail).
  - reflexivity.
  - exfalso. pose proof (valid_exponent _ _ _ Vy).
    pose proof (scaled_pos (Zpos my) ey ltac:(lia) ltac:(lia)).
    cbn [sval] in E. destruct sy; cbn [cond_Zopp] in E; lia.
  - exfalso. pose proof (valid_exponent _ _ _ Vx).
    pose proof (scaled_pos (Zpos mx) ex ltac:(lia) ltac:(lia)).
    cbn [sval] in E. destruct sx; cbn [cond_Zopp] in E; lia.
  - pose proof (valid_exponent _ _ _ Vx). pose proof (valid_exponent _ _ _ Vy).
    pose proof (scaled_pos (Zpos mx) ex ltac:(lia) ltac:(lia)).
    pose proof (scaled_pos (Zpos my) ey ltac:(lia) ltac:(lia)).
    cbn [SpecFloat.valid_binary] in Vx, Vy. unfold bounded in Vx, Vy.
    apply andb_prop in Vx as [Cx _]. apply andb_prop in Vy as [Cy _].
    cbn [sval] in E.
    assert (Es : sx = sy /\ scaled (Zpos mx) ex = scaled (Zpos my) ey)
      by (destruct sx, sy; cbn [cond_Zopp] in E; split; try reflexivity; lia).
    destruct Es as [-> Ev].
    destruct (canonical_same_value mx ex my ey Cx Cy Ev) as [-> ->].
    apply SFeqb_refl_finite.
Qed.

Lemma within_not_infinity c b eb :
  within b eb (Prim2SF c) -> is_infinity c = false.
Proof.
  intros H. unfold is_infinity.
  rewrite FloatAxioms.eqb_spec, FloatAxioms.abs_spec.
  change (Prim2SF infinity) with (S754_infinity false).
  destruct (Prim2SF c) as [s|s| |s m e]; try (destruct H; fail); reflexivity.
Qed.

(** A positive bound up to [2^1020], and its opposite. *)
Lemma bound_repr B :
  (0 <? B)%float = true -> (B <=? 0x1p1020)%float = true ->
  exists b eb,
    Prim2SF B = S754_finite false b eb /\ Prim2SF (- B) = S754_finite true b eb /\
    canonical_mantissa 53 1024 b eb = true /\ (eb <= 969)%Z.
Proof.
  intros H0 H1. rewrite ltb_spec in H0. rewrite leb_spec in H1.
  rewrite FloatAxioms.opp_spec.
  change (Prim2SF 0) with (S754_zero false) in H0.
  change (Prim2SF 0x1p1020) with (S754_finite false 4503599627370496 968) in H1.
  pose proof (Prim2SF_valid B) as Vb.
  change (FloatAxioms.valid_binary ?a) with (SpecFloat.valid_binary 53 1024 a) in *.
  destruct (Prim2SF B) as [s|s| |s m e].
  - discriminate H0.
  - destruct s; [discriminate H0|discriminate H1].
  - discriminate H0.
  - destruct s; [discriminate H0|].
    exists m, e. split; [reflexivity|]. split; [reflexivity|].
    cbn [SpecFloat.valid_binary] in Vb. unfold bounded in Vb.
    apply andb_prop in Vb as [Cb _]. split; [exact Cb|].
    pose proof (SFcompare_scaled m e 4503599627370496 968 Cb eq_refl) as Hc.
    unfold SFleb in H1.
    assert (Hle : (scaled (Zpos m) e <= scaled 4503599627370496 968)%Z).
    { destruct (SFcompare (S754_finite false m e)
                  (S754_finite false 4503599627370496 968)) as [[| |]|];
        try discriminate H1; lia. }
    apply canonical_exponent in Cb.
    pose proof (scaled_le_digits (Zpos m) e 4503599627370496 968
                  ltac:(lia) ltac:(lia) ltac:(lia) ltac:(lia) Hle) as Hd.
    cbn [Zdigits2] in Hd. change (Zpos (digits2_pos 4503599627370496)) with 53%Z in Hd.
    lia.
Qed.

Local Open Scope Q_scope.

Lemma slack_nonneg B b eb :
  Prim2SF B = S754_finite false b eb ->
  0 <= Qval B * 2 ^ (-52) + 2 ^ (-1075).
Proof.
  intros EB.
  assert (0 <= Qval B).
  { apply (Qmult_le_r _ _ _ scale_pos). rewrite Qmult_0_l, Qval_scaled, EB.
    rewrite <- (Zle_Qle 0). cbn [sval cond_Zopp]. apply scaled_nonneg. lia. }
  assert (0 < 2 ^ (-52)) by reflexivity.
  assert (0 < 2 ^ (-1075)) by reflexivity.
  assert (0 <= Qval B * 2 ^ (-52)) by (apply Qmult_le_0_compat; lra).
  lra.
Qed.

(** One smoothing step on the exact error. *)
Lemma flerp1_error this v B b eb :
  Prim2SF B = S754_finite false b eb ->
  canonical_mantissa 53 1024 b eb = true -> (eb <= 969)%Z ->
  within b eb (Prim2SF this) -> within b eb (Prim2SF v) ->
  let c' := flerp1 this v 0.15 in
  within b eb (Prim2SF c') /\
  pointer_error v c' <= pointer_error v this /\
  ((c' =? this)%float = false -> pointer_error v c' < pointer_error v this) /\
  pointer_error v c'
    <= (85 # 100) * pointer_error v this + (Qval B * 2 ^ (-52) + 2 ^ (-1075)).
Proof.
  intros EB Hcan Heb Wc Wv. cbv zeta. unfold flerp1, lerp1.
  destruct (lerp_step_contract this v b eb Wc Wv Hcan Heb) as (W & Hb1 & Hb2 & Hc).
  cbv zeta in Hb1, Hb2, Hc.
  split; [exact W|]. split; [|split].
  - apply pointer_error_le.
    destruct (Z_le_gt_dec (sval (Prim2SF this)) (sval (Prim2SF v))) as [H|H].
    + specialize (Hb1 H). lia.
    + specialize (Hb2 ltac:(lia)). lia.
  - intros Hne. apply pointer_error_lt.
    assert (Hd : sval (Prim2SF (this + (v - this) * 0.15)) <> sval (Prim2SF this)).
    { intros E. apply sval_eqb in E.
      - rewrite E in Hne. discriminate Hne.
      - apply within_sval in W. apply W.
      - apply within_sval in Wc. apply Wc. }
    destruct (Z_le_gt_dec (sval (Prim2SF this)) (sval (Prim2SF v))) as [H|H].
    + specialize (Hb1 H). lia.
    + specialize (Hb2 ltac:(lia)). lia.
  - apply (Qmult_le_r _ _ _ scale_pos).
    rewrite Qmult_plus_distr_l, Qmult_plus_distr_l, <- Qmult_assoc.
    rewrite !pointer_error_scaled.
    assert (EBs : Qval B * 2 ^ (-52) * inject_Z (2 ^ 2200)
                  == inject_Z (scaled (Zpos b) eb) * (1 # 4503599627370496)).
    { rewrite <- (Qmult_assoc (Qval B)), (Qmult_comm (2 ^ (-52))), Qmult_assoc.
      rewrite Qval_scaled, EB. reflexivity. }
    assert (Eeta : 2 ^ (-1075) * inject_Z (2 ^ 2200) == inject_Z (2 ^ 1125))
      by (vm_compute; reflexivity).
    rewrite EBs, Eeta.
    rewrite Zle_Qle in Hc.
    repeat (rewrite inject_Z_plus in Hc || rewrite inject_Z_mult in Hc).
    change (inject_Z (2 ^ 52)) with (4503599627370496 # 1) in Hc.
    change (inject_Z 100) with (100 # 1) in Hc.
    change (inject_Z 85) with (85 # 1) in Hc.
    set (a := inject_Z (Z.abs (sval (Prim2SF v)
                               - sval (Prim2SF (this + (v - this) * 0.15))))) in *.
    set (e := inject_Z (Z.abs (sval (Prim2SF v) - sval (Prim2SF this)))) in *.
    set (sb := inject_Z (scaled (Zpos b) eb)) in *.
    set (eta := inject_Z (2 ^ 1125)) in *.
    clearbody a e sb eta. lra.
Qed.

Lemma smoothed_coordinate t c k i :
  coordinate i (smoothed t c (S k))
  = flerp1 (coordinate i (smoothed t c k)) (coordinate i t) 0.15.
Proof.
  unfold smoothed. rewrite Nat.iter_succ. destruct i as [|[|i]]; reflexivity.
Qed.

(** [K] smoothing steps toward a constant target. *)
Lemma smoothed_error t c B b eb i K :
  Prim2SF B = S754_finite false b eb ->
  canonical_mantissa 53 1024 b eb = true -> (eb <= 969)%Z ->
  within b eb (Prim2SF (coordinate i c)) -> within b eb (Prim2SF (coordinate i t)) ->
  within b eb (Prim2SF (coordinate i (smoothed t c K))) /\
  pointer_error (coordinate i t) (coordinate i (smoothed t c K))
    <= (85 # 100) ^ Z.of_nat K * pointer_error (coordinate i t) (coordinate i c)
       + 7 * (Qval B * 2 ^ (-52) + 2 ^ (-1075)).
Proof.
  intros EB Hcan Heb Wc Wt.
  assert (W : forall k, within b eb (Prim2SF (coordinate i (smoothed t c k)))).
  { induction k as [|k IH]; [exact Wc|].
    rewrite smoothed_coordinate.
    apply (flerp1_error _ _ B b eb EB Hcan Heb IH Wt). }
  split; [apply W|].
  pose proof (slack_nonneg B b eb EB) as Hs.
  pose proof (geometric_bound
                (fun k => pointer_error (coordinate i t) (coordinate i (smoothed t c k)))
                (Qval B * 2 ^ (-52) + 2 ^ (-1075)) K Hs) as G.
  cbv beta in G.
  assert (Hstep : forall k, (k < K)%nat ->
            pointer_error (coordinate i t) (coordinate i (smoothed t c (S k)))
            <= (85 # 100) * pointer_error (coordinate i t) (coordinate i (smoothed t c k))
               + (Qval B * 2 ^ (-52) + 2 ^ (-1075))).
  { intros k _. rewrite smoothed_coordinate.
    apply (flerp1_error _ _ B b eb EB Hcan Heb (W k) Wt). }
  specialize (G Hstep). change (smoothed t c 0) with c in G.
  set (sigma := Qval B * 2 ^ (-52) + 2 ^ (-1075)) in *.
  set (g := (85 # 100) ^ Z.of_nat K
            * pointer_error (coordinate i t) (coordinate i c)) in *.
  lra.
Qed.

End SmoothedError.
Section PointerContraction.
Context {M : JsMath}.
Import Three.

Lemma target_run_frames es s :
  forallb is_frame es = true -> targetHandPos (run es s) = targetHandPos s.
Proof.
  revert s. induction es as [|e es IH]; intros s H; [reflexivity|].
  cbn [forallb] in H. apply andb_prop in H as [He Hes].
  destruct e; try discriminate He.
  rewrite run_cons, IH by exact Hes. reflexivity.
Qed.

Lemma coordinate_lerp i c t a :
  coordinate i (lerp c t a) = flerp1 (coordinate i c) (coordinate i t) a.
Proof. destruct i as [|[|i]]; reflexivity. Qed.

Local Open Scope Q_scope.

(** C4: in the numbers of the code, over a run of [K] frames of [animate]
    during which no hand sample arrives, the target stays where it was and,
    for every component of the pointer that starts with its target between
    [-B] and [B]: the error [|target - current|], read exactly, never grows
    on a frame; it strictly decreases on every frame that moves the
    component, and on every frame that starts with an error above
    [7 * (B * 2^-52 + 2^-1075)]; after the [K] frames it is at most
    [(1 - 0.15)^K] times the initial error plus [7 * (B * 2^-52 + 2^-1075)];
    and a component that is on its target is left where it is. *)
Theorem C4_smoothing_contracts (es : list event) (s : Scene) (elapsed B : float)
    (i : nat) :
  forallb is_frame es = true ->
  (0 <? B)%float = true -> (B <=? 0x1p1020)%float = true ->
  between (- B)%float B (coordinate i (currentHandPos s)) ->
  between (- B)%float B (coordinate i (targetHandPos s)) ->
  let K := length es in
  let err u := pointer_error (coordinate i (targetHandPos u))
                             (coordinate i (currentHandPos u)) in
  let moved u u' := (coordinate i (currentHandPos u')
                     =? coordinate i (currentHandPos u))%float = false in
  let slack := Qval B * 2 ^ (-52) + 2 ^ (-1075) in
  let sK := run es s in
  let sK1 := animate elapsed sK in
  targetHandPos sK1 = targetHandPos s /\
  err sK1 <= err sK /\
  (moved sK sK1 -> err sK1 < err sK) /\
  (7 * slack < err sK -> err sK1 < err sK) /\
  err sK <= (1 - (15 # 100)) ^ Z.of_nat K * err s + 7 * slack /\
  ((coordinate i (targetHandPos sK) =? coordinate i (currentHandPos sK))%float = true ->
   (coordinate i (currentHandPos sK1) =? coordinate i (currentHandPos sK))%float = true).
Proof.
  intros Hfr HB0 HB1 [Hc1 Hc2] [Ht1 Ht2] K err moved slack sK sK1.
  destruct (bound_repr B HB0 HB1) as (b & eb & EB & EBn & Hcan & Heb).
  pose proof (leb_within _ _ _ b eb Hc1 Hc2 EBn EB Hcan) as Wc.
  pose proof (leb_within _ _ _ b eb Ht1 Ht2 EBn EB Hcan) as Wt.
  destruct (smoothed_error (targetHandPos s) (currentHandPos s) B b eb i K
              EB Hcan Heb Wc Wt) as [WK HK].
  assert (EtK : targetHandPos sK = targetHandPos s)
    by (apply target_run_frames, Hfr).
  assert (EcK : currentHandPos sK
                = smoothed (targetHandPos s) (currentHandPos s) K)
    by (apply current_run_frames, Hfr).
  assert (Ec1 : coordinate i (currentHandPos sK1)
                = flerp1 (coordinate i (currentHandPos sK))
                         (coordinate i (targetHandPos s)) 0.15%float).
  { unfold sK1. rewrite current_animate, coordinate_lerp, EtK. reflexivity. }
  rewrite <- EcK in WK, HK.
  destruct (flerp1_error _ _ B b eb EB Hcan Heb WK Wt) as (_ & Hle & Hlt & Hstep).
  cbv zeta in Hle, Hlt, Hstep.
  assert (Et1 : targetHandPos sK1 = targetHandPos s)
    by (unfold sK1; rewrite target_animate; exact EtK).
  unfold err, moved. rewrite Et1, EtK, Ec1.
  split; [reflexivity|]. split; [exact Hle|]. split; [exact Hlt|].
  split; [|split].
  - pose proof (slack_nonneg B b eb EB) as Hs.
    fold slack in Hstep, Hs. intros Hbig.
    set (e1 := pointer_error _ (flerp1 _ _ _)) in *.
    set (e0 := pointer_error _ (coordinate i (currentHandPos sK))) in *.
    lra.
  - assert (E85 : (1 - (15 # 100)) ^ Z.of_nat K == (85 # 100) ^ Z.of_nat K).
    { apply Qpower_comp; reflexivity. }
    rewrite E85. exact HK.
  - intros Heq.
    exact (flerp1_fixed_point _ _ Heq (within_not_infinity _ _ _ WK)).
Qed.

End PointerContraction.
(** ** Instances on the sample scene *)

Section RunInstances.
Import Three.
Local Open Scope float_scope.

Lemma settled_scene_wf : wf settled_scene.
Proof. apply wf_run, sample_scene_wf. Qed.

(** The sample scene once a photo has loaded at clock time 10. *)
Lemma sample_photo :
  memoriesGroup (step (M := sample_math) sample_scene (MemoryLoaded 0 0 0 10)) !! 0%nat
  = Some (mkMesh (mkVector3 12 (-5) 0) 0 10).
Proof.
  change (step ?s (MemoryLoaded ?a ?b ?c ?d))
    with (addMemory_loaded (M := sample_math) a b c d s).
  unfold addMemory_loaded. cbv beta zeta. cbn [memoriesGroup].
  change (memoriesGroup sample_scene) with (@nil Mesh).
  cbn [app lookup list_lookup]. vm_compute. reflexivity.
Qed.

Lemma trail_is_delay_line_witness :
  let es := [HandUpdate 0.6 0.5 false; Frame (1 / 60); Frame (2 / 60)] in
  wf sample_scene /\ (1 < trailCount)%nat /\ (0 < 3)%nat /\
  load (tPos (run (M := sample_math) es sample_scene)) (1 * 3 + 0)
  = match frame_pointers (M := sample_math) es sample_scene !! 1%nat with
    | Some p => fround (coordinate 0 p)
    | None =>
        load (tPos sample_scene)
          ((1 - length (frame_pointers (M := sample_math) es sample_scene)) * 3 + 0)
    end.
Proof.
  cbv zeta.
  refine (conj sample_scene_wf (conj _ (conj _ _))).
  - unfold trailCount. lia.
  - lia.
  - apply (trail_is_delay_line (M := sample_math)).
    + exact sample_scene_wf.
    + unfold trailCount. lia.
    + lia.
Defined.

Lemma photo_over_a_run_witness :
  let s := step (M := sample_math) sample_scene (MemoryLoaded 0 0 0 10) in
  let mesh := mkMesh (mkVector3 12 (-5) 0) 0 10 in
  let es := [Frame 11; HandUpdate 0.5 0.5 true; Frame 13] in
  memoriesGroup s !! 0%nat = Some mesh /\
  exists mesh',
    memoriesGroup (run (M := sample_math) es s) !! 0%nat = Some mesh' /\
    birth mesh' = birth mesh /\
    Three.x (position mesh') = Three.x (position mesh) /\
    Three.z (position mesh') = Three.z (position mesh) /\
    mat_opacity mesh' = faded es (birth mesh) (mat_opacity mesh).
Proof.
  cbv zeta. refine (conj sample_photo _).
  apply (photo_over_a_run (M := sample_math)). exact sample_photo.
Defined.

Lemma photo_shown_late_stays_witness :
  let s := step (M := sample_math) sample_scene (MemoryLoaded 0 0 0 10) in
  let mesh := mkMesh (mkVector3 12 (-5) 0) 0 10 in
  let es := [Frame 12; HandUpdate 0.5 0.5 true; Frame 13] in
  memoriesGroup s !! 0%nat = Some mesh /\
  Forall (fun e => match e with
                   | Frame elapsed => (elapsed - or_else (birth mesh) 0 <? 2) = false
                   | _ => True
                   end) es /\
  exists mesh',
    memoriesGroup (run (M := sample_math) es s) !! 0%nat = Some mesh' /\
    mat_opacity mesh' = mat_opacity mesh.
Proof.
  cbv zeta.
  assert (Hlate : Forall (fun e => match e with
                   | Frame elapsed =>
                       (elapsed - or_else (birth (mkMesh (mkVector3 12 (-5) 0) 0 10)) 0 <? 2)
                       = false
                   | _ => True
                   end) [Frame 12; HandUpdate 0.5 0.5 true; Frame 13]).
  { repeat constructor. }
  refine (conj sample_photo (conj Hlate _)).
  apply (photo_shown_late_stays (M := sample_math)); [exact sample_photo|exact Hlate].
Defined.

Lemma vortex_as_built_witness :
  let es := [Frame (1 / 60); HandUpdate 0.5 0.5 true] in
  (0 < vortexCount)%nat /\
  (forall c, (c < 3)%nat ->
     load (vPos sample_scene) (0 * 3 + c)
     = fround (placed (M := sample_math) sample_random 0 c)) /\
  load (vVel (run (M := sample_math) es sample_scene)) 0
  = fround (drawn_velocity sample_random 0).
Proof.
  cbv zeta. split; [unfold vortexCount; lia|].
  apply (vortex_as_built (M := sample_math) sample_random). unfold vortexCount. lia.
Defined.

Lemma trail_closes_up_on_resting_pointer_witness :
  let es := Frame 4 :: MemoryLoaded 0 0 0 4 :: frames_60fps 2 in
  wf settled_scene /\
  forallb (fun e => negb (is_hand_update e)) es = true /\
  lerp (currentHandPos settled_scene) (targetHandPos settled_scene) 0.15
  = currentHandPos settled_scene /\
  (2 < length (List.filter is_frame es))%nat /\ (2 < trailCount)%nat /\
  (2 < 3)%nat /\
  currentHandPos (run (M := sample_math) es settled_scene)
  = currentHandPos settled_scene /\
  load (tPos (run (M := sample_math) es settled_scene)) (2 * 3 + 2)
  = fround (coordinate 2 (currentHandPos settled_scene)).
Proof.
  cbv zeta.
  assert (Hrest : lerp (currentHandPos settled_scene) (targetHandPos settled_scene) 0.15
                  = currentHandPos settled_scene).
  { rewrite settled_scene_target, settled_scene_current. vm_compute. reflexivity. }
  assert (Hes : forallb (fun e => negb (is_hand_update e))
                  (Frame 4 :: MemoryLoaded 0 0 0 4 :: frames_60fps 2) = true)
    by reflexivity.
  assert (Hj : (2 < length (List.filter is_frame
                      (Frame 4 :: MemoryLoaded 0 0 0 4 :: frames_60fps 2)))%nat)
    by (cbn; lia).
  assert (Hjt : (2 < trailCount)%nat) by (unfold trailCount; lia).
  refine (conj settled_scene_wf (conj Hes (conj Hrest (conj Hj (conj Hjt
            (conj (Nat.lt_succ_diag_r 2) _)))))).
  apply (trail_closes_up_on_resting_pointer (M := sample_math));
    [exact settled_scene_wf|exact Hes|exact Hrest|exact Hj|exact Hjt|lia].
Defined.

End RunInstances.

Section PageInstances.
Import Three.
Local Open Scope float_scope.

Lemma page_run_is_scene_run_witness :
  let p := mkPage (mkAppState false (Some sample_scene)) true in
  let cs := [Detect (Some (hand_with_gap 0.05)); Animate (1 / 60);
             TextureLoaded 0 0 0 (1 / 30); Detect None] in
  detecting p = true /\ sceneRef (page_app p) = Some sample_scene /\
  forallb callback_readable cs = true /\
  page_run (M := sample_math) cs p
  = mkPage (mkAppState (foldl hand_seen (handDetected (page_app p)) cs)
              (Some (run (M := sample_math)
                       (flat_map (scene_events (M := sample_math)) cs)
                       sample_scene))) true.
Proof.
  cbv zeta.
  refine (conj eq_refl (conj eq_refl (conj eq_refl _))).
  apply (page_run_is_scene_run (M := sample_math)); reflexivity.
Defined.

Lemma hand_tracking_ends_with_a_throw_witness :
  let p := mkPage (mkAppState false (Some sample_scene)) true in
  let result := Some (mkHandResult true (replicate 9 (mkLandmark 0.5 0.5))) in
  let cs := [Animate (1 / 60); Detect (Some (hand_with_gap 0.05))] in
  detecting p = true /\
  throws (detectLoop (M := sample_math) result (page_app p)) = true /\
  let p' := page_run (M := sample_math) (Detect result :: cs) p in
  detecting p' = false /\
  handDetected (page_app p') = true /\
  option_map targetHandPos (sceneRef (page_app p'))
  = option_map targetHandPos (sceneRef (page_app p)) /\
  option_map isPinchingRef (sceneRef (page_app p'))
  = option_map isPinchingRef (sceneRef (page_app p)) /\
  option_map mainGroup_rotation (sceneRef (page_app p'))
  = option_map mainGroup_rotation (sceneRef (page_app p)).
Proof.
  cbv zeta.
  refine (conj eq_refl (conj eq_refl _)).
  apply (hand_tracking_ends_with_a_throw (M := sample_math)); reflexivity.
Defined.

Lemma setupCV_outcomes_witness :
  let u := mkShell false None (mkPage (mkAppState false (Some sample_scene)) false) in
  let b := mkBrowser true true true in
  camError u = None /\
  let u' := setupCV (M := sample_math) b None u in
  (detecting (shell_page u') = true <->
   camera_granted b = true /\ video_mounted b = true /\ tracker_ready b = true /\
   throws (detectLoop (M := sample_math) None (page_app (shell_page u))) = false) /\
  (camError u' = None <->
   detecting (shell_page u') = true \/
   (camera_granted b = true /\ video_mounted b = false)) /\
  uiHidden u' = uiHidden u.
Proof.
  cbv zeta. refine (conj eq_refl _).
  apply (setupCV_outcomes (M := sample_math)). reflexivity.
Defined.

End PageInstances.
Section RangeInstances.
Import Three.
Local Open Scope float_scope.


Lemma pointer_stays_in_the_box_witness :
  let es := [HandUpdate 1 0 false; Frame (1 / 60); Frame (2 / 60)] in
  forallb in_image es = true /\
  pointer_in_box (currentHandPos (run (M := sample_math) es sample_scene)).
Proof.
  cbv zeta. refine (conj eq_refl _).
  apply (pointer_stays_in_the_box (M := sample_math) sample_random). reflexivity.
Defined.

Lemma tilt_stays_in_range_witness :
  let es := [HandUpdate 1 0 false; Frame (1 / 60); HandUpdate 1 1 true] in
  forallb in_image es = true /\
  tilt_in_range (mainGroup_rotation (run (M := sample_math) es sample_scene)).
Proof.
  cbv zeta. refine (conj eq_refl _).
  apply (tilt_stays_in_range (M := sample_math) sample_random). reflexivity.
Defined.

End RangeInstances.
Section SmoothingWitness.
Import Three.
Local Open Scope float_scope.

Lemma C4_smoothing_contracts_witness :
  let es := frames_60fps 3 in
  let s := updateHandInteraction 0.6 0.5 false sample_scene in
  let elapsed := 4 / 60 in
  let B := 25 in
  let i := 0%nat in
  forallb is_frame es = true /\
  (0 <? B) = true /\ (B <=? 0x1p1020) = true /\
  between (- B) B (coordinate i (currentHandPos s)) /\
  between (- B) B (coordinate i (targetHandPos s)) /\
  let K := length es in
  let err u := pointer_error (coordinate i (targetHandPos u))
                             (coordinate i (currentHandPos u)) in
  let moved u u' := (coordinate i (currentHandPos u')
                     =? coordinate i (currentHandPos u)) = false in
  let slack := (Qval B * 2 ^ (-52) + 2 ^ (-1075))%Q in
  let sK := run (M := sample_math) es s in
  let sK1 := animate (M := sample_math) elapsed sK in
  targetHandPos sK1 = targetHandPos s /\
  (err sK1 <= err sK)%Q /\
  (moved sK sK1 -> (err sK1 < err sK)%Q) /\
  ((7 * slack < err sK)%Q -> (err sK1 < err sK)%Q) /\
  (err sK <= (1 - (15 # 100)) ^ Z.of_nat K * err s + 7 * slack)%Q /\
  ((coordinate i (targetHandPos sK) =? coordinate i (currentHandPos sK)) = true ->
   (coordinate i (currentHandPos sK1) =? coordinate i (currentHandPos sK)) = true).
Proof.
  intros es s elapsed B i.
  assert (H1 : forallb is_frame es = true) by (vm_compute; reflexivity).
  assert (H2 : (0 <? B) = true) by (vm_compute; reflexivity).
  assert (H3 : (B <=? 0x1p1020) = true) by (vm_compute; reflexivity).
  assert (H4 : between (- B) B (coordinate i (currentHandPos s))).
  { unfold s. rewrite current_updateHandInteraction, sample_scene_current.
    split; vm_compute; reflexivity. }
  assert (H5 : between (- B) B (coordinate i (targetHandPos s))).
  { unfold s. rewrite target_updateHandInteraction.
    split; vm_compute; reflexivity. }
  split; [exact H1|]. split; [exact H2|]. split; [exact H3|].
  split; [exact H4|]. split; [exact H5|].
  exact (C4_smoothing_contracts (M := sample_math) es s elapsed B i H1 H2 H3 H4 H5).
Defined.

End SmoothingWitness.
